(** * OSM Speed Audit Tool: path assembly, sampling and the analysis pipeline

    A shallow embedding of the core of the repository:
    - [fetchStreetData] (services/osmService): the part that turns the
      Overpass elements into one ordered, direction-normalised path;
    - [getSamplePoints] (services/osmService): arc-length resampling;
    - [handleAnalyzeClick] and its [worker] closure (App): the bounded
      worker pool, validation of the detected sign and the discrepancy flag.

    Conventions.  A JavaScript number is modelled by an exact rational [Q]:
    rounding, NaN and the infinities are left out.  Object ids are integers
    [Z].  The trigonometric helpers ([haversineDistance], [calculateBearing])
    and the printing of numbers are taken as parameters ([FloatOps]); no
    statement below depends on what they compute.  [null] is [None]. *)

From Stdlib Require Import QArith Qabs Qround Qminmax Lqa Ascii String.
From stdpp Require Import gmap strings list fin_maps sorting pretty.

Local Open Scope string_scope.
Local Open Scope list_scope.
Local Open Scope Z_scope.

(** ** Numbers *)

(** [a < b] on JavaScript numbers. *)
Definition Qltb (a b : Q) : bool := negb (Qle_bool b a).

(** The conversion factor written in the source, [1.60934]. *)
Definition MPH_TO_KMH : Q := 160934 # 100000.

(** ** Strings *)

Module Js.

Definition isDigit (c : ascii) : bool :=
  let n := N_of_ascii c in (48 <=? n)%N && (n <=? 57)%N.

Definition lowerChar (c : ascii) : ascii :=
  let n := N_of_ascii c in
  if (65 <=? n)%N && (n <=? 90)%N then ascii_of_N (n + 32) else c.

(** [s.toLowerCase()], on ASCII text. *)
Fixpoint toLowerCase (s : string) : string :=
  match s with
  | EmptyString => EmptyString
  | String c r => String (lowerChar c) (toLowerCase r)
  end.

Fixpoint startsWith (p s : string) : bool :=
  match p, s with
  | EmptyString, _ => true
  | String a p', String b s' => if Ascii.eqb a b then startsWith p' s' else false
  | String _ _, EmptyString => false
  end.

(** [s.includes(sub)]. *)
Fixpoint includes (s sub : string) : bool :=
  startsWith sub s ||
  match s with
  | EmptyString => false
  | String _ r => includes r sub
  end.

(** The longest prefix of [s] made of decimal digits. *)
Fixpoint digitRun (s : string) : string :=
  match s with
  | String c r => if isDigit c then String c (digitRun r) else EmptyString
  | EmptyString => EmptyString
  end.

(** [s.match(/(\d+)/)]: the leftmost maximal run of digits, if any. *)
Fixpoint matchDigits (s : string) : option string :=
  match s with
  | EmptyString => None
  | String c r => if isDigit c then Some (digitRun s) else matchDigits r
  end.

Fixpoint parseDigits (acc : Z) (s : string) : Z :=
  match s with
  | EmptyString => acc
  | String c r => parseDigits (10 * acc + (Z.of_N (N_of_ascii c) - 48)) r
  end.

(** [parseInt(s, 10)] on a string of digits. *)
Definition parseInt (s : string) : Z := parseDigits 0 s.

(** [a.slice(0, e)] for an integer [e]: a negative [e] counts from the
    end of the array. *)
Definition slice0 {A} (a : list A) (e : Z) : list A :=
  if e <? 0 then take (Z.to_nat (Z.max (Z.of_nat (length a) + e) 0)) a
  else take (Z.to_nat e) a.

End Js.

(** ** Data model (types.ts) *)

Record OSMPoint := mkPoint {
  lat : Q;
  lon : Q;
  speed : option string;
  wayId : option Z
}.

Record GeminiAnalysisResult := mkAnalysis {
  speed_limit : option Q;
  confidence : Q
}.

Record AnalyzedPoint := mkAnalyzed {
  id : string;
  location : OSMPoint;
  osmSpeed : option string;
  detectedSpeed : option Q;
  ap_confidence : option Q;
  isDiscrepancy : bool;
  imageUrl : string;
  heading : Q;
  ap_wayId : option Z;
  imageDate : option string
}.

(** What the numeric helpers of the source provide. *)
Class FloatOps := {
  haversineDistance : Q -> Q -> Q -> Q -> Q;
  calculateBearing : OSMPoint -> OSMPoint -> Q;
  numberToString : Q -> string
}.

(** ** The analysis of one sample (the body of [worker]) *)

(** The value of [analysisResult?.speed_limit]: a missing result gives
    [undefined], which is not [null]. *)
Inductive JsNum := JsNull | JsUndefined | JsNumber (q : Q).

Definition optSpeedLimit (r : option GeminiAnalysisResult) : JsNum :=
  match r with
  | None => JsUndefined
  | Some a => match speed_limit a with Some q => JsNumber q | None => JsNull end
  end.

Definition isNotNull (v : JsNum) : bool :=
  match v with JsNull => false | _ => true end.

(** [v >= b] and [v <= b]: comparisons with [undefined] and, as the
    surrounding test has excluded it, [null] are false. *)
Definition jsGe (v : JsNum) (b : Q) : bool :=
  match v with JsNumber q => Qle_bool b q | _ => false end.
Definition jsLe (v : JsNum) (b : Q) : bool :=
  match v with JsNumber q => Qle_bool q b | _ => false end.

Definition minSpeed (country : string) : Q := if String.eqb country "USA" then 5 else 10.
Definition maxSpeed (country : string) : Q := if String.eqb country "USA" then 90 else 150.

(** [detectedSpeed] after the confidence test. *)
Definition afterConfidence (confidenceThreshold : Q)
    (r : option GeminiAnalysisResult) : JsNum :=
  let detected := optSpeedLimit r in
  let conf := option_map confidence r in
  match conf with
  | Some c => if isNotNull detected && Qltb c confidenceThreshold then JsNull else detected
  | None => detected
  end.

(** [finalDetectedSpeed]. *)
Definition finalDetectedSpeed (country : string) (confidenceThreshold : Q)
    (r : option GeminiAnalysisResult) : option Q :=
  let detected := afterConfidence confidenceThreshold r in
  if isNotNull detected && jsGe detected (minSpeed country) && jsLe detected (maxSpeed country)
  then match detected with JsNumber q => Some q | _ => None end
  else None.

(** The recorded value in km/h: [m] is the digit run matched in [s]. *)
Definition osmSpeedInKmh (s m : string) : Q :=
  let osmSpeedValue := inject_Z (Js.parseInt m) in
  if Js.includes (Js.toLowerCase s) "mph" then (osmSpeedValue * MPH_TO_KMH)%Q
  else osmSpeedValue.

Definition detectedSpeedInKmh (country : string) (final : Q) : Q :=
  if String.eqb country "USA" then (final * MPH_TO_KMH)%Q else final.

(** [isDiscrepancy] from the recorded tag and the validated detection. *)
Definition classify (country : string) (osm : option string) (final : option Q) : bool :=
  match osm, final with
  | Some s, Some d =>
      match Js.matchDigits s with
      | Some m => Qltb 5 (Qabs (osmSpeedInKmh s m - detectedSpeedInKmh country d))
      | None => true
      end
  | None, Some _ => true
  | _, _ => false
  end.

(** ** Results of code that can throw *)

(** A computation returns, throws (a [TypeError] on reading a property of
    [undefined], or an [Error] raised by the code), or, for a loop bounded
    by a counter in this model, runs out of it. *)
Inductive Result (A : Type) :=
| Ok (a : A)
| Throw (message : string)
| OutOfFuel.
Arguments Ok {A} a.
Arguments Throw {A} message.
Arguments OutOfFuel {A}.

#[global] Instance result_ret : MRet Result := fun A a => Ok a.
#[global] Instance result_bind : MBind Result := fun A B k r =>
  match r with
  | Ok a => k a
  | Throw m => Throw m
  | OutOfFuel => OutOfFuel
  end.

(** Reading a property of a value that may be [undefined]. *)
Definition deref {A} (what : string) (o : option A) : Result A :=
  match o with
  | Some a => Ok a
  | None => Throw ("TypeError: " +:+ what +:+ " is undefined")
  end.

(** ** An object with numeric keys

    [for (k in o)] enumerates the keys that are array indices in ascending
    order, then the other keys in the order of their first insertion. *)
Module JsObject.

Record t (V : Type) := mk { store : gmap Z V; order : list Z }.
Arguments mk {V} store order.
Arguments store {V} _.
Arguments order {V} _.

Definition empty {V} : t V := mk ∅ [].

Definition get {V} (k : Z) (o : t V) : option V := store o !! k.

Definition set {V} (k : Z) (v : V) (o : t V) : t V :=
  mk (<[k := v]> (store o))
     (if decide (k ∈ order o) then order o else order o ++ [k]).

Definition isIndex (k : Z) : bool := (0 <=? k) && (k <? 2 ^ 32 - 1).

Definition keys {V} (o : t V) : list Z :=
  merge_sort Z.le (filter (fun k => isIndex k = true) (order o))
  ++ filter (fun k => isIndex k = false) (order o).

End JsObject.

(** ** Path assembly (fetchStreetData) *)

Record OSMWay := mkWay {
  way_id : Z;
  way_nodes : list Z;
  way_speed : option string;
  oneway : string
}.

(** One entry of [data.elements]; the tags of a way are [None] when absent. *)
Inductive Element :=
| ElNode (id : Z) (lat lon : Q)
| ElWay (id : Z) (nodes : list Z) (maxspeed oneway : option string)
| ElOther.

(** [x || d] on an optional string: the empty string is falsy. *)
Definition orElse (x : option string) (d : option string) : option string :=
  match x with
  | Some s => if String.eqb s EmptyString then d else Some s
  | None => d
  end.

(** The loop over [data.elements] that fills [nodes] and [ways]. *)
Definition addElement (acc : gmap Z (Q * Q) * JsObject.t OSMWay) (el : Element)
    : gmap Z (Q * Q) * JsObject.t OSMWay :=
  match el with
  | ElNode i la lo => (<[i := (la, lo)]> (fst acc), snd acc)
  | ElWay i ns ms ow =>
      (fst acc,
       JsObject.set i (mkWay i ns (orElse ms None) (default "no" (orElse ow (Some "no")))) (snd acc))
  | ElOther => acc
  end.

Definition collectElements (els : list Element) : gmap Z (Q * Q) * JsObject.t OSMWay :=
  foldl addElement (∅, JsObject.empty) els.

Definition firstNode (w : OSMWay) : option Z := head (way_nodes w).
Definition lastNode (w : OSMWay) : option Z := last (way_nodes w).

(** The two endpoint pushes of one way into [nodeToWayMap]. *)
Definition pushWay (wid : Z) (m : gmap Z (list Z)) (nodeId : Z) : gmap Z (list Z) :=
  <[nodeId := default [] (m !! nodeId) ++ [wid]]> m.

Definition endpoints (w : OSMWay) : list Z :=
  match firstNode w, lastNode w with
  | Some a, Some b => [a; b]
  | _, _ => []
  end.

Definition indexWay (ways : JsObject.t OSMWay) (m : gmap Z (list Z)) (k : Z)
    : gmap Z (list Z) :=
  match JsObject.get k ways with
  | Some way => foldl (pushWay (way_id way)) m (endpoints way)
  | None => m
  end.

Definition buildNodeToWayMap (ways : JsObject.t OSMWay) : gmap Z (list Z) :=
  foldl (indexWay ways) ∅ (JsObject.keys ways).

(** [nodeToWayMap.get(tip)?.filter(w => !usedWays.has(w))], with the empty
    list for [undefined]. *)
Definition connections (nodeToWayMap : gmap Z (list Z)) (usedWays : gset Z)
    (tip : option Z) : list Z :=
  match tip with
  | Some t =>
      match nodeToWayMap !! t with
      | Some ws => filter (fun w => w ∉ usedWays) ws
      | None => []
      end
  | None => []
  end.

Section Chains.
Variable ways : JsObject.t OSMWay.
Variable nodeToWayMap : gmap Z (list Z).

(** The loop "Extend forward". *)
Fixpoint extendForward (fuel : nat) (usedWays : gset Z) (currentChain : list Z)
    (tip : option Z) : Result (gset Z * list Z) :=
  match fuel with
  | O => OutOfFuel
  | S fuel' =>
      match connections nodeToWayMap usedWays tip with
      | [] => Ok (usedWays, currentChain)
      | nextWayId :: _ =>
          nextWay ← deref "nextWay" (JsObject.get nextWayId ways);
          let usedWays' := usedWays ∪ {[nextWayId]} in
          if decide (firstNode nextWay = tip)
          then extendForward fuel' usedWays' (currentChain ++ [nextWayId]) (lastNode nextWay)
          else extendForward fuel' usedWays' (currentChain ++ [nextWayId]) (firstNode nextWay)
      end
  end.

(** The loop "Extend backward". *)
Fixpoint extendBackward (fuel : nat) (usedWays : gset Z) (currentChain : list Z)
    (tip : option Z) : Result (gset Z * list Z) :=
  match fuel with
  | O => OutOfFuel
  | S fuel' =>
      match connections nodeToWayMap usedWays tip with
      | [] => Ok (usedWays, currentChain)
      | nextWayId :: _ =>
          nextWay ← deref "nextWay" (JsObject.get nextWayId ways);
          let usedWays' := usedWays ∪ {[nextWayId]} in
          if decide (lastNode nextWay = tip)
          then extendBackward fuel' usedWays' (nextWayId :: currentChain) (firstNode nextWay)
          else extendBackward fuel' usedWays' (nextWayId :: currentChain) (lastNode nextWay)
      end
  end.

(** The loop over the ways that starts one chain per unused way. *)
Fixpoint growChains (fuel : nat) (keys : list Z) (usedWays : gset Z)
    (chains : list (list Z)) : Result (list (list Z)) :=
  match keys with
  | [] => Ok chains
  | wayId :: rest =>
      if decide (wayId ∈ usedWays) then growChains fuel rest usedWays chains
      else
        way ← deref "ways[wayId]" (JsObject.get wayId ways);
        '(used1, chain1) ←
           extendForward fuel (usedWays ∪ {[wayId]}) [wayId] (lastNode way);
        '(used2, chain2) ← extendBackward fuel used1 chain1 (firstNode way);
        growChains fuel rest used2 (chains ++ [chain2])
  end.
End Chains.

Definition buildChains (ways : JsObject.t OSMWay) : Result (list (list Z)) :=
  let keys := JsObject.keys ways in
  growChains ways (buildNodeToWayMap ways) (S (length keys)) keys ∅ [].

(** [chains.sort((a, b) => b.length - a.length)]: the sort of an array is
    stable, so chains of equal length keep their order. *)
Fixpoint insertChain (c : list Z) (sorted : list (list Z)) : list (list Z) :=
  match sorted with
  | [] => [c]
  | x :: rest =>
      if (length x <=? length c)%nat then c :: sorted else x :: insertChain c rest
  end.

Definition sortChains (chains : list (list Z)) : list (list Z) :=
  foldr insertChain [] chains.

Section Flatten.
Variable nodes : gmap Z (Q * Q).
Variable ways : JsObject.t OSMWay.

(** [buildPointsForWay], given the way already looked up: the nodes that
    are not in [nodes] are dropped. *)
Definition buildPointsForWay (way : OSMWay) (nodeIds : list Z) : list OSMPoint :=
  omap (fun nodeId =>
          match nodes !! nodeId with
          | Some c => Some (mkPoint (fst c) (snd c) (way_speed way) (Some (way_id way)))
          | None => None
          end) nodeIds.

Definition sameCoords (p : OSMPoint) (c : Q * Q) : bool :=
  Qeq_bool (lat p) (fst c) && Qeq_bool (lon p) (snd c).

(** One iteration of the loop over [longestChain[1..]]; [None] is the
    [break] taken when the path built so far is empty. *)
Definition appendWay (finalPath : list OSMPoint) (wid : Z)
    : Result (option (list OSMPoint)) :=
  match last finalPath with
  | None => Ok None
  | Some lastPointOfPath =>
      currentWay ← deref "currentWay" (JsObject.get wid ways);
      startNodeOfCurrent ←
        deref "startNodeOfCurrent" (firstNode currentWay ≫= fun n => nodes !! n);
      if sameCoords lastPointOfPath startNodeOfCurrent
      then Ok (Some (finalPath ++ buildPointsForWay currentWay (drop 1 (way_nodes currentWay))))
      else
        endNodeOfCurrent ←
          deref "endNodeOfCurrent" (lastNode currentWay ≫= fun n => nodes !! n);
        if sameCoords lastPointOfPath endNodeOfCurrent
        then Ok (Some (finalPath
                         ++ buildPointsForWay currentWay (drop 1 (reverse (way_nodes currentWay)))))
        else Ok (Some (finalPath ++ buildPointsForWay currentWay (way_nodes currentWay)))
  end.

Fixpoint appendWays (finalPath : list OSMPoint) (rest : list Z)
    : Result (list OSMPoint) :=
  match rest with
  | [] => Ok finalPath
  | wid :: rest' =>
      r ← appendWay finalPath wid;
      match r with
      | Some finalPath' => appendWays finalPath' rest'
      | None => Ok finalPath
      end
  end.

(** The flattening of the canonical chain into [finalPath]. *)
Definition flattenChain (longestChain : list Z) : Result (list OSMPoint) :=
  match longestChain with
  | [] => Ok []
  | firstWayId :: rest =>
      firstWay ← deref "ways[firstWayId]" (JsObject.get firstWayId ways);
      appendWays (buildPointsForWay firstWay (way_nodes firstWay)) rest
  end.

Definition isOneway (w : OSMWay) : bool :=
  String.eqb (oneway w) "yes" || String.eqb (oneway w) "true" || String.eqb (oneway w) "1".

(** The predicate of the filter: [way && (way.oneway === ...)]. *)
Definition countsAsOneway (wid : Z) : bool :=
  match JsObject.get wid ways with
  | Some way => isOneway way
  | None => false
  end.

Definition onewayWaysCount (longestChain : list Z) : nat :=
  length (filter (fun wid => countsAsOneway wid = true) longestChain).

(** [longestChain.length > 0 && onewayWaysCount / longestChain.length > 0.5]. *)
Definition followsOneway (longestChain : list Z) : bool :=
  (0 <? length longestChain)%nat &&
  Qltb (1 # 2)
       (inject_Z (Z.of_nat (onewayWaysCount longestChain))
        / inject_Z (Z.of_nat (length longestChain))).

Definition isNorthSouthDominant (firstPoint lastPoint : OSMPoint) : bool :=
  Qltb (Qabs (lon lastPoint - lon firstPoint)) (Qabs (lat lastPoint - lat firstPoint)).

Definition needsReversing (firstPoint lastPoint : OSMPoint) : bool :=
  if isNorthSouthDominant firstPoint lastPoint
  then Qltb (lat firstPoint) (lat lastPoint)
  else Qltb (lon lastPoint) (lon firstPoint).

(** The block guarded by [finalPath.length > 0]. *)
Definition normalizeDirection (longestChain : list Z) (finalPath : list OSMPoint)
    : list OSMPoint :=
  match head finalPath, last finalPath with
  | Some firstPoint, Some lastPoint =>
      if followsOneway longestChain then finalPath
      else if needsReversing firstPoint lastPoint then reverse finalPath
      else finalPath
  | _, _ => finalPath
  end.
End Flatten.

(** One iteration of the carry-forward loop, an update in place of
    [sortedPath[i]] from [sortedPath[i-1]]. *)
Definition carryStep (sortedPath : list OSMPoint) (i : nat) : list OSMPoint :=
  match sortedPath !! i with
  | Some p =>
      if bool_decide (speed p = None) && (0 <? i)%nat
      then match sortedPath !! (i - 1)%nat with
           | Some prev => <[i := mkPoint (lat p) (lon p) (speed prev) (wayId prev)]> sortedPath
           | None => sortedPath
           end
      else sortedPath
  | None => sortedPath
  end.

Definition carryForward (sortedPath : list OSMPoint) : list OSMPoint :=
  foldl carryStep sortedPath (seq 0 (length sortedPath)).

(** The canonical chain: [chains[0]] after the sort. *)
Definition longestChainOf (chains : list (list Z)) : option (list Z) :=
  head (sortChains chains).

(** The chain that is flattened, [None] when [chains] is empty. *)
Definition canonicalChain (ways : JsObject.t OSMWay) : Result (option (list Z)) :=
  chains ← buildChains ways;
  Ok (longestChainOf chains).

(** [fetchStreetData], from the parsed response ([data.elements], [None]
    when the field is missing) to the returned [data]. *)
Definition fetchStreetData (elements : option (list Element)) : Result (list OSMPoint) :=
  match elements with
  | None | Some [] => Ok []
  | Some els =>
      let '(nodes, ways) := collectElements els in
      if bool_decide (nodes = ∅) || bool_decide (JsObject.keys ways = [])
      then Ok []
      else
        chain ← canonicalChain ways;
        match chain with
        | None => Ok []
        | Some longestChain =>
            finalPath ← flattenChain nodes ways longestChain;
            Ok (carryForward (normalizeDirection ways longestChain finalPath))
        end
  end.

(** ** Path sampling (getSamplePoints) *)

(** [interpolate]. *)
Definition interpolate (p1 p2 : OSMPoint) (fraction : Q) : Q * Q :=
  ((lat p1 + (lat p2 - lat p1) * fraction)%Q,
   (lon p1 + (lon p2 - lon p1) * fraction)%Q).

Section Sampler.
Context `{FloatOps}.

(** The entries pushed after the initial [0]: [prev] is [path[i-1]] and
    [acc] is [cumulativeDistances[i-1]]. *)
Fixpoint cumulativeFrom (prev : OSMPoint) (acc : Q) (rest : list OSMPoint) : list Q :=
  match rest with
  | [] => []
  | p :: rest' =>
      let d := (acc + haversineDistance (lat prev) (lon prev) (lat p) (lon p))%Q in
      d :: cumulativeFrom p d rest'
  end.

Definition cumulativeDistances (path : list OSMPoint) : list Q :=
  match path with
  | [] => [0%Q]
  | p :: rest => 0%Q :: cumulativeFrom p 0%Q rest
  end.

Definition totalPathDistance (path : list OSMPoint) : Q :=
  default 0%Q (last (cumulativeDistances path)).

(** The inner [while]: [rest] is [cumulativeDistances] from
    [currentPathIndex] on. *)
Fixpoint advanceOver (rest : list Q) (currentPathIndex : nat) (targetDist : Q) : nat :=
  match rest with
  | [] => currentPathIndex
  | c :: rest' =>
      if Qltb c targetDist then advanceOver rest' (S currentPathIndex) targetDist
      else currentPathIndex
  end.

Definition advance (cumulative : list Q) (currentPathIndex : nat) (targetDist : Q) : nat :=
  advanceOver (drop currentPathIndex cumulative) currentPathIndex targetDist.

(** The push guarded by the test on the last sample, for a segment of
    length zero. *)
Definition pushUnlessRepeated (samplePoints : list OSMPoint) (p1 : OSMPoint)
    : list OSMPoint :=
  match last samplePoints with
  | None => samplePoints ++ [p1]
  | Some l =>
      if negb (Qeq_bool (lat l) (lat p1)) && negb (Qeq_bool (lon l) (lon p1))
      then samplePoints ++ [p1] else samplePoints
  end.

Section Loop.
Variable path : list OSMPoint.
Variable cumulative : list Q.
Variable total distanceKm : Q.

(** The [for] loop over the target distances. *)
Fixpoint sampleLoop (fuel : nat) (targetDist : Q) (currentPathIndex : nat)
    (samplePoints : list OSMPoint) : Result (list OSMPoint) :=
  if negb (Qltb targetDist total) then Ok samplePoints
  else
    match fuel with
    | O => OutOfFuel
    | S fuel' =>
        let next := (targetDist + distanceKm)%Q in
        if Qltb targetDist 0 then sampleLoop fuel' next currentPathIndex samplePoints
        else
          let idx := advance cumulative currentPathIndex targetDist in
          if (length path <=? idx)%nat then Ok samplePoints
          else
            p1 ← deref "p1" (path !! (idx - 1)%nat);
            p2 ← deref "p2" (path !! idx);
            let segmentStartDist := default 0%Q (cumulative !! (idx - 1)%nat) in
            let segmentLength := (default 0%Q (cumulative !! idx) - segmentStartDist)%Q in
            if Qeq_bool segmentLength 0
            then sampleLoop fuel' next idx (pushUnlessRepeated samplePoints p1)
            else
              let fraction := ((targetDist - segmentStartDist) / segmentLength)%Q in
              let c := interpolate p1 p2 fraction in
              sampleLoop fuel' next idx
                (samplePoints ++ [mkPoint (fst c) (snd c) (speed p1) (wayId p1)])
    end.
End Loop.

(** A bound on the number of target distances below [total]. *)
Definition sampleFuel (total distanceKm startOffsetKm : Q) : nat :=
  Z.to_nat (Qceiling ((total - startOffsetKm) / distanceKm)).

Definition getSamplePoints (path : list OSMPoint) (distanceKm startOffsetKm : Q)
    : Result (list OSMPoint) :=
  if (length path <? 2)%nat || Qle_bool distanceKm 0 then Ok []
  else
    let cumulative := cumulativeDistances path in
    let total := totalPathDistance path in
    if Qle_bool total startOffsetKm && Qltb 0 total then Ok []
    else sampleLoop path cumulative total distanceKm
           (sampleFuel total distanceKm startOffsetKm) startOffsetKm 1 [].
End Sampler.

(** ** The analysis pipeline (handleAnalyzeClick)

    The workers are [async] functions of one thread: the code of a worker
    between two [await]s runs without interruption.  A worker is therefore
    modelled by the state in which it is suspended, and a run by the order
    in which the suspended workers are resumed ([Event]); between two
    resumptions the user may click Stop.  What the imagery, metadata and
    vision services answer for a sample is given by [Responses]. *)

(** The lines written by [addLog], by the template that produces them. *)
Inductive LogEntry :=
| LogHaltedNoKey
| LogHaltedNoLocation
| LogStarted
| LogChecking
| LogFromCache
| LogFetchedFresh
| LogReversedByUser
| LogPathLoaded (points : nat)
| LogSkipped
| LogCapping (maxPoints : Z) (potential : nat)
| LogNoSamplePoints
| LogGenerated (points : nat)
| LogRequesting (index : nat)
| LogNoImageDate (index : nat) (error : string)
| LogAnalyzing (index : nat)
| LogBelowThreshold (index : nat)
| LogDiscrepancy (index : nat)
| LogFinished (index : nat)
| LogFailed (index : nat) (message : string)
| LogFatal (index : nat)
| LogQuota (index : nat)
| LogCancellationRequested
| LogStopped
| LogComplete
| LogFound (discrepancies : nat)
| LogNoDiscrepancies
| LogFatalError (message : string).

(** What the collaborators answer for one sample. *)
Inductive ImageResult := ImageOk (base64 : string) | ImageFail (error : string).
Inductive MetadataResult := MetadataOk (date : string) | MetadataFail (error : string).
Inductive AnalysisCall :=
| AnalysisReturns (r : option GeminiAnalysisResult)
| AnalysisThrows (message : string).

Record Responses := mkResponses {
  imageResult : ImageResult;
  metadataResult : MetadataResult;
  analysisCall : AnalysisCall
}.

(** The form values read by the handler. *)
Record Settings := mkSettings {
  apiKey : string;
  streetName : string;
  cityName : string;
  provinceState : string;
  country : string;
  reverseDirection : bool;
  startOffset : Q;
  samplingDistance : Q;
  maxPoints : Z;
  concurrency : Z;
  confidenceThreshold : Q
}.

(** The [onBlur] handlers of the two counters of the form: [parsed] is
    [parseInt(input, 10)], [None] for [NaN]; [parsed || 1] replaces [NaN]
    and 0 by 1. *)
Definition orOne (parsed : option Z) : Z :=
  match parsed with
  | Some v => if v =? 0 then 1 else v
  | None => 1
  end.

Definition maxPointsFromInput (parsed : option Z) : Z := Z.max 1 (Z.min 1000 (orOne parsed)).
Definition concurrencyFromInput (parsed : option Z) : Z := Z.max 1 (Z.min 20 (orOne parsed)).

(** A worker is suspended at one of its two [await]s, or its promise has
    settled. *)
Inductive WorkerState :=
| Fetching (index : nat) (point : OSMPoint)
| Detecting (index : nat) (point : OSMPoint) (imageUrl : string) (imageDate : option string)
| Fulfilled
| Rejected (message : string).

(** The state shared by the workers of one run. *)
Record Pool := mkPool {
  queue : list (nat * OSMPoint);
  results : list (option AnalyzedPoint);
  workers : list WorkerState;
  isCancelled : bool;
  progress : nat;
  logs : list LogEntry
}.

Definition addLog (e : LogEntry) (s : Pool) : Pool :=
  mkPool (queue s) (results s) (workers s) (isCancelled s) (progress s) (logs s ++ [e]).

Definition setWorker (w : nat) (ws : WorkerState) (s : Pool) : Pool :=
  mkPool (queue s) (results s) (<[w := ws]> (workers s)) (isCancelled s) (progress s) (logs s).

Definition cancel (s : Pool) : Pool :=
  mkPool (queue s) (results s) (workers s) true (progress s) (logs s).

(** [a[i] = v] on an array: a write past the end extends it. *)
Definition arraySet {A} (a : list (option A)) (i : nat) (v : A) : list (option A) :=
  if (i <? length a)%nat then <[i := Some v]> a
  else a ++ replicate (i - length a) None ++ [Some v].

(** [handleStopClick]. *)
Definition handleStopClick (s : Pool) : Pool := cancel (addLog LogCancellationRequested s).

(** The [finally] block: [results[index] = newPoint; setProgress(p => p + 1)]. *)
Definition storeResult (index : nat) (newPoint : AnalyzedPoint) (s : Pool) : Pool :=
  mkPool (queue s) (arraySet (results s) index newPoint) (workers s) (isCancelled s)
         (S (progress s)) (logs s).

Definition placeholderImage : string :=
  "data:image/gif;base64,R0lGODlhAQABAAD/ACwAAAAAAQABAAACADs=".

Definition isFatalMessage (errorMessage : string) : bool :=
  let lowerCaseError := Js.toLowerCase errorMessage in
  Js.includes lowerCaseError "api key" || Js.includes lowerCaseError "permission"
  || Js.includes lowerCaseError "403 forbidden".

(** [s.substring(0, 150)]. *)
Definition truncated (s : string) : string := String.substring 0 150 s.

Section Pipeline.
Context `{FloatOps}.
Variable settings : Settings.
Variable pointsToAnalyze : list OSMPoint.
(** The answers of the imagery and vision services for each sample index. *)
Variable env : nat -> Responses.

Definition forwardHeading (index : nat) (point : OSMPoint) : Q :=
  if (index <? length pointsToAnalyze - 1)%nat
  then match pointsToAnalyze !! (index + 1)%nat with
       | Some next => calculateBearing point next
       | None => 0%Q
       end
  else if (0 <? index)%nat
  then match pointsToAnalyze !! (index - 1)%nat with
       | Some prev => calculateBearing prev point
       | None => 0%Q
       end
  else 0%Q.

Definition pointId (point : OSMPoint) : string :=
  numberToString (lat point) +:+ "-" +:+ numberToString (lon point).

(** The head of the [while] loop up to the first [await]: leave when the
    run is cancelled or the queue is empty, else take the next entry. *)
Definition claimNext (w : nat) (s : Pool) : Pool :=
  if isCancelled s then setWorker w Fulfilled s
  else
    match queue s with
    | [] => setWorker w Fulfilled s
    | (index, point) :: rest =>
        let s' := mkPool rest (results s) (workers s) (isCancelled s) (progress s) (logs s) in
        setWorker w (Fetching index point) (addLog (LogRequesting index) s')
    end.

(** The [catch] block followed by [finally]. *)
Definition failTask (w index : nat) (point : OSMPoint) (imageUrl : string)
    (imageDate : option string) (errorMessage : string) (s : Pool) : Pool :=
  let s1 := addLog (LogFailed index (truncated errorMessage)) s in
  let newPoint :=
    mkAnalyzed (pointId point) point (speed point) None None false imageUrl
               (forwardHeading index point) (wayId point) imageDate in
  if isFatalMessage errorMessage
  then
    let s2 := cancel (addLog (LogFatal index) s1) in
    setWorker w (Rejected errorMessage) (storeResult index newPoint s2)
  else
    let s2 := if Js.includes (Js.toLowerCase errorMessage) "quota"
              then addLog (LogQuota index) s1 else s1 in
    claimNext w (storeResult index newPoint s2).

(** The worker resumes after [Promise.all] of the image and metadata. *)
Definition afterFetch (w index : nat) (point : OSMPoint) (s : Pool) : Pool :=
  match imageResult (env index) with
  | ImageFail error => failTask w index point placeholderImage None error s
  | ImageOk base64 =>
      let '(s1, imageDate) :=
        match metadataResult (env index) with
        | MetadataFail error => (addLog (LogNoImageDate index error) s, None)
        | MetadataOk date => (s, Some date)
        end in
      let imageUrl := "data:image/jpeg;base64," +:+ base64 in
      setWorker w (Detecting index point imageUrl imageDate) (addLog (LogAnalyzing index) s1)
  end.

Definition belowThreshold (r : option GeminiAnalysisResult) : bool :=
  match r with
  | Some a => isNotNull (optSpeedLimit r) && Qltb (confidence a) (confidenceThreshold settings)
  | None => false
  end.

(** The worker resumes after [analyzeSpeedSign]. *)
Definition afterAnalysis (w index : nat) (point : OSMPoint) (imageUrl : string)
    (imageDate : option string) (s : Pool) : Pool :=
  match analysisCall (env index) with
  | AnalysisThrows message => failTask w index point imageUrl imageDate message s
  | AnalysisReturns r =>
      let s1 := if belowThreshold r then addLog (LogBelowThreshold index) s else s in
      let final := finalDetectedSpeed (country settings) (confidenceThreshold settings) r in
      let discrepancy := classify (country settings) (speed point) final in
      let s2 := addLog (if discrepancy then LogDiscrepancy index else LogFinished index) s1 in
      let newPoint :=
        mkAnalyzed (pointId point) point (speed point) final (option_map confidence r)
                   discrepancy imageUrl (forwardHeading index point) (wayId point) imageDate in
      claimNext w (storeResult index newPoint s2)
  end.

(** What can happen while the handler waits for the workers: the pending
    [await] of worker [w] resolves, or the user clicks Stop. *)
Inductive Event := Resume (w : nat) | StopClick.

Definition step (s : Pool) (e : Event) : Pool :=
  match e with
  | StopClick => handleStopClick s
  | Resume w =>
      match workers s !! w with
      | Some (Fetching index point) => afterFetch w index point s
      | Some (Detecting index point imageUrl imageDate) =>
          afterAnalysis w index point imageUrl imageDate s
      | _ => s
      end
  end.

Definition settled (ws : WorkerState) : bool :=
  match ws with
  | Fulfilled | Rejected _ => true
  | _ => false
  end.

Definition allSettled (s : Pool) : bool := forallb settled (workers s).

(** [await Promise.allSettled(workers)]: events are served until every
    worker has settled; the list of events is the counter of this loop. *)
Fixpoint awaitAll (schedule : list Event) (s : Pool) : Result Pool :=
  if allSettled s then Ok s
  else
    match schedule with
    | [] => OutOfFuel
    | e :: rest => awaitAll rest (step s e)
    end.

(** [[...pointsToAnalyze.entries()]]. *)
Definition entries : list (nat * OSMPoint) := imap (fun i p => (i, p)) pointsToAnalyze.

(** [Array.from({ length: concurrency }, () => worker())]: each call runs
    its worker up to the first [await].  The slot of a worker that has not
    been started yet holds [Fulfilled].  [stopped] is the value of
    [isCancelledRef.current] at that point: true when the user has clicked
    Stop since the handler started. *)
Definition startWorkers (stopped : bool) (logs0 : list LogEntry) : Pool :=
  let n := Z.to_nat (concurrency settings) in
  foldl (fun s w => claimNext w s)
        (mkPool entries (replicate (length pointsToAnalyze) None)
                (replicate n Fulfilled) stopped 0 logs0)
        (seq 0 n).

(** [results.filter(p => p !== null)]. *)
Definition finalPoints (s : Pool) : list AnalyzedPoint := omap (fun p => p) (results s).

(** The states the pool goes through while the handler waits. *)
Definition poolAfter (stopped : bool) (logs0 : list LogEntry) (schedule : list Event)
    : Pool :=
  foldl step (startWorkers stopped logs0) schedule.
End Pipeline.

(** The React state written by the handler. *)
Record AppState := mkApp {
  isLoading : bool;
  analyzedPoints : list AnalyzedPoint;
  error : option string;
  isKeyInvalid : bool;
  app_progress : nat;
  totalPointsToAnalyze : nat;
  app_isCancelled : bool;
  app_logs : list LogEntry
}.

(** The double quote, for the messages that contain one. *)
Definition dq : string := String (ascii_of_nat 34) EmptyString.

Definition keyErrorText : string :=
  "The analysis was stopped because of an API key error. Please verify your key and ensure these APIs are enabled in your Google Cloud project: "
  +:+ dq +:+ "Street View Static API" +:+ dq +:+ ", " +:+ dq +:+ "Maps Static API" +:+ dq
  +:+ ", and " +:+ dq +:+ "Vertex AI API" +:+ dq +:+ ".".

Definition noSegmentsText (settings : Settings) : string :=
  "No valid street segments found for " +:+ dq +:+ streetName settings +:+ dq +:+ " in "
  +:+ dq +:+ cityName settings +:+ ", " +:+ provinceState settings +:+ dq
  +:+ " on OpenStreetMap. Please check spelling and try again.".

Definition missingKeyText : string :=
  "A Google API Key is required to perform the analysis. Please provide one in the settings.".

Definition missingLocationText : string :=
  "Please select a country, province/state, and enter a city and street name.".

(** An early [return] of the handler: only the error and one log line. *)
Definition halted (prev : AppState) (message : string) (e : LogEntry) : AppState :=
  mkApp (isLoading prev) (analyzedPoints prev) (Some message) (isKeyInvalid prev)
        (app_progress prev) (totalPointsToAnalyze prev) (app_isCancelled prev)
        (app_logs prev ++ [e]).

(** The outer [catch] and [finally] of the handler, reached before any
    worker has started. *)
Definition handlerCatch (errorMessage : string) (stopped : bool) (logs0 : list LogEntry)
    : AppState :=
  if isFatalMessage errorMessage
  then mkApp false [] (Some keyErrorText) true 0 0 stopped
             (logs0 ++ [LogFatalError keyErrorText])
  else mkApp false [] (Some errorMessage) false 0 0 stopped
             (logs0 ++ [LogFatalError errorMessage]).

Section Handler.
Context `{FloatOps}.
Variable settings : Settings.

(** The samples handed to the workers: [getSamplePoints] capped by
    [maxPoints]. *)
Definition capSamples (samples : list OSMPoint) : list OSMPoint :=
  if (maxPoints settings <? Z.of_nat (length samples))
  then Js.slice0 samples (maxPoints settings) else samples.

(** The lines logged once the workers have settled. *)
Definition closingLogs (s : Pool) : list LogEntry :=
  if isCancelled s then [LogStopped]
  else
    let final := finalPoints s in
    let discrepancyCount := length (filter (fun p => isDiscrepancy p = true) final) in
    LogComplete ::
      (if (0 <? discrepancyCount)%nat then [LogFound discrepancyCount]
       else if existsb (fun p => bool_decide (detectedSpeed p <> None)) final
            then [LogNoDiscrepancies] else []).

(** The part of the handler that follows [getSamplePoints]. *)
Definition analyzeSamples (samples : list OSMPoint) (stopped : bool)
    (logs3 : list LogEntry) (env : nat -> Responses) (schedule : list Event)
    : Result AppState :=
  let logs4 :=
    if Qltb 0 (startOffset settings) && (0 <? length samples)%nat
    then logs3 ++ [LogSkipped] else logs3 in
  let logs5 :=
    if (maxPoints settings <? Z.of_nat (length samples))
    then logs4 ++ [LogCapping (maxPoints settings) (length samples)] else logs4 in
  let pointsToAnalyze := capSamples samples in
  if (length pointsToAnalyze =? 0)%nat
  then Ok (mkApp false [] None false 0 0 stopped (logs5 ++ [LogNoSamplePoints]))
  else
    let total := length pointsToAnalyze in
    let logs6 := logs5 ++ [LogGenerated total] in
    s ← awaitAll settings pointsToAnalyze env schedule
          (startWorkers settings pointsToAnalyze stopped logs6);
    Ok (mkApp false (finalPoints s) None false (progress s) total
              (isCancelled s) (logs s ++ closingLogs s)).

(** [handleAnalyzeClick].  [prev] is the state before the click;
    [fetched] is the outcome of [fetchStreetData] (the path and
    [fromCache], or the error it throws); [stopped] tells whether the user
    clicked Stop while the street data was being fetched; [env] and
    [schedule] are what the services answer and the order in which the
    suspended workers resume. *)
Definition handleAnalyzeClick (prev : AppState) (fetched : Result (list OSMPoint * bool))
    (stopped : bool) (env : nat -> Responses) (schedule : list Event) : Result AppState :=
  if String.eqb (apiKey settings) EmptyString
  then Ok (halted prev missingKeyText LogHaltedNoKey)
  else if String.eqb (streetName settings) EmptyString
          || String.eqb (cityName settings) EmptyString
          || String.eqb (provinceState settings) EmptyString
  then Ok (halted prev missingLocationText LogHaltedNoLocation)
  else
    let logs0 :=
      [LogStarted; LogChecking] ++ (if stopped then [LogCancellationRequested] else []) in
    match fetched with
    | OutOfFuel => OutOfFuel
    | Throw message => Ok (handlerCatch message stopped logs0)
    | Ok (data, fromCache) =>
        let logs1 := logs0 ++ [if fromCache then LogFromCache else LogFetchedFresh] in
        let '(highwayPath, logs2) :=
          if reverseDirection settings
          then (reverse data, logs1 ++ [LogReversedByUser]) else (data, logs1) in
        if (length highwayPath =? 0)%nat
        then Ok (handlerCatch (noSegmentsText settings) stopped logs2)
        else
          let logs3 := logs2 ++ [LogPathLoaded (length highwayPath)] in
          let samplingDistanceKm := (samplingDistance settings / 1000)%Q in
          match getSamplePoints highwayPath samplingDistanceKm (startOffset settings) with
          | OutOfFuel => OutOfFuel
          | Throw message => Ok (handlerCatch message stopped logs3)
          | Ok samples => analyzeSamples samples stopped logs3 env schedule
          end
    end.
End Handler.

(** ** Predicates used in the statements *)

(** What the carry-forward pass leaves at index [i], given the input point
    [p] and the output [out]. *)
Definition carried (out : list OSMPoint) (i : nat) (p : OSMPoint) : Prop :=
  match speed p, i with
  | None, S j =>
      exists q, out !! j = Some q
                /\ out !! i = Some (mkPoint (lat p) (lon p) (speed q) (wayId q))
  | _, _ => out !! i = Some p
  end.

(** The objects built by assignments [o[k] = v] from the empty object whose
    values record their own key, as [ways] does. *)
Definition WaysWf (ways : JsObject.t OSMWay) : Prop :=
  NoDup (JsObject.order ways)
  /\ (forall k, k ∈ JsObject.order ways <-> is_Some (JsObject.get k ways))
  /\ (forall k way, JsObject.get k ways = Some way -> way_id way = k).

(** Every way id filed under a node is a key of [ways]. *)
Definition IndexSound (ways : JsObject.t OSMWay) (m : gmap Z (list Z)) : Prop :=
  forall t ws w, m !! t = Some ws -> w ∈ ws -> is_Some (JsObject.get w ways).

(** The keys of [ways], as a set. *)
Definition waySet (ways : JsObject.t OSMWay) : gset Z := list_to_set (JsObject.order ways).

(** Every node of the way has coordinates. *)
Definition Resolved (nodes : gmap Z (Q * Q)) (w : OSMWay) : Prop :=
  Forall (fun n => is_Some (nodes !! n)) (way_nodes w).

(** The ways of [rest] follow one another head to tail from node [tip]:
    each starts at the node where the one before it ends. *)
Fixpoint AlignedFrom (nodes : gmap Z (Q * Q)) (ways : JsObject.t OSMWay) (tip : Z)
    (rest : list Z) : Prop :=
  match rest with
  | [] => True
  | wid :: rest' =>
      exists w tip',
        JsObject.get wid ways = Some w /\ firstNode w = Some tip
        /\ lastNode w = Some tip' /\ Resolved nodes w
        /\ AlignedFrom nodes ways tip' rest'
  end.

(** The number of nodes of a way of the chain. *)
Definition nodeCount (ways : JsObject.t OSMWay) (wid : Z) : nat :=
  match JsObject.get wid ways with
  | Some w => length (way_nodes w)
  | None => 0
  end.

Fixpoint totalNodes (ways : JsObject.t OSMWay) (chain : list Z) : nat :=
  match chain with
  | [] => 0
  | wid :: rest => nodeCount ways wid + totalNodes ways rest
  end.

(** [c] is the first chain of greatest length in [chains]. *)
Definition FirstLongest (chains : list (list Z)) (c : list Z) : Prop :=
  exists i, chains !! i = Some c
    /\ (forall j c', chains !! j = Some c' -> (length c' <= length c)%nat)
    /\ (forall j c', (j < i)%nat -> chains !! j = Some c' -> (length c' < length c)%nat).

(** The task a worker holds while it is suspended. *)
Definition inFlight (ws : WorkerState) : option (nat * OSMPoint) :=
  match ws with
  | Fetching i p | Detecting i p _ _ => Some (i, p)
  | Fulfilled | Rejected _ => None
  end.

(** The state of the pool once the first [k] entries have been taken from
    the queue: the tasks in flight and the written slots are among these
    [k], every slot holds the result of its own sample, and a slot is empty
    exactly while its task is in flight. *)
Record PoolInv (pts : list OSMPoint) (s : Pool) (k : nat) : Prop := mkInv {
  inv_queue : queue s = drop k (entries pts);
  inv_k : (k <= length pts)%nat;
  inv_len : length (results s) = length pts;
  inv_flight : forall w ws i p,
    workers s !! w = Some ws -> inFlight ws = Some (i, p) ->
    (i < k)%nat /\ pts !! i = Some p /\ results s !! i = Some None;
  inv_distinct : forall w1 w2 ws1 ws2 i p1 p2,
    workers s !! w1 = Some ws1 -> workers s !! w2 = Some ws2 ->
    inFlight ws1 = Some (i, p1) -> inFlight ws2 = Some (i, p2) -> w1 = w2;
  inv_filled : forall i a,
    results s !! i = Some (Some a) -> (i < k)%nat /\ pts !! i = Some (location a);
  inv_pending : forall i,
    (i < k)%nat -> results s !! i = Some None ->
    exists w ws p, workers s !! w = Some ws /\ inFlight ws = Some (i, p);
  inv_progress : progress s = length (finalPoints s)
}.

(** The workers selected by [P] that have left the loop did so because
    the run was cancelled or the queue was empty. *)
Definition QuiescentOn (P : nat -> Prop) (s : Pool) : Prop :=
  forall w ws, P w -> workers s !! w = Some ws -> inFlight ws = None ->
               isCancelled s = true \/ queue s = [].

Definition Quiescent (s : Pool) : Prop := QuiescentOn (fun _ => True) s.

(** Every stored result satisfies [P]. *)
Definition Stored (P : AnalyzedPoint -> Prop) (s : Pool) : Prop :=
  forall i a, results s !! i = Some (Some a) -> P a.

(** What a stored result records about its sample: the tag, the way id and
    the flag computed from the two speeds. *)
Definition Classified (settings : Settings) (a : AnalyzedPoint) : Prop :=
  osmSpeed a = speed (location a)
  /\ ap_wayId a = wayId (location a)
  /\ isDiscrepancy a = classify (country settings) (osmSpeed a) (detectedSpeed a).

(** The work left: three resumptions at most for a queued entry, two for a
    worker that awaits the image, one for a worker that awaits the
    detection. *)
Definition weight (ws : WorkerState) : nat :=
  match ws with
  | Fetching _ _ => 2
  | Detecting _ _ _ _ => 1
  | Fulfilled | Rejected _ => 0
  end.

Fixpoint totalWeight (l : list WorkerState) : nat :=
  match l with
  | [] => 0
  | ws :: l' => weight ws + totalWeight l'
  end.

Definition workLeft (s : Pool) : nat :=
  (3 * length (queue s) + totalWeight (workers s))%nat.

(** ** Stand-ins used to run the model on examples *)

(** A planar distance, a constant bearing and a constant rendering of
    numbers; the results below hold for every [FloatOps]. *)
Definition planarOps : FloatOps :=
  {| haversineDistance := fun la1 lo1 la2 lo2 => (Qabs (la2 - la1) + Qabs (lo2 - lo1))%Q;
     calculateBearing := fun _ _ => 0%Q;
     numberToString := fun _ => "n" |}.

Module Demo.

(** Two ways that share node 2 and form the chain 1 - 2 - 3; the way
    with the lower id is drawn from node 2 to node 1. *)
Definition reversedFirstWay : list Element :=
  [ElNode 1 0 0; ElNode 2 0 (1 # 1000); ElNode 3 0 (2 # 1000);
   ElWay 10 [2; 1] None None; ElWay 20 [2; 3] (Some "50") None].

(** The same street with the first way drawn from node 1 to node 2. *)
Definition alignedWays : list Element :=
  [ElNode 1 0 0; ElNode 2 0 (1 # 1000); ElNode 3 0 (2 # 1000);
   ElWay 10 [1; 2] None None; ElWay 20 [2; 3] (Some "50") None].

Definition oneWay : JsObject.t OSMWay :=
  JsObject.set 7 (mkWay 7 [1; 2] None "no") JsObject.empty.

Definition street : list OSMPoint :=
  [mkPoint 0 0 (Some "50") (Some 7); mkPoint 0 1 (Some "50") (Some 7)].

Definition fourSamples : list OSMPoint :=
  [mkPoint 0 0 (Some "50") (Some 7); mkPoint 0 (1 # 4) (Some "50") (Some 7);
   mkPoint 0 (1 # 2) (Some "50") (Some 7); mkPoint 0 (3 # 4) (Some "50") (Some 7)].

(** One worker, a sample every 500 m. *)
Definition oneWorker : Settings :=
  mkSettings "key" "Main St" "Springfield" "Ontario" "CAN" false 0 500 10 1 (3 # 10).

(** Two workers, at most three samples. *)
Definition twoWorkers : Settings :=
  mkSettings "key" "Main St" "Springfield" "Ontario" "CAN" false 0 250 3 2 (3 # 10).

(** The message thrown by [analyzeSpeedSign] for a rejected key. *)
Definition keyError : string :=
  "The provided Google API key appears to be invalid or lacks permissions for the Vertex AI API.".

Definition rejectedKey (i : nat) : Responses :=
  mkResponses (ImageOk "img") (MetadataOk "2021-06") (AnalysisThrows keyError).

Definition sign50 (i : nat) : Responses :=
  mkResponses (ImageOk "img") (MetadataOk "2021-06")
              (AnalysisReturns (Some (mkAnalysis (Some 50%Q) (9 # 10)))).

(** Worker 1 finishes two tasks before worker 0 finishes its first. *)
Definition outOfOrder : list Event :=
  [Resume 1%nat; Resume 1%nat; Resume 0%nat; Resume 1%nat; Resume 1%nat; Resume 0%nat].

Definition blank : AppState := mkApp false [] None false 0 0 false [].

End Demo.

(** * Further parts of the program *)

(** ** Text helpers, on ASCII text *)

Module Text.

(** The text is made of ASCII characters only. *)
Fixpoint isAscii (s : string) : bool :=
  match s with
  | EmptyString => true
  | String c r => (N_of_ascii c <? 128)%N && isAscii r
  end.

(** The ASCII characters matched by [\s]. *)
Definition isSpace (c : ascii) : bool :=
  let n := N_of_ascii c in ((9 <=? n)%N && (n <=? 13)%N) || (n =? 32)%N.

Fixpoint trimStart (s : string) : string :=
  match s with
  | String c r => if isSpace c then trimStart r else s
  | EmptyString => EmptyString
  end.

Fixpoint trimEnd (s : string) : string :=
  match s with
  | EmptyString => EmptyString
  | String c r =>
      match trimEnd r with
      | EmptyString => if isSpace c then EmptyString else String c EmptyString
      | String c' r' => String c (String c' r')
      end
  end.

(** [s.trim()]. *)
Definition trim (s : string) : string := trimEnd (trimStart s).

(** [s.replace(/\s/g, '-')]. *)
Fixpoint dashes (s : string) : string :=
  match s with
  | EmptyString => EmptyString
  | String c r => String (if isSpace c then "-"%char else c) (dashes r)
  end.

End Text.

(** ** The cache and the retries of [fetchStreetData] (services/osmService)

    The arrays of points are objects: the cache and the caller of
    [fetchStreetData] hold references to them.  [arrays] is the store of
    these arrays, a reference is an index in it.  [localStorage] holds
    JSON text, here the entry that the text encodes; it is [None] when the
    storage cannot be used, every access then throws and is caught.  The
    clock is a parameter of each call that reads it. *)

Module OsmService.

Definition CACHE_KEY_PREFIX : string := "osm_street_data_".
Definition CACHE_EXPIRY_HOURS : Z := 24.
Definition MAX_OSM_RETRIES : nat := 3.
Definition INITIAL_OSM_BACKOFF_MS : Z := 2000.

Definition expiryTime : Z := CACHE_EXPIRY_HOURS * 60 * 60 * 1000.

Record CacheEntry := mkEntry {
  data : nat;
  timestamp : Z
}.

Record Browser := mkBrowser {
  arrays : list (list OSMPoint);
  memoryCache : gmap string CacheEntry;
  localStorage : option (gmap string (list OSMPoint * Z))
}.

(** One component of the key: [x.trim().toLowerCase().replace(/\s/g, '-')]. *)
Definition keyPart (x : string) : string := Text.dashes (Js.toLowerCase (Text.trim x)).

Definition getCacheKey (street city provinceState : string) : string :=
  CACHE_KEY_PREFIX +:+ keyPart street +:+ "_" +:+ keyPart city +:+ "_"
  +:+ keyPart provinceState.

(** A new array object. *)
Definition allocate (points : list OSMPoint) (b : Browser) : nat * Browser :=
  (length (arrays b), mkBrowser (arrays b ++ [points]) (memoryCache b) (localStorage b)).

(** [getCachedData]: the reference to the cached array, if any. *)
Definition getCachedData (street city provinceState : string) (now : Z) (b : Browser)
    : option nat * Browser :=
  let cacheKey := getCacheKey street city provinceState in
  let fromMemory :=
    match memoryCache b !! cacheKey with
    | Some entry => if now - timestamp entry <? expiryTime then Some (data entry) else None
    | None => None
    end in
  match fromMemory with
  | Some r => (Some r, b)
  | None =>
      match localStorage b ≫= (fun items => items !! cacheKey) with
      | Some (points, stamp) =>
          if now - stamp <? expiryTime
          then
            let '(r, b') := allocate points b in
            (Some r,
             mkBrowser (arrays b') (<[cacheKey := mkEntry r stamp]> (memoryCache b'))
                       (localStorage b'))
          else (None, b)
      | None => (None, b)
      end
  end.

(** [setCachedData]: the entry holds the array itself; the storage gets
    the text of its present content. *)
Definition setCachedData (r : nat) (street city provinceState : string) (now : Z)
    (b : Browser) : Browser :=
  let cacheKey := getCacheKey street city provinceState in
  mkBrowser (arrays b) (<[cacheKey := mkEntry r now]> (memoryCache b))
            ((fun items => <[cacheKey := (default [] (arrays b !! r), now)]> items)
               <$> localStorage b).

Definition clearOSMCache (street city provinceState : string) (b : Browser) : Browser :=
  if String.eqb street EmptyString || String.eqb city EmptyString
     || String.eqb provinceState EmptyString
  then b
  else
    let cacheKey := getCacheKey street city provinceState in
    mkBrowser (arrays b) (delete cacheKey (memoryCache b))
              (delete cacheKey <$> localStorage b).

(** What one request to the Overpass API gives. *)
Inductive OverpassBody :=
| Unparsable (message : string)
| Parsed (remark : option string) (elements : option (list Element)).

Inductive OverpassReply :=
| FetchFails (message : string)
| Response (status : Z) (text : string) (body : OverpassBody).

(** Whether the assembly gets past its early returns of an empty path, to
    the call of [setCachedData]. *)
Definition reachesCache (elements : option (list Element)) : bool :=
  match elements with
  | None | Some [] => false
  | Some els =>
      let '(nodes, ways) := collectElements els in
      if bool_decide (nodes = ∅) || bool_decide (JsObject.keys ways = [])
      then false
      else match canonicalChain ways with
           | Ok (Some _) => true
           | _ => false
           end
  end.

(** The body of the [try] block: the path and whether it is to be cached. *)
Definition attempt (reply : OverpassReply) : Result (list OSMPoint * bool) :=
  match reply with
  | FetchFails message => Throw message
  | Response status text body =>
      if negb ((200 <=? status) && (status <=? 299))
      then
        if bool_decide (status ∈ [502; 503; 504])
        then Throw ("Overpass API is temporarily unavailable (status " +:+ pretty status
                    +:+ ").")
        else Throw ("Overpass API query failed with status " +:+ pretty status
                    +:+ ". Response: " +:+ text)
      else
        match body with
        | Unparsable message => Throw message
        | Parsed remark elements =>
            match orElse remark None with
            | Some notice => Throw ("Overpass API returned a notice: " +:+ notice)
            | None =>
                path ← fetchStreetData elements;
                Ok (path, reachesCache elements)
            end
        end
  end.

Definition busyText : string :=
  "The OpenStreetMap server is busy or unavailable. After 3 attempts, the request timed out. Please try again in a few minutes.".

(** The error thrown after the last attempt. *)
Definition finalError (message : string) : string :=
  let finalErrorMsg := Js.toLowerCase message in
  if Js.includes finalErrorMsg "temporarily unavailable" || Js.includes finalErrorMsg "status 504"
  then busyText else message.

(** The [for] loop from [attempt] on, [remaining] being
    [MAX_OSM_RETRIES - attempt]: the outcome and the pauses made, in ms. *)
Fixpoint attemptsFrom (replies : nat -> OverpassReply) (attemptNo remaining : nat)
    : Result (list OSMPoint * bool) * list Z :=
  match remaining with
  | O => (Throw "Failed to fetch OpenStreetMap data after all retry attempts.", [])
  | S remaining' =>
      let pause :=
        if (0 <? attemptNo)%nat
        then [INITIAL_OSM_BACKOFF_MS * 2 ^ (Z.of_nat attemptNo - 1)] else [] in
      match attempt (replies attemptNo) with
      | Ok found => (Ok found, pause)
      | OutOfFuel => (OutOfFuel, pause)
      | Throw message =>
          if (attemptNo =? MAX_OSM_RETRIES - 1)%nat
          then (Throw (finalError message), pause)
          else
            let '(outcome, pauses) := attemptsFrom replies (S attemptNo) remaining' in
            (outcome, pause ++ pauses)
      end
  end.

(** [fetchStreetData]: the reference to the path, [fromCache], the pauses
    made and the state of the browser afterwards.  [now] is the clock when
    the cache is read, [stored] when the path is stored. *)
Definition fetchStreetData (street city provinceState : string) (now stored : Z)
    (replies : nat -> OverpassReply) (b : Browser)
    : Result (nat * bool) * list Z * Browser :=
  match getCachedData street city provinceState now b with
  | (Some cachedData, b1) => (Ok (cachedData, true), [], b1)
  | (None, b1) =>
      match attemptsFrom replies 0 MAX_OSM_RETRIES with
      | (Ok (path, cached), pauses) =>
          let '(r, b2) := allocate path b1 in
          (Ok (r, false), pauses,
           if cached then setCachedData r street city provinceState stored b2 else b2)
      | (Throw message, pauses) => (Throw message, pauses, b1)
      | (OutOfFuel, pauses) => (OutOfFuel, pauses, b1)
      end
  end.

End OsmService.

(** [highwayPath.reverse()]: the array is reversed in place. *)
Definition reverseInPlace (r : nat) (b : OsmService.Browser) : OsmService.Browser :=
  OsmService.mkBrowser (alter reverse r (OsmService.arrays b)) (OsmService.memoryCache b)
                       (OsmService.localStorage b).

(** The handler from the call of [fetchStreetData] to the reversal asked
    for by the user: the path handed to the sampler and [fromCache]. *)
Definition loadHighwayPath (settings : Settings) (now stored : Z)
    (replies : nat -> OsmService.OverpassReply) (b : OsmService.Browser)
    : Result (list OSMPoint * bool) * list Z * OsmService.Browser :=
  match OsmService.fetchStreetData (streetName settings) (cityName settings)
          (provinceState settings) now stored replies b with
  | (Ok (r, fromCache), pauses, b1) =>
      let b2 := if reverseDirection settings then reverseInPlace r b1 else b1 in
      (Ok (default [] (OsmService.arrays b2 !! r), fromCache), pauses, b2)
  | (Throw message, pauses, b1) => (Throw message, pauses, b1)
  | (OutOfFuel, pauses, b1) => (OutOfFuel, pauses, b1)
  end.

(** The page is loaded again: the module state is lost, the storage is
    kept. *)
Definition reload (b : OsmService.Browser) : OsmService.Browser :=
  OsmService.mkBrowser [] ∅ (OsmService.localStorage b).

(** ** The vision service (services/geminiService) *)

Module GeminiService.

Definition MAX_RETRIES : nat := 3.
Definition INITIAL_BACKOFF_MS : Z := 2000.

(** A value thrown inside the [try] block, as the [catch] block reads it:
    an object with a field [error] (its [message] and [status], empty when
    absent), a value with a [message], or any other value, given by its
    rendering as text. *)
Inductive Thrown :=
| ApiError (message status : string)
| WithMessage (message : string)
| OtherValue (text : string).

(** A field of the parsed answer. *)
Inductive JsonValue := JsonNull | JsonNumber (q : Q) | JsonOther.

Inductive Answer :=
| Unparsable (message : string)
| Fields (speed_limit confidence : JsonValue).

(** What one call of [generateContent] gives: it throws, or it returns a
    text, with what [JSON.parse] makes of it. *)
Inductive GeminiReply :=
| CallFails (error : Thrown)
| Replied (text : string) (parsed : Answer).

(** The [try] block. *)
Definition tryBlock (reply : GeminiReply) : (option GeminiAnalysisResult) + Thrown :=
  match reply with
  | CallFails error => inr error
  | Replied text parsed =>
      if String.eqb (Text.trim text) EmptyString then inl None
      else
        match parsed with
        | Unparsable message => inr (WithMessage message)
        | Fields speed_limit confidence =>
            match confidence with
            | JsonNumber c =>
                match speed_limit with
                | JsonNull => inl (Some (mkAnalysis None c))
                | JsonNumber v => inl (Some (mkAnalysis (Some v) c))
                | JsonOther => inr (WithMessage "Invalid speed_limit type in response")
                end
            | _ => inr (WithMessage "Invalid confidence type in response")
            end
        end
  end.

(** [errorMessage] and [errorStatus]. *)
Definition describe (error : Thrown) : string * string :=
  match error with
  | ApiError message status =>
      (if String.eqb message EmptyString then "An unknown Gemini API error occurred."
       else message, status)
  | WithMessage message => (message, EmptyString)
  | OtherValue text => (text, EmptyString)
  end.

Definition isQuotaError (error : Thrown) : bool :=
  let '(errorMessage, errorStatus) := describe error in
  Js.includes (Js.toLowerCase errorMessage) "quota" || String.eqb errorStatus "RESOURCE_EXHAUSTED".

Definition keyText : string :=
  "The provided Google API key appears to be invalid or lacks permissions for the Vertex AI API.".

Definition quotaText : string :=
  "Failed to call the Gemini API after 3 attempts due to quota limits. Please check your plan and billing details.".

(** The test for a rejected key. *)
Definition tellsOfKey (error : Thrown) : bool :=
  let lowerCaseError := Js.toLowerCase (fst (describe error)) in
  Js.includes lowerCaseError "api key not valid" || Js.includes lowerCaseError "permission denied".

(** The error thrown by the [catch] block when it does not retry. *)
Definition rethrown (error : Thrown) : string :=
  if tellsOfKey error then keyText
  else if isQuotaError error then quotaText
  else "Gemini analysis failed: " +:+ fst (describe error).

(** The [for] loop from [attemptNo] on, [remaining] being
    [MAX_RETRIES - attemptNo]: what the call gives and the pauses made. *)
Fixpoint attemptsFrom (replies : nat -> GeminiReply) (attemptNo remaining : nat)
    : AnalysisCall * list Z :=
  match remaining with
  | O => (AnalysisReturns None, [])
  | S remaining' =>
      match tryBlock (replies attemptNo) with
      | inl result => (AnalysisReturns result, [])
      | inr error =>
          if isQuotaError error && (attemptNo <? MAX_RETRIES - 1)%nat
          then
            let backoffTime := INITIAL_BACKOFF_MS * 2 ^ Z.of_nat attemptNo in
            let '(outcome, pauses) := attemptsFrom replies (S attemptNo) remaining' in
            (outcome, backoffTime :: pauses)
          else (AnalysisThrows (rethrown error), [])
      end
  end.

Definition analyzeSpeedSign (userApiKey : string) (replies : nat -> GeminiReply)
    : AnalysisCall * list Z :=
  if String.eqb userApiKey EmptyString
  then (AnalysisThrows "A Google API key must be provided in the UI.", [])
  else attemptsFrom replies 0 MAX_RETRIES.

End GeminiService.

(** ** The imagery service (services/streetViewService) *)

Module StreetViewService.

(** What the request for the image gives: [fetch] rejects, or a response
    with its status, its body read as text, its [content-length] header
    and the type and the base64 text of its content. *)
Inductive ImageReply :=
| ImageFetchFails (message : string)
| ImageResponse (status : Z) (statusText errorBody : string) (contentLength : option Z)
    (blobType base64 : string).

Definition getStreetViewImage (effectiveApiKey : string) (reply : ImageReply) : ImageResult :=
  if String.eqb effectiveApiKey EmptyString
  then ImageFail "Google API key is not configured. Please set API_KEY or provide one in the UI."
  else
    match reply with
    | ImageFetchFails message =>
        ImageFail ("Network error while fetching Street View image: " +:+ message)
    | ImageResponse status statusText errorBody contentLength blobType base64 =>
        if negb ((200 <=? status) && (status <=? 299))
        then
          if status =? 403
          then ImageFail ("Street View API request failed: 403 Forbidden. This commonly means the API key is missing permissions. Please ensure the "
                          +:+ dq +:+ "Street View Static API" +:+ dq
                          +:+ " is enabled in your Google Cloud project. Original response: "
                          +:+ errorBody)
          else ImageFail ("Street View API request failed with status " +:+ pretty status
                          +:+ " " +:+ statusText +:+ ". Response: " +:+ errorBody)
        else
          match contentLength with
          | Some n =>
              if n <? 5000
              then ImageFail "Street View imagery not available at this location."
              else if String.eqb blobType "image/jpeg" then ImageOk base64
              else ImageFail "Street View returned non-JPEG content, likely indicating no imagery is available."
          | None =>
              if String.eqb blobType "image/jpeg" then ImageOk base64
              else ImageFail "Street View returned non-JPEG content, likely indicating no imagery is available."
          end
    end.

(** What the request for the metadata gives. *)
Inductive MetadataReply :=
| MetadataFetchFails (message : string)
| MetadataResponse (status : Z) (errorText metadataStatus date : string).

Definition getStreetViewMetadata (effectiveApiKey : string) (reply : MetadataReply)
    : MetadataResult :=
  if String.eqb effectiveApiKey EmptyString
  then MetadataFail "Google API key is not configured for metadata lookup."
  else
    match reply with
    | MetadataFetchFails message =>
        MetadataFail ("Network error fetching metadata: " +:+ message)
    | MetadataResponse status errorText metadataStatus date =>
        if negb ((200 <=? status) && (status <=? 299))
        then MetadataFail ("Metadata API returned " +:+ pretty status +:+ ": " +:+ errorText)
        else if negb (String.eqb metadataStatus "OK")
        then MetadataFail ("Metadata status: " +:+ metadataStatus +:+ ". No imagery found.")
        else MetadataOk date
    end.

End StreetViewService.

(** The services answer from what the network gives for each sample. *)
Definition respond (apiKey : string)
    (image : nat -> StreetViewService.ImageReply)
    (metadata : nat -> StreetViewService.MetadataReply)
    (vision : nat -> nat -> GeminiService.GeminiReply) (index : nat) : Responses :=
  mkResponses (StreetViewService.getStreetViewImage apiKey (image index))
              (StreetViewService.getStreetViewMetadata apiKey (metadata index))
              (fst (GeminiService.analyzeSpeedSign apiKey (vision index))).

(** ** The report (services/pdfService) *)

Module PdfService.

(** [/\s(mph|kmh|km\/h)/i.test(speed)]. *)
Fixpoint hasUnit (speed : string) : bool :=
  match speed with
  | EmptyString => false
  | String c rest =>
      let lower := Js.toLowerCase rest in
      (Text.isSpace c
       && (Js.startsWith "mph" lower || Js.startsWith "kmh" lower || Js.startsWith "km/h" lower))
      || hasUnit rest
  end.

Fixpoint onlyDigits (s : string) : bool :=
  match s with
  | EmptyString => true
  | String c rest => Js.isDigit c && onlyDigits rest
  end.

(** [/^\d+$/.test(speed)]. *)
Definition isNumber (speed : string) : bool :=
  negb (String.eqb speed EmptyString) && onlyDigits speed.

Definition formatOsmSpeed (speed : option string) (country : string) : string :=
  let localSpeedUnit := if String.eqb country "USA" then "mph" else "km/h" in
  match speed with
  | None => "N/A"
  | Some s =>
      if String.eqb s EmptyString then "N/A"
      else if hasUnit s then s
      else if isNumber s then s +:+ " " +:+ localSpeedUnit
      else s
  end.

(** The three counts of the summary: discrepancies, matches, images with
    no sign. *)
Definition discrepanciesFound (points : list AnalyzedPoint) : nat :=
  length (filter (fun p => isDiscrepancy p = true) points).

Definition matchesFound (points : list AnalyzedPoint) : nat :=
  length (filter (fun p => isDiscrepancy p = false /\ detectedSpeed p <> None) points).

Definition imagesWithNoSign (points : list AnalyzedPoint) : nat :=
  length (filter (fun p => detectedSpeed p = None) points).

(** The status written in the cell of a point. *)
Definition status (point : AnalyzedPoint) : string :=
  if isDiscrepancy point then "Discrepancy"
  else if bool_decide (detectedSpeed point <> None) then "Match"
  else "No Sign".

(** [getMarkerColor]. *)
Definition getMarkerColor (p : AnalyzedPoint) : string :=
  if isDiscrepancy p then "orange"
  else if bool_decide (detectedSpeed p <> None) then "green"
  else "blue".

Definition MAX_MARKERS_ON_MAP : nat := 75.
Definition ITEMS_PER_PAGE : nat := 6.

(** One iteration of the loop that draws the grid: [pages] counts the
    calls of [doc.addPage()], and a cell is recorded by the page on which
    it is drawn, its column and its row. *)
Definition placeCell (acc : nat * list (nat * nat * nat)) (index : nat)
    : nat * list (nat * nat * nat) :=
  let itemOnPage := (index mod ITEMS_PER_PAGE)%nat in
  let pages := if (itemOnPage =? 0)%nat then S (fst acc) else fst acc in
  let col := (itemOnPage mod 2)%nat in
  let row := (itemOnPage / 2)%nat in
  (pages, snd acc ++ [(pages, col, row)]).

Definition gridCells (points : nat) : nat * list (nat * nat * nat) :=
  foldl placeCell (0%nat, []) (seq 0 points).

(** The top of the cell in row [row] and the height of a cell, in mm. *)
Definition cellY (row : nat) : Z := 30 + Z.of_nat row * ((55 + 22) + 10).
Definition CELL_HEIGHT : Z := 55 + 22.

End PdfService.

(** ** The video (services/videoService) *)

Module VideoService.

(** The points that get a frame. *)
Definition validPoints (points : list AnalyzedPoint) : list AnalyzedPoint :=
  filter (fun p => Js.startsWith "data:image/" (imageUrl p) = true) points.

End VideoService.

(** ** The other fields of the form (App)

    [parsed] is what [parseInt] or [parseFloat] makes of the text of the
    field, [None] for [NaN]. *)

(** [Math.max(0, parseInt(startOffsetInput, 10) || 0)]. *)
Definition startOffsetFromInput (parsed : option Z) : Z := Z.max 0 (default 0 parsed).

(** [Math.max(25, parseInt(samplingDistanceInput, 10) || 25)]. *)
Definition samplingDistanceFromInput (parsed : option Z) : Z :=
  Z.max 25 (match parsed with
            | Some v => if v =? 0 then 25 else v
            | None => 25
            end).

(** [parseFloat(confidenceThresholdInput)], 0.3 for [NaN], kept within
    0 and 1. *)
Definition confidenceThresholdFromInput (parsed : option Q) : Q :=
  Qmax 0 (Qmin 1 (default (3 # 10) parsed)).

(** ** The sampler, with its arithmetic as a parameter

    [getSamplePoints] computes in double precision: the result of [+],
    [-], [*] or [/] is the double nearest to the exact value, and only
    the comparisons are exact.  Here the four operations are parameters
    and the number of turns of the [for] loop is bounded by [fuel]. *)

Record Arith := mkArith {
  fadd : Q -> Q -> Q;
  fsub : Q -> Q -> Q;
  fmul : Q -> Q -> Q;
  fdiv : Q -> Q -> Q
}.

(** The arithmetic without rounding. *)
Definition exactArith : Arith := mkArith Qplus Qminus Qmult Qdiv.

Module Rounded.
Section Sampler.
Context `{FloatOps}.
Variable ar : Arith.

Definition interpolate (p1 p2 : OSMPoint) (fraction : Q) : Q * Q :=
  (fadd ar (lat p1) (fmul ar (fsub ar (lat p2) (lat p1)) fraction),
   fadd ar (lon p1) (fmul ar (fsub ar (lon p2) (lon p1)) fraction)).

Fixpoint cumulativeFrom (prev : OSMPoint) (acc : Q) (rest : list OSMPoint) : list Q :=
  match rest with
  | [] => []
  | p :: rest' =>
      let d := fadd ar acc (haversineDistance (lat prev) (lon prev) (lat p) (lon p)) in
      d :: cumulativeFrom p d rest'
  end.

Definition cumulativeDistances (path : list OSMPoint) : list Q :=
  match path with
  | [] => [0%Q]
  | p :: rest => 0%Q :: cumulativeFrom p 0%Q rest
  end.

Definition totalPathDistance (path : list OSMPoint) : Q :=
  default 0%Q (last (cumulativeDistances path)).

Section Loop.
Variable path : list OSMPoint.
Variable cumulative : list Q.
Variable total distanceKm : Q.

(** The [for] loop over the target distances. *)
Fixpoint sampleLoop (fuel : nat) (targetDist : Q) (currentPathIndex : nat)
    (samplePoints : list OSMPoint) : Result (list OSMPoint) :=
  if negb (Qltb targetDist total) then Ok samplePoints
  else
    match fuel with
    | O => OutOfFuel
    | S fuel' =>
        let next := fadd ar targetDist distanceKm in
        if Qltb targetDist 0 then sampleLoop fuel' next currentPathIndex samplePoints
        else
          let idx := advance cumulative currentPathIndex targetDist in
          if (length path <=? idx)%nat then Ok samplePoints
          else
            p1 ← deref "p1" (path !! (idx - 1)%nat);
            p2 ← deref "p2" (path !! idx);
            let segmentStartDist := default 0%Q (cumulative !! (idx - 1)%nat) in
            let segmentLength :=
              fsub ar (default 0%Q (cumulative !! idx)) segmentStartDist in
            if Qeq_bool segmentLength 0
            then sampleLoop fuel' next idx (pushUnlessRepeated samplePoints p1)
            else
              let fraction := fdiv ar (fsub ar targetDist segmentStartDist) segmentLength in
              let c := interpolate p1 p2 fraction in
              sampleLoop fuel' next idx
                (samplePoints ++ [mkPoint (fst c) (snd c) (speed p1) (wayId p1)])
    end.
End Loop.

Definition getSamplePoints (fuel : nat) (path : list OSMPoint) (distanceKm startOffsetKm : Q)
    : Result (list OSMPoint) :=
  if (length path <? 2)%nat || Qle_bool distanceKm 0 then Ok []
  else
    let cumulative := cumulativeDistances path in
    let total := totalPathDistance path in
    if Qle_bool total startOffsetKm && Qltb 0 total then Ok []
    else sampleLoop path cumulative total distanceKm fuel startOffsetKm 1 [].

(** The value of [targetDist] at turn [n] of the [for] loop. *)
Fixpoint targetAt (distanceKm startOffsetKm : Q) (n : nat) : Q :=
  match n with
  | O => startOffsetKm
  | S n' => fadd ar (targetAt distanceKm startOffsetKm n') distanceKm
  end.

End Sampler.
End Rounded.

(** ** Further predicates used in the statements *)

(** The sample [s] was made in segment [i] of the path, for a target
    distance that lies between the cumulative distances of the two ends
    of the segment: it is the first end when the segment has no length,
    else the point interpolated between the ends; it has the tag and the
    way id of the first end. *)
Definition SampledIn `{FloatOps} (ar : Arith) (path : list OSMPoint)
    (distanceKm startOffsetKm : Q) (s : OSMPoint) (i : nat) : Prop :=
  exists p1 p2 a b n,
    let t := Rounded.targetAt ar distanceKm startOffsetKm n in
    path !! i = Some p1 /\ path !! S i = Some p2
    /\ Rounded.cumulativeDistances ar path !! i = Some a
    /\ Rounded.cumulativeDistances ar path !! S i = Some b
    /\ (0 <= t)%Q /\ (t < Rounded.totalPathDistance ar path)%Q
    /\ (a <= t)%Q /\ (t <= b)%Q
    /\ speed s = speed p1 /\ wayId s = wayId p1
    /\ if Qeq_bool (fsub ar b a) 0 then s = p1
       else (lat s, lon s)
            = Rounded.interpolate ar p1 p2 (fdiv ar (fsub ar t a) (fsub ar b a)).

(** The entries of the list do not decrease. *)
Definition Ascending (l : list nat) : Prop :=
  forall j k a b, (j <= k)%nat -> l !! j = Some a -> l !! k = Some b -> (a <= b)%nat.

(** The point [s] is at arc length [t] of [path]: it lies on the segment
    that starts at some vertex [p1], at the fraction [f] of its length,
    and carries the tag and the way id of [p1]. *)
Definition SampledAt `{FloatOps} (path : list OSMPoint) (t : Q) (s : OSMPoint) : Prop :=
  exists i p1 p2 c f,
    path !! i = Some p1 /\ path !! S i = Some p2
    /\ cumulativeDistances path !! i = Some c
    /\ (0 <= f)%Q /\ (f <= 1)%Q
    /\ (c + f * haversineDistance (lat p1) (lon p1) (lat p2) (lon p2) == t)%Q
    /\ (lat s == lat p1 + (lat p2 - lat p1) * f)%Q
    /\ (lon s == lon p1 + (lon p2 - lon p1) * f)%Q
    /\ speed s = speed p1 /\ wayId s = wayId p1.

(** No two consecutive vertices of [path] are at distance zero. *)
Definition NoZeroSegment `{FloatOps} (path : list OSMPoint) : Prop :=
  forall i p q, path !! i = Some p -> path !! S i = Some q ->
    ~ (haversineDistance (lat p) (lon p) (lat q) (lon q) == 0)%Q.

(** The ways [a] and [b] have an end node in common. *)
Definition Touching (ways : JsObject.t OSMWay) (a b : Z) : Prop :=
  exists wa wb n,
    JsObject.get a ways = Some wa /\ JsObject.get b ways = Some wb
    /\ n ∈ endpoints wa /\ n ∈ endpoints wb.

(** Each way of the chain touches the next one. *)
Definition Connected (ways : JsObject.t OSMWay) (chain : list Z) : Prop :=
  forall i a b, chain !! i = Some a -> chain !! S i = Some b -> Touching ways a b.

(** Every way filed under a node has this node as one of its ends. *)
Definition IndexExact (ways : JsObject.t OSMWay) (m : gmap Z (list Z)) : Prop :=
  forall t ws w, m !! t = Some ws -> w ∈ ws ->
    exists way, JsObject.get w ways = Some way /\ t ∈ endpoints way.

(** The tip from which a chain is extended is an end of the way [w] at
    that side of the chain. *)
Definition TipOf (ways : JsObject.t OSMWay) (w : Z) (tip : option Z) : Prop :=
  forall t, tip = Some t ->
    exists way, JsObject.get w ways = Some way /\ t ∈ endpoints way.

(** Every way of the response has at least one node, and each of its
    nodes is an element of the response. *)
Definition CompleteResponse (els : list Element) : Prop :=
  forall i ns ms ow, ElWay i ns ms ow ∈ els ->
    ns <> [] /\ Forall (fun n => exists la lo, ElNode n la lo ∈ els) ns.

(** The point has the coordinates of a node of the response, the id of a
    way of the response and, when it is tagged, the [maxspeed] of a way of
    the response. *)
Definition FromResponse (els : list Element) (p : OSMPoint) : Prop :=
  (exists n, ElNode n (lat p) (lon p) ∈ els)
  /\ (exists w ns ms ow, wayId p = Some w /\ ElWay w ns ms ow ∈ els)
  /\ (forall s, speed p = Some s -> exists w ns ow, ElWay w ns (Some s) ow ∈ els).

(** The point was built from a node and a way of the two tables. *)
Definition BuiltFrom (nodes : gmap Z (Q * Q)) (ways : JsObject.t OSMWay) (p : OSMPoint)
    : Prop :=
  exists way n c,
    JsObject.get (way_id way) ways = Some way /\ nodes !! n = Some c
    /\ p = mkPoint (fst c) (snd c) (way_speed way) (Some (way_id way)).

(** What a result records about the detection: a detected speed lies
    within the bounds of the country and was read with a confidence that
    is not below the threshold. *)
Definition Plausible (settings : Settings) (a : AnalyzedPoint) : Prop :=
  forall d, detectedSpeed a = Some d ->
    (minSpeed (country settings) <= d)%Q /\ (d <= maxSpeed (country settings))%Q
    /\ exists c, ap_confidence a = Some c /\ (confidenceThreshold settings <= c)%Q.

(** The image of the point is a data URL. *)
Definition HasImage (a : AnalyzedPoint) : Prop :=
  Js.startsWith "data:image/" (imageUrl a) = true.

(** The workers that wait for a detection hold a data URL. *)
Definition ImagesReady (s : Pool) : Prop :=
  forall w index point imageUrl imageDate,
    workers s !! w = Some (Detecting index point imageUrl imageDate) ->
    Js.startsWith "data:image/" imageUrl = true.

(** The indices of the samples that the workers hold. *)
Definition flights (s : Pool) : list nat :=
  omap (fun ws => fst <$> inFlight ws) (workers s).

(** ** Further inputs used in examples *)

(** An arithmetic that rounds every result up to a multiple of 1/8. *)
Definition roundUp (x : Q) : Q := (inject_Z (Qceiling (x * 8)) / 8)%Q.

Definition coarseArith : Arith :=
  mkArith (fun a b => roundUp (a + b)) (fun a b => roundUp (a - b))
          (fun a b => roundUp (a * b)) (fun a b => roundUp (a / b)).

Module Cases.

(** A point of a way tagged [maxspeed=80 kmph], and a sign read as 80. *)
Definition kmphSample : list OSMPoint := [mkPoint 0 0 (Some "80 kmph") (Some 7)].

Definition sign80 (i : nat) : Responses :=
  mkResponses (ImageOk "img") (MetadataOk "2021-06")
              (AnalysisReturns (Some (mkAnalysis (Some 80%Q) (9 # 10)))).

(** A tagged point followed by two untagged ones of another way. *)
Definition gap : list OSMPoint :=
  [mkPoint 0 0 (Some "40") (Some 1); mkPoint 0 1 None (Some 2); mkPoint 0 2 None (Some 2)].

(** The street of [Demo.alignedWays], answered at the first request. *)
Definition answered (attemptNo : nat) : OsmService.OverpassReply :=
  OsmService.Response 200 EmptyString (OsmService.Parsed None (Some Demo.alignedWays)).

(** A server that answers 503 twice, then 400. *)
Definition overloaded (attemptNo : nat) : OsmService.OverpassReply :=
  match attemptNo with
  | 0%nat | 1%nat => OsmService.Response 503 "busy" (OsmService.Unparsable "no body")
  | _ => OsmService.Response 400 "bad request" (OsmService.Unparsable "no body")
  end.

Definition emptyBrowser : OsmService.Browser :=
  OsmService.mkBrowser [] ∅ (Some ∅).

Definition reversedRun : Settings :=
  mkSettings "key" "Main St" "Springfield" "Ontario" "CAN" true 0 500 10 1 (3 # 10).

Definition otherSpelling : Settings :=
  mkSettings "key" "  MAIN ST" "springfield " "ONTARIO" "CAN" true 0 500 10 1 (3 # 10).

End Cases.

Module Waiting.
(** A pool of one worker that waits for the detection on sample 0, and a
    pool of one worker that waits for its image. *)
Definition sample : OSMPoint := mkPoint 0 0 (Some "50") (Some 7).

Definition detecting : Pool :=
  mkPool [] [None] [Detecting 0 sample "data:image/jpeg;base64,img" None] false 0 [].

Definition fetching : Pool := mkPool [] [None] [Fetching 0 sample] false 0 [].

Definition noImage (index : nat) : StreetViewService.ImageReply :=
  StreetViewService.ImageResponse 403 "Forbidden" "The request is denied." None
    "text/plain" EmptyString.

Definition noMetadata (index : nat) : StreetViewService.MetadataReply :=
  StreetViewService.MetadataFetchFails "offline".

Definition badKey (index attemptNo : nat) : GeminiService.GeminiReply :=
  GeminiService.CallFails
    (GeminiService.ApiError "API key not valid. Please pass a valid API key." "INVALID_ARGUMENT").
End Waiting.


(** * Properties *)

(** ** Comparisons on numbers *)

Lemma Qltb_lt (a b : Q) : Qltb a b = true <-> (a < b)%Q.
Proof.
  unfold Qltb. rewrite negb_true_iff, <- not_true_iff_false, Qle_bool_iff.
  split; [apply Qnot_le_lt | apply Qlt_not_le].
Qed.

Lemma Qltb_ge (a b : Q) : Qltb a b = false <-> (b <= a)%Q.
Proof.
  unfold Qltb. rewrite negb_false_iff. apply Qle_bool_iff.
Qed.

Lemma Qle_bool_false (a b : Q) : Qle_bool a b = false <-> (b < a)%Q.
Proof.
  rewrite <- not_true_iff_false, Qle_bool_iff.
  split; [apply Qnot_le_lt | apply Qlt_not_le].
Qed.

(** More than half: [1/2 < c/n] on counts is [n < 2c]. *)
Lemma half_lt_ratio (c n : nat) :
  (0 < n)%nat ->
  ((1 # 2) < inject_Z (Z.of_nat c) / inject_Z (Z.of_nat n))%Q <-> (n < 2 * c)%nat.
Proof.
  intros Hn.
  assert (Hpos : (0 < inject_Z (Z.of_nat n))%Q).
  { replace 0%Q with (inject_Z 0) by reflexivity. rewrite <- Zlt_Qlt. lia. }
  split.
  - intros Hlt.
    apply (Qmult_lt_r _ _ _ Hpos) in Hlt.
    unfold Qdiv in Hlt.
    rewrite <- Qmult_assoc, (Qmult_comm (/ _)), Qmult_inv_r, Qmult_1_r in Hlt
      by (intros Heq; rewrite Heq in Hpos; discriminate).
    unfold Qlt in Hlt. cbn in Hlt. lia.
  - intros Hlt. apply Qlt_shift_div_l; [exact Hpos |].
    unfold Qlt. cbn. lia.
Qed.

(** ** The helpers on strings, run on tags and messages *)

Example matchDigits_examples :
  Js.matchDigits "50 mph" = Some "50"
  /\ Js.matchDigits "signals" = None
  /\ Js.matchDigits "CA:urban 40;30" = Some "40"
  /\ Js.parseInt "050" = 50
  /\ Js.includes (Js.toLowerCase "30 MPH") "mph" = true.
Proof. repeat split; reflexivity. Qed.

Example isFatalMessage_examples :
  isFatalMessage "Street View API request failed: 403 Forbidden." = true
  /\ isFatalMessage "API key not valid. Please pass a valid API key." = true
  /\ isFatalMessage "Street View imagery not available at this location." = false
  /\ isFatalMessage "Failed to call the Gemini API after 3 attempts due to quota limits." = false.
Proof. repeat split; reflexivity. Qed.

(** ** Validation of the detected value *)

Lemma final_of_number (country : string) (threshold d c : Q) :
  finalDetectedSpeed country threshold (Some (mkAnalysis (Some d) c)) =
  if Qltb c threshold then None
  else if Qle_bool (minSpeed country) d && Qle_bool d (maxSpeed country) then Some d
  else None.
Proof.
  unfold finalDetectedSpeed, afterConfidence.
  cbn [optSpeedLimit option_map speed_limit confidence isNotNull andb].
  destruct (Qltb c threshold); cbn [isNotNull jsGe jsLe andb]; [reflexivity |].
  destruct (Qle_bool (minSpeed country) d), (Qle_bool d (maxSpeed country)); reflexivity.
Qed.

(** A response without a detected value leaves nothing to classify. *)
Lemma final_of_nothing (country : string) (threshold : Q) (r : option GeminiAnalysisResult) :
  (forall a, r = Some a -> speed_limit a = None) ->
  finalDetectedSpeed country threshold r = None.
Proof.
  intros Hr. unfold finalDetectedSpeed, afterConfidence.
  destruct r as [[[d |] c] |]; cbn.
  - specialize (Hr _ eq_refl). discriminate.
  - now destruct (Qltb c threshold).
  - reflexivity.
Qed.

(** C8: a detected value [d] reported with confidence [c] is discarded
    (the validated value is [null]) exactly when [c] is strictly below the
    threshold or [d] is outside the bounds of the country, [5..90] for
    ["USA"] and [10..150] otherwise; a value that is kept is kept
    unchanged. *)
Theorem detected_value_discarded_iff (country : string) (threshold d c : Q) :
  let final := finalDetectedSpeed country threshold (Some (mkAnalysis (Some d) c)) in
  (final = None <->
     (c < threshold)%Q
     \/ (if String.eqb country "USA" then (d < 5)%Q \/ (90 < d)%Q
         else (d < 10)%Q \/ (150 < d)%Q))
  /\ (final <> None -> final = Some d).
Proof.
  cbn zeta. rewrite final_of_number.
  assert (Hb : (if String.eqb country "USA" then (d < 5)%Q \/ (90 < d)%Q
                else (d < 10)%Q \/ (150 < d)%Q)
               <-> (d < minSpeed country)%Q \/ (maxSpeed country < d)%Q).
  { unfold minSpeed, maxSpeed. destruct (String.eqb country "USA"); reflexivity. }
  rewrite Hb. clear Hb.
  destruct (Qltb c threshold) eqn:Hc.
  - apply Qltb_lt in Hc. split; [tauto | congruence].
  - apply Qltb_ge in Hc.
    destruct (Qle_bool (minSpeed country) d) eqn:Hlo;
      destruct (Qle_bool d (maxSpeed country)) eqn:Hhi; cbn [andb].
    + apply Qle_bool_iff in Hlo, Hhi. split; [| reflexivity].
      split; [discriminate |].
      intros [Hx | [Hx | Hx]]; exfalso; eapply Qlt_not_le; eauto.
    + apply Qle_bool_false in Hhi. split; [tauto | congruence].
    + apply Qle_bool_false in Hlo. split; [tauto | congruence].
    + apply Qle_bool_false in Hlo. split; [tauto | congruence].
Qed.

(** ** The discrepancy flag *)

Lemma classify_without_detection (country : string) (osm : option string) :
  classify country osm None = false.
Proof. now destruct osm. Qed.

(** C3: the worker takes a recorded tag for miles per hour as soon as its
    text contains [mph], so a tag in kilometres per hour that is written
    [80 kmph] is multiplied by 1.60934 and compared as 128.7 km/h: a sign
    read as 80 in Canada is flagged as a discrepancy, while the same speed
    written [80 km/h], [80 kmh] or [80] is not.  Apart from the unit of the
    tag the flag follows the rule: it is set exactly when a tag and a
    validated detection both exist and either the tag has no digits or the
    two values, the detection multiplied by 1.60934 in the USA, differ by
    more than 5, or when a validated detection exists without a tag; with
    the three examples of the specification. *)
Theorem kmph_tag_is_compared_as_mph :
  classify "CAN" (Some "80 kmph") (Some 80%Q) = true
  /\ (osmSpeedInKmh "80 kmph" "80" == 128.7472)%Q
  /\ (exists app,
        @analyzeSamples planarOps Demo.oneWorker Cases.kmphSample false [] Cases.sign80
          [Resume 0%nat; Resume 0%nat] = Ok app
        /\ (fun a => (osmSpeed a, detectedSpeed a, isDiscrepancy a)) <$> analyzedPoints app
           = [(Some "80 kmph", Some 80%Q, true)])
  /\ classify "CAN" (Some "80 km/h") (Some 80%Q) = false
  /\ classify "CAN" (Some "80 kmh") (Some 80%Q) = false
  /\ classify "CAN" (Some "80") (Some 80%Q) = false
  /\ (forall country osm final,
        classify country osm final = true <->
          (exists s d, osm = Some s /\ final = Some d /\
             match Js.matchDigits s with
             | Some m =>
                 (5 < Qabs ((if Js.includes (Js.toLowerCase s) "mph"
                             then inject_Z (Js.parseInt m) * 1.60934
                             else inject_Z (Js.parseInt m))
                            - (if String.eqb country "USA" then d * 1.60934 else d)))%Q
             | None => True
             end)
          \/ (osm = None /\ exists d, final = Some d))
  /\ classify "CAN" (Some "50 mph") (Some 80%Q) = false
  /\ classify "USA" (Some "50 mph") (Some 50%Q) = false
  /\ classify "USA" (Some "30 mph") (Some 50%Q) = true
  /\ (forall country, classify country None (Some 60%Q) = true)
  /\ (forall country, classify country (Some "signals") (Some 40%Q) = true).
Proof.
  do 2 (split; [reflexivity |]).
  split; [eexists; split; vm_compute; reflexivity |].
  do 3 (split; [reflexivity |]).
  split; [| repeat split; reflexivity].
  intros country osm final.
  unfold classify. destruct osm as [s |], final as [d |].
  - destruct (Js.matchDigits s) as [m |] eqn:Hm.
    + rewrite Qltb_lt. unfold osmSpeedInKmh, detectedSpeedInKmh, MPH_TO_KMH. split.
      * intros Hlt. left. exists s, d. rewrite Hm. auto.
      * intros [(s' & d' & Hs & Hd & Hc) | [Hs _]]; [| discriminate].
        injection Hs as <-. injection Hd as <-. now rewrite Hm in Hc.
    + split; [| reflexivity].
      intros _. left. exists s, d. now rewrite Hm.
  - split; [discriminate |].
    intros [(s' & d' & _ & Hd & _) | [_ [d' Hd]]]; discriminate.
  - split; [| reflexivity]. intros _. right. eauto.
  - split; [discriminate |].
    intros [(s' & d' & _ & Hd & _) | [_ [d' Hd]]]; discriminate.
Qed.

(** ** Carry-forward of the speed tag *)

Lemma carryStep_length (l : list OSMPoint) (i : nat) :
  length (carryStep l i) = length l.
Proof.
  unfold carryStep.
  destruct (l !! i) as [p |]; [| reflexivity].
  destruct (bool_decide (speed p = None) && (0 <? i)%nat); [| reflexivity].
  destruct (l !! (i - 1)%nat); [apply length_insert | reflexivity].
Qed.

Lemma carryStep_other (l : list OSMPoint) (i j : nat) :
  i <> j -> carryStep l i !! j = l !! j.
Proof.
  intros Hne. unfold carryStep.
  destruct (l !! i) as [p |]; [| reflexivity].
  destruct (bool_decide (speed p = None) && (0 <? i)%nat); [| reflexivity].
  destruct (l !! (i - 1)%nat); [now apply list_lookup_insert_ne | reflexivity].
Qed.

Lemma carryStep_at (l : list OSMPoint) (i : nat) (p : OSMPoint) :
  l !! i = Some p -> carried (carryStep l i) i p.
Proof.
  intros Hp. unfold carried, carryStep. rewrite Hp.
  destruct (speed p) as [s |] eqn:Hs.
  - rewrite bool_decide_eq_false_2 by discriminate. exact Hp.
  - rewrite bool_decide_eq_true_2 by reflexivity. destruct i as [| j].
    + exact Hp.
    + cbn [andb Nat.ltb Nat.leb]. replace (S j - 1)%nat with j by lia.
      assert (Hj : is_Some (l !! j)).
      { apply lookup_lt_is_Some. apply lookup_lt_Some in Hp. lia. }
      destruct Hj as [q Hq]. rewrite Hq. exists q. split.
      * rewrite list_lookup_insert_ne by lia. exact Hq.
      * apply list_lookup_insert_eq. now apply lookup_lt_Some in Hp.
Qed.

Lemma carried_ext (out out' : list OSMPoint) (i : nat) (p : OSMPoint) :
  (forall j, (j <= i)%nat -> out' !! j = out !! j) -> carried out i p -> carried out' i p.
Proof.
  intros Hext. unfold carried. destruct (speed p), i as [| j].
  - now rewrite Hext by lia.
  - now rewrite Hext by lia.
  - now rewrite Hext by lia.
  - intros (q & Hq & Hi). exists q. rewrite !Hext by lia. auto.
Qed.

(** After [k] iterations the first [k] points are final and the others
    untouched. *)
Lemma carry_prefix (path : list OSMPoint) (k : nat) :
  (k <= length path)%nat ->
  let out := foldl carryStep path (seq 0 k) in
  length out = length path
  /\ (forall i, (k <= i)%nat -> out !! i = path !! i)
  /\ (forall i p, (i < k)%nat -> path !! i = Some p -> carried out i p).
Proof.
  induction k as [| k IH]; intros Hk; cbn zeta.
  - cbn. repeat split; auto. intros i p Hi. lia.
  - rewrite seq_S, foldl_app. cbn [foldl Nat.add].
    destruct IH as (Hlen & Hrest & Hdone); [lia |].
    set (out := foldl carryStep path (seq 0 k)) in *.
    split; [| split].
    + now rewrite carryStep_length.
    + intros i Hi. rewrite carryStep_other by lia. apply Hrest. lia.
    + intros i p Hi Hp. destruct (decide (i = k)) as [-> | Hne].
      * apply carryStep_at. rewrite Hrest by lia. exact Hp.
      * apply carried_ext with (out := out).
        -- intros j Hj. apply carryStep_other. lia.
        -- apply Hdone; [lia | exact Hp].
Qed.

(** C9: after the pass, a point whose tag was absent and that has a
    predecessor carries the tag and the way id of the point before it, as
    that point stands after the pass, and keeps its coordinates; a point
    with a tag, and the first point, are unchanged. *)
Theorem carry_forward_copies_predecessor (path : list OSMPoint) :
  let out := carryForward path in
  length out = length path
  /\ forall i p, path !! i = Some p ->
       (speed p = None -> (0 < i)%nat ->
          exists q, out !! (i - 1)%nat = Some q
                    /\ out !! i = Some (mkPoint (lat p) (lon p) (speed q) (wayId q)))
       /\ (speed p <> None \/ i = 0%nat -> out !! i = Some p).
Proof.
  cbn zeta. unfold carryForward.
  destruct (carry_prefix path (length path)) as (Hlen & _ & Hdone); [lia |].
  split; [exact Hlen |].
  intros i p Hp.
  pose proof (Hdone i p (lookup_lt_Some _ _ _ Hp) Hp) as Hc.
  unfold carried in Hc. split.
  - intros Hs Hi. rewrite Hs in Hc. destruct i as [| j]; [lia |].
    replace (S j - 1)%nat with j by lia. exact Hc.
  - intros [Hs | ->].
    + destruct (speed p); [| congruence]. now destruct i.
    + now destruct (speed p).
Qed.

(** ** Direction normalisation *)

Lemma followsOneway_iff (ways : JsObject.t OSMWay) (chain : list Z) :
  followsOneway ways chain = true <-> (length chain < 2 * onewayWaysCount ways chain)%nat.
Proof.
  unfold followsOneway. rewrite andb_true_iff, Nat.ltb_lt, Qltb_lt. split.
  - intros [Hn Hlt]. now apply half_lt_ratio.
  - intros Hlt.
    assert (Hn : (0 < length chain)%nat).
    { unfold onewayWaysCount in Hlt.
      pose proof (length_filter (fun wid => countsAsOneway ways wid = true) chain). lia. }
    split; [exact Hn | now apply half_lt_ratio].
Qed.

(** C6: for a non-empty path, when more than half of the ways of the
    chain are one-way the order is kept; otherwise the path is reversed
    exactly when its first point is south of its last one (latitude span
    greater than longitude span) or east of it (else), so that the result
    runs north to south, respectively west to east. *)
Theorem direction_normalized (ways : JsObject.t OSMWay) (chain : list Z)
    (path : list OSMPoint) (firstPoint lastPoint : OSMPoint) :
  head path = Some firstPoint ->
  last path = Some lastPoint ->
  let out := normalizeDirection ways chain path in
  let northSouth := isNorthSouthDominant firstPoint lastPoint in
  let reversing := needsReversing firstPoint lastPoint in
  ((length chain < 2 * onewayWaysCount ways chain)%nat -> out = path)
  /\ (northSouth = true <->
        (Qabs (lon lastPoint - lon firstPoint) < Qabs (lat lastPoint - lat firstPoint))%Q)
  /\ (reversing = true <->
        if northSouth then (lat firstPoint < lat lastPoint)%Q
        else (lon lastPoint < lon firstPoint)%Q)
  /\ (~ (length chain < 2 * onewayWaysCount ways chain)%nat ->
        out = (if reversing then reverse path else path)
        /\ exists first' last',
             head out = Some first' /\ last out = Some last'
             /\ if northSouth then (lat last' <= lat first')%Q
                else (lon first' <= lon last')%Q).
Proof.
  intros Hhead Hlast. cbn zeta. unfold normalizeDirection. rewrite Hhead, Hlast.
  split; [| split; [| split]].
  - intros Hone. apply followsOneway_iff in Hone. now rewrite Hone.
  - unfold isNorthSouthDominant. apply Qltb_lt.
  - unfold needsReversing.
    destruct (isNorthSouthDominant firstPoint lastPoint); apply Qltb_lt.
  - intros Hone. rewrite <- followsOneway_iff in Hone.
    apply not_true_is_false in Hone. rewrite Hone.
    split; [reflexivity |].
    unfold needsReversing.
    destruct (isNorthSouthDominant firstPoint lastPoint).
    + destruct (Qltb (lat firstPoint) (lat lastPoint)) eqn:Hcmp.
      * apply Qltb_lt in Hcmp.
        exists lastPoint, firstPoint. rewrite head_reverse, last_reverse.
        repeat split; auto. now apply Qlt_le_weak.
      * apply Qltb_ge in Hcmp. exists firstPoint, lastPoint. auto.
    + destruct (Qltb (lon lastPoint) (lon firstPoint)) eqn:Hcmp.
      * apply Qltb_lt in Hcmp.
        exists lastPoint, firstPoint. rewrite head_reverse, last_reverse.
        repeat split; auto. now apply Qlt_le_weak.
      * apply Qltb_ge in Hcmp. exists firstPoint, lastPoint. auto.
Qed.

(** A two-way street drawn from south to north is turned round. *)
Lemma direction_normalized_witness :
  let a := mkPoint 1 0 None (Some 7) in
  let b := mkPoint 3 0 None (Some 7) in
  normalizeDirection Demo.oneWay [7] [a; b] = [b; a].
Proof.
  intros a b.
  destruct (direction_normalized Demo.oneWay [7] [a; b] a b eq_refl eq_refl)
    as (_ & _ & _ & Hrev).
  destruct Hrev as [Hout _].
  - vm_compute. lia.
  - exact Hout.
Defined.

(** ** Sampling *)

(** The number of steps of size [d] that fit below [total] from [target]. *)
Lemma steps_positive (total target d : Q) :
  (0 < d)%Q -> (target < total)%Q ->
  (0 < Z.to_nat (Qceiling ((total - target) / d)))%nat.
Proof.
  intros Hd Hlt.
  assert (Hpos : (0 < (total - target) / d)%Q).
  { apply Qlt_shift_div_l; [exact Hd |]. rewrite Qmult_0_l.
    unfold Qminus. rewrite <- (Qplus_opp_r target).
    apply Qplus_lt_le_compat; [exact Hlt | apply Qle_refl]. }
  pose proof (Qle_ceiling ((total - target) / d)) as Hc.
  assert (Hz : (0 < inject_Z (Qceiling ((total - target) / d)))%Q)
    by (eapply Qlt_le_trans; eauto).
  change 0%Q with (inject_Z 0) in Hz. rewrite <- Zlt_Qlt in Hz. lia.
Qed.

Lemma steps_decrease (total target d : Q) :
  (0 < d)%Q ->
  (Qceiling ((total - (target + d)) / d) <= Qceiling ((total - target) / d) - 1)%Z.
Proof.
  intros Hd.
  rewrite <- (Qceiling_Z (Qceiling ((total - target) / d) - 1)).
  apply Qceiling_resp_le.
  assert (Heq : ((total - (target + d)) / d == (total - target) / d - 1)%Q).
  { field. intros H0. rewrite H0 in Hd. discriminate. }
  rewrite Heq. unfold Z.sub. rewrite inject_Z_plus. unfold Qminus.
  apply Qplus_le_compat; [apply Qle_ceiling | apply Qle_refl].
Qed.

Section SamplerFacts.
Context `{FloatOps}.

Lemma sampleLoop_done path cumulative total distanceKm fuel targetDist idx acc :
  (total <= targetDist)%Q ->
  sampleLoop path cumulative total distanceKm fuel targetDist idx acc = Ok acc.
Proof.
  intros Hle. apply Qltb_ge in Hle.
  destruct fuel; cbn [sampleLoop]; now rewrite Hle.
Qed.

Lemma advanceOver_ge (rest : list Q) (idx : nat) (target : Q) :
  (idx <= advanceOver rest idx target)%nat.
Proof.
  revert idx. induction rest as [| c rest IH]; intros idx; cbn [advanceOver]; [lia |].
  destruct (Qltb c target); [| lia]. specialize (IH (S idx)). lia.
Qed.

Lemma sampleLoop_total (path : list OSMPoint) (cumulative : list Q) (total d : Q) :
  (0 < d)%Q ->
  forall fuel target idx acc,
    (1 <= idx)%nat ->
    (Z.to_nat (Qceiling ((total - target) / d)) <= fuel)%nat ->
    exists samples, sampleLoop path cumulative total d fuel target idx acc = Ok samples.
Proof.
  intros Hd. induction fuel as [| fuel IH]; intros target idx acc Hidx Hfuel.
  - cbn [sampleLoop]. destruct (Qltb target total) eqn:Hlt; cbn [negb]; [| eauto].
    apply Qltb_lt in Hlt. pose proof (steps_positive total target d Hd Hlt). lia.
  - cbn [sampleLoop]. destruct (Qltb target total) eqn:Hlt; cbn [negb]; [| eauto].
    apply Qltb_lt in Hlt.
    pose proof (steps_positive total target d Hd Hlt) as Hpos.
    pose proof (steps_decrease total target d Hd) as Hdec.
    assert (Hnext : (Z.to_nat (Qceiling ((total - (target + d)) / d)) <= fuel)%nat) by lia.
    destruct (Qltb target 0); [now apply IH |].
    pose proof (advanceOver_ge (drop idx cumulative) idx target) as Hadv.
    fold (advance cumulative idx target) in Hadv.
    set (idx' := advance cumulative idx target) in *.
    destruct (length path <=? idx')%nat eqn:Hlen; [eauto |].
    apply Nat.leb_gt in Hlen.
    destruct (lookup_lt_is_Some_2 path (idx' - 1)%nat) as [p1 Hp1]; [lia |].
    destruct (lookup_lt_is_Some_2 path idx') as [p2 Hp2]; [lia |].
    rewrite Hp1, Hp2. cbn.
    destruct (Qeq_bool _ 0); apply IH; auto; lia.
Qed.

(** Sampling always returns: neither the counter of the model nor a lookup
    in the path fails. *)
Lemma getSamplePoints_total (path : list OSMPoint) (distanceKm startOffsetKm : Q) :
  exists samples, getSamplePoints path distanceKm startOffsetKm = Ok samples.
Proof.
  unfold getSamplePoints.
  destruct ((length path <? 2)%nat || Qle_bool distanceKm 0) eqn:Hguard; [eauto |].
  apply orb_false_iff in Hguard as [_ Hd]. apply Qle_bool_false in Hd.
  destruct (Qle_bool (totalPathDistance path) startOffsetKm && Qltb 0 (totalPathDistance path));
    [eauto |].
  apply sampleLoop_total; [exact Hd | lia |]. unfold sampleFuel. lia.
Qed.

(** C7: the sampler returns the empty list, and no error, when the start
    offset is at or beyond the total length of the path and when the
    interval is zero or negative. *)
Theorem sampler_empty_at_boundary (path : list OSMPoint) (distanceKm startOffsetKm : Q) :
  (totalPathDistance path <= startOffsetKm)%Q \/ (distanceKm <= 0)%Q ->
  getSamplePoints path distanceKm startOffsetKm = Ok [].
Proof.
  intros Hcase. unfold getSamplePoints.
  destruct ((length path <? 2)%nat || Qle_bool distanceKm 0) eqn:Hguard; [reflexivity |].
  apply orb_false_iff in Hguard as [_ Hd].
  destruct (Qle_bool (totalPathDistance path) startOffsetKm && Qltb 0 (totalPathDistance path));
    [reflexivity |].
  destruct Hcase as [Hoff | Hneg].
  - now apply sampleLoop_done.
  - apply Qle_bool_iff in Hneg. congruence.
Qed.
End SamplerFacts.

(** A street of length 1 sampled every 1/2 from 0, and from 1/4. *)
Example sampling_examples :
  @getSamplePoints planarOps Demo.street (1 # 2) 0
  = Ok [mkPoint 0 0 (Some "50") (Some 7); mkPoint (0 # 2) (1 # 2) (Some "50") (Some 7)]
  /\ (exists a b, @getSamplePoints planarOps Demo.street (1 # 2) (1 # 4) = Ok [a; b]
                  /\ (lon a == 1 # 4)%Q /\ (lon b == 3 # 4)%Q).
Proof.
  split; [vm_compute; reflexivity |].
  eexists _, _. split; [vm_compute; reflexivity |]. split; reflexivity.
Qed.

(** An offset equal to the length of the street, and an interval of zero. *)
Lemma sampler_empty_at_boundary_witness :
  @getSamplePoints planarOps Demo.street (1 # 4) 1 = Ok []
  /\ @getSamplePoints planarOps Demo.street 0 0 = Ok [].
Proof.
  split.
  - apply (@sampler_empty_at_boundary planarOps Demo.street (1 # 4) 1).
    left. vm_compute. discriminate.
  - apply (@sampler_empty_at_boundary planarOps Demo.street 0 0).
    right. vm_compute. discriminate.
Defined.

(** ** The ways object *)

Lemma keys_perm {V} (o : JsObject.t V) : JsObject.keys o ≡ₚ JsObject.order o.
Proof.
  unfold JsObject.keys. rewrite merge_sort_Permutation.
  induction (JsObject.order o) as [| k l IH]; [reflexivity |].
  rewrite !filter_cons. destruct (JsObject.isIndex k) eqn:Hk.
  - rewrite decide_True by reflexivity. rewrite decide_False by discriminate.
    cbn. now rewrite IH.
  - rewrite decide_False by discriminate. rewrite decide_True by reflexivity.
    rewrite <- Permutation_middle. now rewrite IH.
Qed.

Lemma empty_wf : WaysWf JsObject.empty.
Proof.
  split; [apply NoDup_nil_2 |]. split.
  - intros k. unfold JsObject.get. cbn. rewrite lookup_empty. split.
    + intros Hk. now apply elem_of_nil in Hk.
    + intros [x Hx]. discriminate.
  - intros k way. unfold JsObject.get. cbn. now rewrite lookup_empty.
Qed.

Lemma set_wf (ways : JsObject.t OSMWay) (k : Z) (w : OSMWay) :
  way_id w = k -> WaysWf ways -> WaysWf (JsObject.set k w ways).
Proof.
  intros Hid (Hnd & Hdom & Hids). unfold WaysWf, JsObject.set, JsObject.get in *. cbn.
  split; [| split].
  - destruct (decide (k ∈ JsObject.order ways)); [exact Hnd |].
    apply NoDup_app. repeat split; auto.
    + intros x Hx Hx'. apply list_elem_of_singleton in Hx'. now subst.
    + apply NoDup_singleton.
  - intros j. rewrite lookup_insert. destruct (decide (k = j)) as [-> | Hne].
    + split; [eauto |]. intros _.
      destruct (decide (j ∈ JsObject.order ways)); [assumption |].
      apply elem_of_app. right. now apply list_elem_of_singleton.
    + rewrite <- Hdom.
      destruct (decide (k ∈ JsObject.order ways)); [reflexivity |].
      rewrite elem_of_app, list_elem_of_singleton. split; [intros [? | ?]; congruence | auto].
  - intros j way. rewrite lookup_insert. destruct (decide (k = j)) as [-> | Hne].
    + intros [= <-]. exact Hid.
    + apply Hids.
Qed.

Lemma collectElements_wf (els : list Element) : WaysWf (snd (collectElements els)).
Proof.
  unfold collectElements.
  assert (Hgen : forall acc, WaysWf (snd acc) -> WaysWf (snd (foldl addElement acc els))).
  { induction els as [| el els IH]; intros acc Hacc; [exact Hacc |].
    cbn [foldl]. apply IH. destruct el; cbn; auto.
    now apply set_wf. }
  apply Hgen. exact empty_wf.
Qed.

Lemma no_way_no_keys (els : list Element) :
  (forall i ns ms ow, ElWay i ns ms ow ∉ els) ->
  JsObject.keys (snd (collectElements els)) = [].
Proof.
  intros Hno. unfold collectElements.
  assert (Hgen : forall acc, snd (foldl addElement acc els) = snd acc).
  { revert Hno. induction els as [| el els IH]; intros Hno acc; [reflexivity |].
    cbn [foldl]. rewrite IH.
    - destruct el; cbn; try reflexivity. exfalso. eapply Hno. left.
    - intros i ns ms ow Hin. eapply Hno. right. exact Hin. }
  rewrite Hgen. reflexivity.
Qed.

(** ** Chain growth returns *)

Section ChainFacts.
Variable ways : JsObject.t OSMWay.
Hypothesis Hwf : WaysWf ways.

Lemma pushWay_sound (m : gmap Z (list Z)) (wid nodeId : Z) :
  is_Some (JsObject.get wid ways) -> IndexSound ways m -> IndexSound ways (pushWay wid m nodeId).
Proof.
  intros Hwid Hm t ws w. unfold pushWay. rewrite lookup_insert.
  destruct (decide (nodeId = t)) as [-> | Hne]; [| apply Hm].
  intros [= <-] Hin. apply elem_of_app in Hin as [Hin | Hin].
  - destruct (m !! t) as [ws' |] eqn:Hws; cbn in Hin.
    + eapply Hm; eauto.
    + now apply elem_of_nil in Hin.
  - apply list_elem_of_singleton in Hin. now subst.
Qed.

Lemma indexWay_sound (m : gmap Z (list Z)) (k : Z) :
  IndexSound ways m -> IndexSound ways (indexWay ways m k).
Proof.
  intros Hm. unfold indexWay.
  destruct (JsObject.get k ways) as [way |] eqn:Hway; [| exact Hm].
  destruct Hwf as (_ & _ & Hids). rewrite (Hids _ _ Hway).
  generalize dependent m.
  induction (endpoints way) as [| n ns IH]; intros m Hm; [exact Hm |].
  cbn [foldl]. apply IH. apply pushWay_sound; [| exact Hm]. rewrite Hway. eauto.
Qed.

Lemma buildNodeToWayMap_sound : IndexSound ways (buildNodeToWayMap ways).
Proof.
  unfold buildNodeToWayMap.
  assert (Hgen : forall ks m, IndexSound ways m ->
                              IndexSound ways (foldl (indexWay ways) m ks)).
  { induction ks as [| k ks IH]; intros m Hm; [exact Hm |].
    cbn [foldl]. apply IH. now apply indexWay_sound. }
  apply Hgen. intros t ws w Hl. now rewrite lookup_empty in Hl.
Qed.

Lemma waySet_size : size (waySet ways) = length (JsObject.keys ways).
Proof.
  unfold waySet. rewrite size_list_to_set by apply Hwf.
  now rewrite keys_perm.
Qed.

Lemma get_in_waySet (k : Z) : is_Some (JsObject.get k ways) -> k ∈ waySet ways.
Proof.
  intros Hk. unfold waySet. apply elem_of_list_to_set. now apply Hwf.
Qed.

Variable nodeToWayMap : gmap Z (list Z).
Hypothesis Hsound : IndexSound ways nodeToWayMap.

Lemma connections_head (used : gset Z) (tip : option Z) (next : Z) (rest : list Z) :
  connections nodeToWayMap used tip = next :: rest ->
  (next ∉ used) /\ is_Some (JsObject.get next ways).
Proof.
  unfold connections. destruct tip as [t |]; [| discriminate].
  destruct (nodeToWayMap !! t) as [ws |] eqn:Hws; [| discriminate].
  intros Hf.
  assert (Hin : next ∈ filter (fun w => w ∉ used) ws) by (rewrite Hf; apply list_elem_of_here).
  apply list_elem_of_filter in Hin as [Hnot Hin]. split; [exact Hnot |].
  eapply Hsound; eauto.
Qed.

Lemma grow_used (used : gset Z) (next : Z) :
  used ⊆ waySet ways -> next ∉ used -> is_Some (JsObject.get next ways) ->
  (used ∪ {[next]} ⊆ waySet ways) /\ size (used ∪ {[next]}) = S (size used).
Proof.
  intros Hsub Hnot Hget. split.
  - apply get_in_waySet in Hget. apply union_subseteq. split; [exact Hsub |].
    now apply singleton_subseteq_l.
  - rewrite size_union; [rewrite size_singleton; lia |].
    apply disjoint_singleton_r. exact Hnot.
Qed.

Lemma extendForward_total (fuel : nat) (used : gset Z) (chain : list Z) (tip : option Z) :
  used ⊆ waySet ways -> (size (waySet ways) - size used < fuel)%nat ->
  exists used' chain',
    extendForward ways nodeToWayMap fuel used chain tip = Ok (used', chain')
    /\ used' ⊆ waySet ways.
Proof.
  revert used chain tip. induction fuel as [| fuel IH]; intros used chain tip Hsub Hfuel; [lia |].
  cbn [extendForward].
  destruct (connections nodeToWayMap used tip) as [| next rest] eqn:Hc.
  - exists used, chain. auto.
  - apply connections_head in Hc as [Hnot [way Hway]].
    rewrite Hway. cbn.
    destruct (grow_used used next Hsub Hnot) as [Hsub' Hsize]; [eauto |].
    pose proof (subseteq_size _ _ Hsub') as Hle.
    destruct (decide (firstNode way = tip)); apply IH; (assumption || lia).
Qed.

Lemma extendBackward_total (fuel : nat) (used : gset Z) (chain : list Z) (tip : option Z) :
  used ⊆ waySet ways -> (size (waySet ways) - size used < fuel)%nat ->
  exists used' chain',
    extendBackward ways nodeToWayMap fuel used chain tip = Ok (used', chain')
    /\ used' ⊆ waySet ways.
Proof.
  revert used chain tip. induction fuel as [| fuel IH]; intros used chain tip Hsub Hfuel; [lia |].
  cbn [extendBackward].
  destruct (connections nodeToWayMap used tip) as [| next rest] eqn:Hc.
  - exists used, chain. auto.
  - apply connections_head in Hc as [Hnot [way Hway]].
    rewrite Hway. cbn.
    destruct (grow_used used next Hsub Hnot) as [Hsub' Hsize]; [eauto |].
    pose proof (subseteq_size _ _ Hsub') as Hle.
    destruct (decide (lastNode way = tip)); apply IH; (assumption || lia).
Qed.

Lemma growChains_total (fuel : nat) (keys : list Z) (used : gset Z) (chains : list (list Z)) :
  (size (waySet ways) < fuel)%nat ->
  (forall k, k ∈ keys -> is_Some (JsObject.get k ways)) ->
  used ⊆ waySet ways ->
  exists chains', growChains ways nodeToWayMap fuel keys used chains = Ok chains'.
Proof.
  intros Hfuel. revert used chains.
  induction keys as [| k keys IH]; intros used chains Hkeys Hsub; cbn [growChains]; [eauto |].
  destruct (decide (k ∈ used)).
  - apply IH; [| exact Hsub]. intros j Hj. apply Hkeys. now right.
  - destruct (Hkeys k) as [way Hway]; [left |]. rewrite Hway. cbn.
    destruct (grow_used used k Hsub) as [Hsub1 _]; [assumption | eauto |].
    destruct (extendForward_total fuel (used ∪ {[k]}) [k] (lastNode way))
      as (u1 & c1 & Hr1 & Hw1); [assumption | lia |].
    rewrite Hr1. cbn.
    destruct (extendBackward_total fuel u1 c1 (firstNode way))
      as (u2 & c2 & Hr2 & Hw2); [assumption | lia |].
    rewrite Hr2. cbn.
    apply IH; [| exact Hw2]. intros j Hj. apply Hkeys. now right.
Qed.
End ChainFacts.

(** The chain growth always returns: the counter of the model is never
    exhausted and no lookup fails. *)
Lemma buildChains_total (ways : JsObject.t OSMWay) :
  WaysWf ways -> exists chains, buildChains ways = Ok chains.
Proof.
  intros Hwf. unfold buildChains.
  apply (growChains_total ways Hwf (buildNodeToWayMap ways) (buildNodeToWayMap_sound ways Hwf)).
  - rewrite waySet_size by exact Hwf. lia.
  - intros k Hk. apply Hwf. now rewrite <- (keys_perm ways).
  - apply empty_subseteq.
Qed.

Lemma appendWays_fuel (nodes : gmap Z (Q * Q)) (ways : JsObject.t OSMWay) (rest : list Z) :
  forall finalPath, appendWays nodes ways finalPath rest <> OutOfFuel.
Proof.
  induction rest as [| wid rest IH]; intros finalPath; cbn [appendWays]; [discriminate |].
  unfold appendWay. destruct (last finalPath) as [lp |]; cbn; [| discriminate].
  destruct (JsObject.get wid ways) as [currentWay |]; cbn; [| discriminate].
  destruct (firstNode currentWay ≫= _) as [startNode |]; cbn; [| discriminate].
  destruct (sameCoords lp startNode); cbn; [apply IH |].
  destruct (lastNode currentWay ≫= _) as [endNode |]; cbn; [| discriminate].
  destruct (sameCoords lp endNode); cbn; apply IH.
Qed.

(** The assembly returns a path or throws; the counter is never the cause. *)
Lemma fetchStreetData_fuel (elements : option (list Element)) :
  fetchStreetData elements <> OutOfFuel.
Proof.
  unfold fetchStreetData. destruct elements as [[| el els] |]; try discriminate.
  destruct (collectElements (el :: els)) as [nodes ways] eqn:Hc.
  destruct (bool_decide (nodes = ∅) || bool_decide (JsObject.keys ways = []));
    [discriminate |].
  assert (Hwf : WaysWf ways).
  { replace ways with (snd (collectElements (el :: els))) by now rewrite Hc.
    apply collectElements_wf. }
  destruct (buildChains_total ways Hwf) as [chains Hchains].
  unfold canonicalChain. rewrite Hchains. cbn.
  destruct (longestChainOf chains) as [chain |]; [| discriminate].
  unfold flattenChain. destruct chain as [| firstWayId rest]; [discriminate |].
  destruct (JsObject.get firstWayId ways) as [firstWay |]; cbn; [| discriminate].
  pose proof (appendWays_fuel nodes ways rest
                (buildPointsForWay nodes firstWay (way_nodes firstWay))) as Hfuel.
  destruct (appendWays nodes ways _ rest); cbn; (discriminate || contradiction).
Qed.

(** ** The canonical chain *)

Lemma head_insertChain (c : list Z) (sorted : list (list Z)) :
  head (insertChain c sorted) =
  match head sorted with
  | Some x => if (length x <=? length c)%nat then Some c else Some x
  | None => Some c
  end.
Proof.
  destruct sorted as [| x rest]; [reflexivity |].
  cbn [insertChain head]. now destruct (length x <=? length c)%nat.
Qed.

Lemma insertChain_perm (c : list Z) (sorted : list (list Z)) :
  insertChain c sorted ≡ₚ c :: sorted.
Proof.
  induction sorted as [| x rest IH]; [reflexivity |].
  cbn [insertChain]. destruct (length x <=? length c)%nat; [reflexivity |].
  rewrite IH. apply perm_swap.
Qed.

Lemma sortChains_perm (chains : list (list Z)) : sortChains chains ≡ₚ chains.
Proof.
  induction chains as [| c rest IH]; [reflexivity |].
  cbn [sortChains foldr]. fold (sortChains rest). now rewrite insertChain_perm, IH.
Qed.

Lemma longestChainOf_nil (chains : list (list Z)) :
  longestChainOf chains = None <-> chains = [].
Proof.
  unfold longestChainOf. split.
  - intros Hh. destruct (sortChains chains) as [| x l] eqn:Hs; [| discriminate].
    apply Permutation_nil. now rewrite <- Hs, sortChains_perm.
  - now intros ->.
Qed.

Lemma longestChainOf_first_longest (chains : list (list Z)) (c : list Z) :
  longestChainOf chains = Some c -> FirstLongest chains c.
Proof.
  unfold longestChainOf. revert c.
  induction chains as [| c0 rest IH]; intros c; [discriminate |].
  cbn [sortChains foldr]. fold (sortChains rest). rewrite head_insertChain.
  destruct (head (sortChains rest)) as [x |] eqn:Hx.
  - destruct (IH x eq_refl) as (i & Hi & Hmax & Hbefore).
    destruct (length x <=? length c0)%nat eqn:Hcmp; intros [= <-].
    + apply Nat.leb_le in Hcmp. exists 0%nat. split; [reflexivity |]. split.
      * intros [| j] c'; cbn; [intros [= <-]; lia |].
        intros Hj. specialize (Hmax _ _ Hj). lia.
      * intros j c' Hj. lia.
    + apply Nat.leb_gt in Hcmp. exists (S i). split; [exact Hi |]. split.
      * intros [| j] c'; cbn; [intros [= <-]; lia | apply Hmax].
      * intros [| j] c' Hj; cbn; [intros [= <-]; lia |].
        apply Hbefore. lia.
  - intros [= <-].
    assert (Hrest : rest = []) by now apply longestChainOf_nil.
    subst rest. exists 0%nat. split; [reflexivity |]. split.
    + intros [| j] c'; cbn; [intros [= <-]; lia | discriminate].
    + intros j c' Hj. lia.
Qed.

Lemma first_longest_unique (chains : list (list Z)) (c1 c2 : list Z) :
  FirstLongest chains c1 -> FirstLongest chains c2 -> c1 = c2.
Proof.
  intros (i1 & Hi1 & Hmax1 & Hb1) (i2 & Hi2 & Hmax2 & Hb2).
  destruct (lt_eq_lt_dec i1 i2) as [[Hlt | ->] | Hlt].
  - specialize (Hb2 _ _ Hlt Hi1). specialize (Hmax1 _ _ Hi2). lia.
  - congruence.
  - specialize (Hb1 _ _ Hlt Hi2). specialize (Hmax2 _ _ Hi1). lia.
Qed.

Lemma no_chain_no_path (els : list Element) :
  canonicalChain (snd (collectElements els)) = Ok None -> fetchStreetData (Some els) = Ok [].
Proof.
  intros Hnone. unfold fetchStreetData. destruct els as [| el els]; [reflexivity |].
  destruct (collectElements (el :: els)) as [nodes ways]. cbn [snd] in Hnone.
  destruct (bool_decide (nodes = ∅) || bool_decide (JsObject.keys ways = []));
    [reflexivity |].
  now rewrite Hnone.
Qed.

(** C5: the chains of any response are built without failure, and the
    canonical chain is the first of the longest ones in the order in which
    they were built: a chain strictly longer than every other is selected,
    chains of equal length are told apart by that order, and a response
    without fragments or without chains gives the empty path, not an
    error. *)
Theorem canonical_chain_is_longest (els : list Element) :
  let ways := snd (collectElements els) in
  (exists chains,
      buildChains ways = Ok chains
      /\ canonicalChain ways = Ok (longestChainOf chains)
      /\ (chains = [] -> longestChainOf chains = None)
      /\ (forall c, longestChainOf chains = Some c -> FirstLongest chains c)
      /\ (forall i c,
            chains !! i = Some c ->
            (forall j c', j <> i -> chains !! j = Some c' -> (length c' < length c)%nat) ->
            canonicalChain ways = Ok (Some c)))
  /\ fetchStreetData None = Ok []
  /\ fetchStreetData (Some []) = Ok []
  /\ ((forall i ns ms ow, ElWay i ns ms ow ∉ els) -> fetchStreetData (Some els) = Ok [])
  /\ (canonicalChain ways = Ok None -> fetchStreetData (Some els) = Ok []).
Proof.
  cbn zeta. split; [| split; [reflexivity | split; [reflexivity | split]]].
  - destruct (buildChains_total _ (collectElements_wf els)) as [chains Hchains].
    exists chains. split; [exact Hchains |].
    assert (Hcanon : canonicalChain (snd (collectElements els)) = Ok (longestChainOf chains)).
    { unfold canonicalChain. now rewrite Hchains. }
    split; [exact Hcanon |]. split; [intros ->; reflexivity |].
    split; [apply longestChainOf_first_longest |].
    intros i c Hi Hstrict. rewrite Hcanon. f_equal.
    destruct (longestChainOf chains) as [c0 |] eqn:Hc0.
    + f_equal. apply (first_longest_unique chains).
      * now apply longestChainOf_first_longest.
      * exists i. split; [exact Hi |]. split.
        -- intros j c' Hj. destruct (decide (j = i)) as [-> | Hne].
           ++ assert (c' = c) by congruence. subst. lia.
           ++ specialize (Hstrict _ _ Hne Hj). lia.
        -- intros j c' Hlt Hj. apply (Hstrict j); [lia | exact Hj].
    + apply longestChainOf_nil in Hc0. subst chains. discriminate.
  - intros Hno. unfold fetchStreetData. destruct els as [| el els]; [reflexivity |].
    destruct (collectElements (el :: els)) as [nodes ways] eqn:Hc.
    assert (Hk : JsObject.keys ways = []).
    { replace ways with (snd (collectElements (el :: els))) by now rewrite Hc.
      now apply no_way_no_keys. }
    rewrite Hk. rewrite (bool_decide_eq_true_2 ([] = [])) by reflexivity.
    now rewrite orb_true_r.
  - apply no_chain_no_path.
Qed.

(** Two chains of one way each: the one built first is kept; a chain of
    two ways wins over a chain of one built before it. *)
Example tie_goes_to_first_chain :
  longestChainOf [[30]; [10]] = Some [30]
  /\ longestChainOf [[30]; [10; 20]] = Some [10; 20]
  /\ canonicalChain (snd (collectElements
       [ElNode 1 0 0; ElNode 2 0 1; ElNode 3 5 5; ElNode 4 5 6;
        ElWay 40 [3; 4] None None; ElWay 10 [1; 2] None None])) = Ok (Some [10]).
Proof. repeat split; vm_compute; reflexivity. Qed.

(** ** Flattening *)

Section FlattenFacts.
Variable nodes : gmap Z (Q * Q).
Variable ways : JsObject.t OSMWay.

Lemma buildPoints_length (w : OSMWay) (ns : list Z) :
Forall (fun n => is_Some (nodes !! n)) ns ->
length (buildPointsForWay nodes w ns) = length ns.
Proof.
unfold buildPointsForWay. induction 1 as [| n ns [c Hc] _ IH]; [reflexivity |].
simpl. rewrite Hc. simpl. now f_equal.
Qed.

Lemma buildPoints_last (w : OSMWay) (ns : list Z) (n : Z) (c : Q * Q) :
last ns = Some n -> nodes !! n = Some c ->
last (buildPointsForWay nodes w ns)
= Some (mkPoint (fst c) (snd c) (way_speed w) (Some (way_id w))).
Proof.
intros Hlast Hc. apply last_Some in Hlast as [ns' ->].
unfold buildPointsForWay. rewrite omap_app. simpl. rewrite Hc. simpl.
apply last_snoc.
Qed.

Lemma sameCoords_refl (c : Q * Q) (s : option string) (i : option Z) :
sameCoords (mkPoint (fst c) (snd c) s i) c = true.
Proof. unfold sameCoords. cbn. now rewrite !Qeq_bool_refl. Qed.

Lemma appendWays_aligned (rest : list Z) :
forall (finalPath : list OSMPoint) (p : OSMPoint) (tip : Z) (c : Q * Q),
  last finalPath = Some p -> nodes !! tip = Some c -> sameCoords p c = true ->
  AlignedFrom nodes ways tip rest ->
  exists path,
    appendWays nodes ways finalPath rest = Ok path
    /\ (length path + length rest = length finalPath + totalNodes ways rest)%nat.
Proof.
induction rest as [| wid rest IH]; intros finalPath p tip c Hlast Hc Hsame Hal.
- exists finalPath. split; [reflexivity |]. cbn. lia.
- destruct Hal as (w & tip' & Hw & Hfirst & Hlastn & Hres & Hal).
  cbn [appendWays]. unfold appendWay. rewrite Hlast, Hw. cbn.
  rewrite Hfirst. cbn. rewrite Hc. cbn. rewrite Hsame.
  cbn [totalNodes]. unfold nodeCount. rewrite Hw.
  unfold firstNode in Hfirst. unfold lastNode in Hlastn. unfold Resolved in Hres.
  destruct (way_nodes w) as [| n0 ns] eqn:Hns; [discriminate |].
  cbn in Hfirst. injection Hfirst as ->.
  apply Forall_cons in Hres as [_ Hres].
  cbn [drop].
  assert (Hlen : length (buildPointsForWay nodes w ns) = length ns)
    by now apply buildPoints_length.
  destruct ns as [| n1 ns'].
  + cbn in Hlastn. injection Hlastn as <-.
    destruct (IH (finalPath ++ buildPointsForWay nodes w []) p tip c) as (path & Hr & Hl);
      auto.
    { cbn. now rewrite app_nil_r. }
    exists path. split; [exact Hr |]. cbn in *. rewrite length_app in Hl. cbn in Hl. lia.
  + rewrite last_cons_cons in Hlastn.
    assert (Hc' : is_Some (nodes !! tip')).
    { apply last_Some_elem_of in Hlastn. rewrite Forall_forall in Hres. now apply Hres. }
    destruct Hc' as [c' Hc'].
    pose proof (buildPoints_last w (n1 :: ns') tip' c' Hlastn Hc') as Hbl.
    destruct (IH (finalPath ++ buildPointsForWay nodes w (n1 :: ns'))
                (mkPoint (fst c') (snd c') (way_speed w) (Some (way_id w))) tip' c')
      as (path & Hr & Hl); auto.
    { rewrite last_app, Hbl. reflexivity. }
    { apply sameCoords_refl. }
    exists path. split; [exact Hr |]. rewrite length_app, Hlen in Hl. cbn in *. lia.
Qed.

(** Where the chain is stored head to tail, the flattening joins the ways
  at their shared nodes: the path has the nodes of all ways less one per
  junction. *)
Lemma flattenChain_aligned (firstWayId : Z) (firstWay : OSMWay) (tip : Z) (rest : list Z) :
JsObject.get firstWayId ways = Some firstWay ->
Resolved nodes firstWay -> lastNode firstWay = Some tip ->
AlignedFrom nodes ways tip rest ->
exists path,
  flattenChain nodes ways (firstWayId :: rest) = Ok path
  /\ (length path + length rest = totalNodes ways (firstWayId :: rest))%nat.
Proof.
intros Hw Hres Hlast Hal. unfold flattenChain. rewrite Hw. cbn.
assert (Hc : is_Some (nodes !! tip)).
{ unfold lastNode in Hlast. apply last_Some_elem_of in Hlast.
  unfold Resolved in Hres. rewrite Forall_forall in Hres. now apply Hres. }
destruct Hc as [c Hc].
destruct (appendWays_aligned rest (buildPointsForWay nodes firstWay (way_nodes firstWay))
            _ tip c (buildPoints_last firstWay _ tip c Hlast Hc) Hc
            (sameCoords_refl c _ _) Hal) as (path & Hr & Hl).
exists path. split; [exact Hr |].
rewrite buildPoints_length in Hl by exact Hres.
cbn [totalNodes]. unfold nodeCount at 1. rewrite Hw. lia.
Qed.
End FlattenFacts.


(** C4, at a street of two ways 10 = (2, 1) and 20 = (2, 3): the chain is
    20, 10; way 20 is emitted as stored, from node 2 to node 3, so way 10
    matches the running end with neither of its ends and is appended whole.
    The path has 4 points where 2 + 2 - (2 - 1) = 3 are expected; with way
    10 drawn from node 1 to node 2 it has 3. *)
Theorem reversed_first_way_is_not_joined :
  buildChains (snd (collectElements Demo.reversedFirstWay)) = Ok [[20; 10]]
  /\ fetchStreetData (Some Demo.reversedFirstWay)
     = Ok [mkPoint 0 0 None (Some 10); mkPoint 0 (1 # 1000) None (Some 10);
           mkPoint 0 (2 # 1000) (Some "50") (Some 20);
           mkPoint 0 (1 # 1000) (Some "50") (Some 20)]
  /\ (exists path, fetchStreetData (Some Demo.reversedFirstWay) = Ok path
                   /\ length path <> (2 + 2 - (2 - 1))%nat)
  /\ fetchStreetData (Some Demo.alignedWays)
     = Ok [mkPoint 0 0 None (Some 10); mkPoint 0 (1 # 1000) None (Some 10);
           mkPoint 0 (2 # 1000) (Some "50") (Some 20)].
Proof.
  split; [vm_compute; reflexivity |].
  split; [vm_compute; reflexivity |].
  split; [| vm_compute; reflexivity].
  eexists. split; [vm_compute; reflexivity |]. cbn. lia.
Qed.

(** ** The worker pool *)

Lemma inFlight_settled (ws : WorkerState) : settled ws = true <-> inFlight ws = None.
Proof. destruct ws; cbn; split; congruence. Qed.

Lemma entries_lookup (pts : list OSMPoint) (i : nat) :
  entries pts !! i = (fun p => (i, p)) <$> pts !! i.
Proof. unfold entries. apply list_lookup_imap. Qed.

Lemma length_entries (pts : list OSMPoint) : length (entries pts) = length pts.
Proof. unfold entries. apply length_imap. Qed.

Lemma drop_entries_cons (pts : list OSMPoint) (k index : nat) (point : OSMPoint)
    (rest : list (nat * OSMPoint)) :
  drop k (entries pts) = (index, point) :: rest ->
  index = k /\ pts !! k = Some point /\ rest = drop (S k) (entries pts).
Proof.
  intros Hd.
  assert (Hk : drop k (entries pts) !! 0%nat = Some (index, point)) by now rewrite Hd.
  rewrite lookup_drop, Nat.add_0_r, entries_lookup in Hk.
  destruct (pts !! k) as [p |] eqn:Hp; [| discriminate].
  injection Hk as <- <-. split; [reflexivity |]. split; [reflexivity |].
  assert (He : entries pts !! k = Some (k, p)) by (rewrite entries_lookup, Hp; reflexivity).
  rewrite (drop_S _ _ _ He) in Hd. congruence.
Qed.

(** Writing a slot that was empty adds one entry to the compacted array. *)
Lemma omap_insert_fresh {A} (l : list (option A)) (i : nat) (a : A) :
  l !! i = Some None ->
  length (omap (fun p => p) (<[i := Some a]> l)) = S (length (omap (fun p => p) l)).
Proof.
  revert i. induction l as [| x l IH]; intros i Hi; [discriminate |].
  destruct i as [| i]; simpl in *.
  - injection Hi as ->. reflexivity.
  - destruct x; simpl; [f_equal |]; apply (IH _ Hi).
Qed.

Lemma arraySet_in_range {A} (l : list (option A)) (i : nat) (a : A) :
  (i < length l)%nat -> arraySet l i a = <[i := Some a]> l.
Proof.
  intros Hi. unfold arraySet. now rewrite (proj2 (Nat.ltb_lt _ _) Hi).
Qed.

Section PoolFacts.
Context `{FloatOps}.
Variable settings : Settings.
Variable pts : list OSMPoint.
Variable env : nat -> Responses.

Lemma setWorker_idle_inv (s : Pool) (k w : nat) (ws X : WorkerState) :
  PoolInv pts s k -> workers s !! w = Some ws -> inFlight ws = None -> inFlight X = None ->
  PoolInv pts (setWorker w X s) k.
Proof.
  intros [Hq Hk Hlen Hfl Hdi Hfi Hpe Hpr] Hw Hidle HX.
  constructor; cbn; auto.
  - intros w' ws' i p Hl Hin.
    apply list_lookup_insert_Some in Hl as [(<- & <- & _) | [Hne Hl]]; [congruence | eauto].
  - intros w1 w2 ws1 ws2 i p1 p2 Hl1 Hl2 Hin1 Hin2.
    apply list_lookup_insert_Some in Hl1 as [(<- & <- & _) | [Hne1 Hl1]]; [congruence |].
    apply list_lookup_insert_Some in Hl2 as [(<- & <- & _) | [Hne2 Hl2]]; [congruence |].
    eauto.
  - intros i Hi Hnone. destruct (Hpe i Hi Hnone) as (w' & ws' & p & Hl & Hin).
    exists w', ws', p. split; [| exact Hin].
    rewrite list_lookup_insert_ne; [exact Hl |]. intros ->. congruence.
Qed.

Lemma restage_inv (s : Pool) (k w : nat) (ws X : WorkerState) (i : nat) (p : OSMPoint) :
  PoolInv pts s k -> workers s !! w = Some ws ->
  inFlight ws = Some (i, p) -> inFlight X = Some (i, p) ->
  PoolInv pts (setWorker w X s) k.
Proof.
  intros [Hq Hk Hlen Hfl Hdi Hfi Hpe Hpr] Hw Hin HX.
  constructor; cbn; auto.
  - intros w' ws' j q Hl Hj.
    apply list_lookup_insert_Some in Hl as [(<- & <- & _) | [Hne Hl]]; [| eauto].
    rewrite HX in Hj. injection Hj as <- <-. eauto.
  - intros w1 w2 ws1 ws2 j p1 p2 Hl1 Hl2 Hin1 Hin2.
    apply list_lookup_insert_Some in Hl1 as [(<- & <- & _) | [Hne1 Hl1]];
      apply list_lookup_insert_Some in Hl2 as [(<- & <- & _) | [Hne2 Hl2]]; auto.
    + rewrite HX in Hin1. injection Hin1 as <- <-. eauto.
    + rewrite HX in Hin2. injection Hin2 as <- <-. eauto.
    + eauto.
  - intros j Hj Hnone. destruct (Hpe j Hj Hnone) as (w' & ws' & q & Hl & Hin').
    destruct (decide (w' = w)) as [-> | Hne].
    + exists w, X, p. split.
      * apply list_lookup_insert_eq. now apply lookup_lt_Some in Hw.
      * rewrite Hw in Hl. injection Hl as <-. rewrite Hin in Hin'. injection Hin' as <- <-.
        exact HX.
    + exists w', ws', q. split; [| exact Hin']. now rewrite list_lookup_insert_ne.
Qed.

Lemma retire_inv (s : Pool) (k w : nat) (ws X : WorkerState) (i : nat) (p : OSMPoint)
    (a : AnalyzedPoint) :
  PoolInv pts s k -> workers s !! w = Some ws -> inFlight ws = Some (i, p) ->
  location a = p -> inFlight X = None ->
  PoolInv pts (setWorker w X (storeResult i a s)) k.
Proof.
  intros [Hq Hk Hlen Hfl Hdi Hfi Hpe Hpr] Hw Hin Hloc HX.
  destruct (Hfl _ _ _ _ Hw Hin) as (Hik & Hpi & Hri).
  assert (Hir : (i < length (results s))%nat) by now apply lookup_lt_Some in Hri.
  constructor; cbn; rewrite ?arraySet_in_range by exact Hir; auto.
  - now rewrite length_insert.
  - intros w' ws' j q Hl Hj.
    apply list_lookup_insert_Some in Hl as [(<- & <- & _) | [Hne Hl]]; [congruence |].
    destruct (Hfl _ _ _ _ Hl Hj) as (Hjk & Hpj & Hrj).
    split; [exact Hjk |]. split; [exact Hpj |].
    rewrite list_lookup_insert_ne; [exact Hrj |].
    intros ->. apply Hne. symmetry. eapply Hdi; eauto.
  - intros w1 w2 ws1 ws2 j p1 p2 Hl1 Hl2 Hin1 Hin2.
    apply list_lookup_insert_Some in Hl1 as [(<- & <- & _) | [Hne1 Hl1]]; [congruence |].
    apply list_lookup_insert_Some in Hl2 as [(<- & <- & _) | [Hne2 Hl2]]; [congruence |].
    eauto.
  - intros j b Hl.
    apply list_lookup_insert_Some in Hl as [(<- & Hb & _) | [Hne Hl]]; [| eauto].
    injection Hb as <-. split; [exact Hik |]. now rewrite Hloc.
  - intros j Hj Hnone.
    apply list_lookup_insert_Some in Hnone as [(<- & Hb & _) | [Hne Hnone]]; [discriminate |].
    destruct (Hpe j Hj Hnone) as (w' & ws' & q & Hl & Hin').
    exists w', ws', q. split; [| exact Hin'].
    rewrite list_lookup_insert_ne; [exact Hl |].
    intros ->. rewrite Hw in Hl. injection Hl as <-. congruence.
  - rewrite omap_insert_fresh by exact Hri. unfold finalPoints in Hpr. now rewrite Hpr.
Qed.
End PoolFacts.

Section PoolSteps.
Context `{FloatOps}.
Variable settings : Settings.
Variable pts : list OSMPoint.
Variable env : nat -> Responses.

Lemma claimNext_setWorker (w : nat) (X : WorkerState) (s : Pool) :
  claimNext w (setWorker w X s) = claimNext w s.
Proof.
  unfold claimNext, setWorker, addLog. cbn.
  destruct (isCancelled s); [now rewrite list_insert_insert_eq |].
  destruct (queue s) as [| [index point] rest]; cbn; now rewrite list_insert_insert_eq.
Qed.

Lemma claimNext_inv (s : Pool) (k w : nat) (ws : WorkerState) :
  PoolInv pts s k -> workers s !! w = Some ws -> inFlight ws = None ->
  exists k', (k <= k')%nat /\ PoolInv pts (claimNext w s) k'.
Proof.
  intros Hinv Hw Hidle. unfold claimNext.
  destruct (isCancelled s).
  { exists k. split; [lia |]. now apply setWorker_idle_inv with (ws := ws). }
  destruct (queue s) as [| [index point] rest] eqn:Hqueue.
  { exists k. split; [lia |]. now apply setWorker_idle_inv with (ws := ws). }
  destruct Hinv as [Hq Hk Hlen Hfl Hdi Hfi Hpe Hpr].
  rewrite Hqueue in Hq. symmetry in Hq.
  apply drop_entries_cons in Hq as (-> & Hpk & ->).
  assert (Hklt : (k < length pts)%nat) by now apply lookup_lt_Some in Hpk.
  assert (Hrk : results s !! k = Some None).
  { destruct (results s !! k) as [[a |] |] eqn:Hr.
    - apply Hfi in Hr. lia.
    - reflexivity.
    - apply lookup_ge_None in Hr. lia. }
  assert (Hwlt : (w < length (workers s))%nat) by now apply lookup_lt_Some in Hw.
  exists (S k). split; [lia |]. constructor; cbn; auto.
  - intros w' ws' i p Hl Hin.
    apply list_lookup_insert_Some in Hl as [(<- & <- & _) | [Hne Hl]].
    + injection Hin as <- <-. auto.
    + destruct (Hfl _ _ _ _ Hl Hin) as (? & ? & ?). auto with lia.
  - intros w1 w2 ws1 ws2 i p1 p2 Hl1 Hl2 Hin1 Hin2.
    apply list_lookup_insert_Some in Hl1 as [(<- & <- & _) | [Hne1 Hl1]];
      apply list_lookup_insert_Some in Hl2 as [(<- & <- & _) | [Hne2 Hl2]]; auto.
    + injection Hin1 as <- <-. destruct (Hfl _ _ _ _ Hl2 Hin2). lia.
    + injection Hin2 as <- <-. destruct (Hfl _ _ _ _ Hl1 Hin1). lia.
    + eauto.
  - intros i a Hr. destruct (Hfi _ _ Hr). auto with lia.
  - intros i Hi Hnone. destruct (decide (i = k)) as [-> | Hne].
    + exists w, (Fetching k point), point. split; [| reflexivity].
      now apply list_lookup_insert_eq.
    + destruct (Hpe i) as (w' & ws' & p & Hl & Hin); [lia | exact Hnone |].
      exists w', ws', p. split; [| exact Hin].
      rewrite list_lookup_insert_ne; [exact Hl |]. intros ->. congruence.
Qed.

(** A task that ends: its result is stored, then the worker takes the
    next entry or leaves. *)
Lemma finish_inv (s : Pool) (k w : nat) (ws : WorkerState) (i : nat) (p : OSMPoint)
    (a : AnalyzedPoint) :
  PoolInv pts s k -> workers s !! w = Some ws -> inFlight ws = Some (i, p) ->
  location a = p ->
  exists k', (k <= k')%nat /\ PoolInv pts (claimNext w (storeResult i a s)) k'.
Proof.
  intros Hinv Hw Hin Hloc.
  rewrite <- (claimNext_setWorker w Fulfilled).
  apply claimNext_inv with (ws := Fulfilled); [| | reflexivity].
  - now apply retire_inv with (ws := ws) (p := p).
  - cbn. apply list_lookup_insert_eq. now apply lookup_lt_Some in Hw.
Qed.

Lemma addLog_inv (s : Pool) (k : nat) (e : LogEntry) :
  PoolInv pts s k -> PoolInv pts (addLog e s) k.
Proof. intros []. constructor; auto. Qed.

Lemma cancel_inv (s : Pool) (k : nat) : PoolInv pts s k -> PoolInv pts (cancel s) k.
Proof. intros []. constructor; auto. Qed.

Lemma failTask_inv (s : Pool) (k w : nat) (ws : WorkerState) (i : nat) (p : OSMPoint)
    (url : string) (date : option string) (msg : string) :
  PoolInv pts s k -> workers s !! w = Some ws -> inFlight ws = Some (i, p) ->
  exists k', (k <= k')%nat /\ PoolInv pts (failTask pts w i p url date msg s) k'.
Proof.
  intros Hinv Hw Hin. unfold failTask.
  destruct (isFatalMessage msg).
  - exists k. split; [lia |].
    apply retire_inv with (ws := ws) (p := p); [| exact Hw | exact Hin | reflexivity ..].
    now apply cancel_inv, addLog_inv, addLog_inv.
  - apply finish_inv with (ws := ws) (p := p);
      [| destruct (Js.includes (Js.toLowerCase msg) "quota"); exact Hw
       | exact Hin | reflexivity].
    destruct (Js.includes (Js.toLowerCase msg) "quota"); now repeat apply addLog_inv.
Qed.

Lemma step_inv (s : Pool) (k : nat) (e : Event) :
  PoolInv pts s k -> exists k', (k <= k')%nat /\ PoolInv pts (step settings pts env s e) k'.
Proof.
  intros Hinv. destruct e as [w |]; cbn [step].
  - destruct (workers s !! w) as [[i p | i p url date | | msg] |] eqn:Hw;
      try (exists k; split; [lia | exact Hinv]).
    + unfold afterFetch. destruct (imageResult (env i)) as [b64 | err].
      * exists k. split; [lia |].
        destruct (metadataResult (env i)) as [d | err];
          (apply restage_inv with (ws := Fetching i p) (i := i) (p := p);
           [now repeat apply addLog_inv | exact Hw | reflexivity | reflexivity]).
      * now apply failTask_inv with (ws := Fetching i p).
    + unfold afterAnalysis. destruct (analysisCall (env i)) as [r | msg].
      * apply finish_inv with (ws := Detecting i p url date) (p := p);
          [| destruct (belowThreshold settings r); exact Hw | reflexivity | reflexivity].
        destruct (belowThreshold settings r); now repeat apply addLog_inv.
      * now apply failTask_inv with (ws := Detecting i p url date).
  - exists k. split; [lia |]. now apply cancel_inv, addLog_inv.
Qed.

Lemma startWorkers_inv (stopped : bool) (logs0 : list LogEntry) :
  exists k, PoolInv pts (startWorkers settings pts stopped logs0) k.
Proof.
  unfold startWorkers. set (n := Z.to_nat (concurrency settings)).
  set (s0 := mkPool (entries pts) (replicate (length pts) None) (replicate n Fulfilled)
                    stopped 0 logs0).
  assert (Hgen : forall m j s k,
             (j + m = n)%nat -> PoolInv pts s k -> length (workers s) = n ->
             (forall w, (j <= w < n)%nat -> workers s !! w = Some Fulfilled) ->
             exists k', PoolInv pts (foldl (fun s w => claimNext w s) s (seq j m)) k').
  { induction m as [| m IH]; intros j s k Hjm Hinv Hlen Hrest; cbn [seq foldl]; [eauto |].
    destruct (claimNext_inv s k j Fulfilled Hinv) as (k' & _ & Hinv'); [apply Hrest; lia | reflexivity |].
    apply (IH (S j) _ k'); [lia | exact Hinv' | |].
    - unfold claimNext. destruct (isCancelled s); cbn; [now rewrite length_insert |].
      destruct (queue s) as [| [? ?] ?]; cbn; now rewrite length_insert.
    - intros w Hwr. unfold claimNext. destruct (isCancelled s); cbn.
      + rewrite list_lookup_insert_ne by lia. apply Hrest. lia.
      + destruct (queue s) as [| [? ?] ?]; cbn; rewrite list_lookup_insert_ne by lia;
          apply Hrest; lia. }
  apply (Hgen n 0%nat s0 0%nat); [lia | | apply length_replicate |].
  - constructor; cbn.
    + reflexivity.
    + lia.
    + apply length_replicate.
    + intros w ws i p Hl. apply lookup_replicate in Hl as [-> _]. discriminate.
    + intros w1 w2 ws1 ws2 i p1 p2 Hl. apply lookup_replicate in Hl as [-> _]. discriminate.
    + intros i a Hl. apply lookup_replicate in Hl as [? _]. discriminate.
    + intros i Hi. lia.
    + unfold finalPoints. cbn. induction (length pts); [reflexivity | assumption].
  - intros w Hw. apply lookup_replicate_2. lia.
Qed.

Lemma poolAfter_inv (stopped : bool) (logs0 : list LogEntry) (schedule : list Event) :
  exists k, PoolInv pts (poolAfter settings pts env stopped logs0 schedule) k.
Proof.
  unfold poolAfter. destruct (startWorkers_inv stopped logs0) as [k0 H0].
  revert H0. generalize (startWorkers settings pts stopped logs0) as s. revert k0.
  induction schedule as [| e schedule IH]; intros k0 s Hs; cbn [foldl]; [eauto |].
  destruct (step_inv s k0 e Hs) as (k1 & _ & Hs1). eauto.
Qed.
End PoolSteps.

(** *** Slots are written once, and the compacted output *)

Lemma omap_prefix {A B} (f : A -> B) (k : nat) :
  forall (l : list (option A)) (t : list B),
    (k <= length t)%nat ->
    (forall i, (i < k)%nat -> exists a, l !! i = Some (Some a) /\ t !! i = Some (f a)) ->
    (forall i a, (k <= i)%nat -> l !! i <> Some (Some a)) ->
    f <$> omap (fun p => p) l = take k t.
Proof.
  induction k as [| k IH]; intros l t Hk Hlow Hhigh.
  - rewrite take_0.
    assert (Hnone : omap (fun p => p) l = []).
    { clear Hlow. induction l as [| x l IHl]; [reflexivity |].
      destruct x as [a |].
      - exfalso. apply (Hhigh 0%nat a); [lia | reflexivity].
      - simpl. apply IHl. intros i a Hi. apply (Hhigh (S i) a). lia. }
    now rewrite Hnone.
  - destruct (Hlow 0%nat) as (a & Hl0 & Ht0); [lia |].
    destruct l as [| x l]; [discriminate |]. destruct t as [| y t]; [discriminate |].
    cbn in Hl0, Ht0. injection Hl0 as ->. injection Ht0 as ->.
    simpl. f_equal. apply IH.
    + cbn in Hk. lia.
    + intros i Hi. apply (Hlow (S i)). lia.
    + intros i b Hi. apply (Hhigh (S i) b). lia.
Qed.

Section PoolOutput.
Context `{FloatOps}.
Variable settings : Settings.
Variable pts : list OSMPoint.
Variable env : nat -> Responses.

Lemma allSettled_no_flight (s : Pool) (w : nat) (ws : WorkerState) :
  allSettled s = true -> workers s !! w = Some ws -> inFlight ws = None.
Proof.
  unfold allSettled. rewrite forallb_forall. intros Hall Hw.
  apply inFlight_settled. apply Hall. apply list_elem_of_In.
  eapply list_elem_of_lookup_2. exact Hw.
Qed.

(** Once every worker has settled, the output is the results of the
    first [k] samples, in order. *)
Lemma settled_output (s : Pool) (k : nat) :
  PoolInv pts s k -> allSettled s = true ->
  location <$> finalPoints s = take k pts.
Proof.
  intros [Hq Hk Hlen Hfl Hdi Hfi Hpe Hpr] Hall. unfold finalPoints.
  apply omap_prefix; [exact Hk | |].
  - intros i Hi.
    destruct (results s !! i) as [[a |] |] eqn:Hr.
    + exists a. split; [reflexivity |]. now apply Hfi.
    + destruct (Hpe i Hi Hr) as (w & ws & p & Hw & Hin).
      rewrite (allSettled_no_flight s w ws Hall Hw) in Hin. discriminate.
    + apply lookup_ge_None in Hr. lia.
  - intros i a Hi Hr. apply Hfi in Hr. lia.
Qed.

Lemma claimNext_results (w : nat) (s : Pool) : results (claimNext w s) = results s.
Proof.
  unfold claimNext. destruct (isCancelled s); [reflexivity |].
  now destruct (queue s) as [| [? ?] ?].
Qed.

Lemma storeResult_keeps (s : Pool) (i j : nat) (a b : AnalyzedPoint) :
  results s !! i = Some None -> results s !! j = Some (Some b) ->
  results (storeResult i a s) !! j = Some (Some b).
Proof.
  intros Hi Hj. cbn. rewrite arraySet_in_range by now apply lookup_lt_Some in Hi.
  rewrite list_lookup_insert_ne; [exact Hj |]. intros ->. congruence.
Qed.

Lemma failTask_keeps (s : Pool) (w i j : nat) (p : OSMPoint) (url : string)
    (date : option string) (msg : string) (b : AnalyzedPoint) :
  results s !! i = Some None -> results s !! j = Some (Some b) ->
  results (failTask pts w i p url date msg s) !! j = Some (Some b).
Proof.
  intros Hi Hj. unfold failTask. destruct (isFatalMessage msg).
  - cbn [setWorker results]. now apply storeResult_keeps.
  - rewrite claimNext_results.
    destruct (Js.includes (Js.toLowerCase msg) "quota"); now apply storeResult_keeps.
Qed.

(** A slot that holds a result keeps it. *)
Lemma step_keeps_results (s : Pool) (k : nat) (e : Event) (j : nat) (b : AnalyzedPoint) :
  PoolInv pts s k -> results s !! j = Some (Some b) ->
  results (step settings pts env s e) !! j = Some (Some b).
Proof.
  intros Hinv Hj. destruct e as [w |]; cbn [step]; [| exact Hj].
  destruct (workers s !! w) as [[i p | i p url date | | msg] |] eqn:Hw; try exact Hj.
  - destruct (inv_flight _ _ _ Hinv w _ i p Hw eq_refl) as (_ & _ & Hi).
    unfold afterFetch. destruct (imageResult (env i)) as [b64 | err].
    + now destruct (metadataResult (env i)).
    + now apply failTask_keeps.
  - destruct (inv_flight _ _ _ Hinv w _ i p Hw eq_refl) as (_ & _ & Hi).
    unfold afterAnalysis. destruct (analysisCall (env i)) as [r | msg].
    + rewrite claimNext_results.
      destruct (belowThreshold settings r); now apply storeResult_keeps.
    + now apply failTask_keeps.
Qed.

(** [awaitAll] returns the state reached by a prefix of the schedule, the
    first one in which every worker has settled. *)
Lemma awaitAll_reaches (schedule : list Event) (s s' : Pool) :
  awaitAll settings pts env schedule s = Ok s' ->
  allSettled s' = true
  /\ exists served, served `prefix_of` schedule
                    /\ s' = foldl (step settings pts env) s served.
Proof.
  revert s. induction schedule as [| e schedule IH]; intros s; cbn [awaitAll].
  - destruct (allSettled s) eqn:Hall; [| discriminate].
    intros [= <-]. split; [exact Hall |]. exists []. split; [reflexivity | reflexivity].
  - destruct (allSettled s) eqn:Hall.
    + intros [= <-]. split; [exact Hall |]. exists []. split; [apply prefix_nil | reflexivity].
    + intros Hr. destruct (IH _ Hr) as (Hs' & served & Hpre & ->).
      split; [exact Hs' |]. exists (e :: served). split; [now apply prefix_cons | reflexivity].
Qed.

Lemma awaitAll_inv (stopped : bool) (logs0 : list LogEntry) (schedule : list Event)
    (s' : Pool) :
  awaitAll settings pts env schedule (startWorkers settings pts stopped logs0) = Ok s' ->
  allSettled s' = true /\ exists k, PoolInv pts s' k.
Proof.
  intros Hr. apply awaitAll_reaches in Hr as (Hall & served & _ & ->).
  split; [exact Hall |]. apply (poolAfter_inv settings pts env stopped logs0 served).
Qed.
End PoolOutput.

Lemma totalWeight_insert (l : list WorkerState) (w : nat) (old new : WorkerState) :
  l !! w = Some old ->
  (totalWeight (<[w := new]> l) + weight old = totalWeight l + weight new)%nat.
Proof.
  revert w. induction l as [| x l IH]; intros w Hw; [discriminate |].
  destruct w as [| w]; simpl in *.
  - injection Hw as ->. lia.
  - specialize (IH _ Hw). lia.
Qed.

Section PoolProgress.
Context `{FloatOps}.
Variable settings : Settings.
Variable pts : list OSMPoint.
Variable env : nat -> Responses.

Lemma claimNext_quiescent (P : nat -> Prop) (w : nat) (s : Pool) :
  QuiescentOn P s -> QuiescentOn (fun w' => P w' \/ w' = w) (claimNext w s).
Proof.
  intros HQ w' ws HP Hw' Hidle. unfold claimNext in *.
  destruct (isCancelled s) eqn:Hc; [left; exact Hc |].
  destruct (queue s) as [| [index point] rest] eqn:Hq; [right; exact Hq |].
  cbn in Hw'. exfalso.
  apply list_lookup_insert_Some in Hw' as [(<- & <- & _) | [Hne Hw']]; [discriminate |].
  destruct HP as [HP | ->]; [| congruence].
  destruct (HQ w' ws HP Hw' Hidle); congruence.
Qed.

Lemma quiescent_weaken (P P' : nat -> Prop) (s : Pool) :
  (forall w, P' w -> P w) -> QuiescentOn P s -> QuiescentOn P' s.
Proof. intros Himp HQ w ws HP. apply HQ. auto. Qed.

Lemma claimNext_after_store_quiescent (s s' : Pool) (w : nat) :
  Quiescent s -> workers s' = workers s -> queue s' = queue s ->
  isCancelled s' = isCancelled s ->
  Quiescent (claimNext w s').
Proof.
  intros HQ Hws Hq Hc.
  apply quiescent_weaken with (P := fun w' => w' <> w \/ w' = w).
  { intros w' _. destruct (decide (w' = w)); auto. }
  apply claimNext_quiescent.
  intros w' ws Hne Hw' Hidle. rewrite Hq, Hc. rewrite Hws in Hw'. eapply HQ; eauto.
Qed.

Lemma failTask_quiescent (s : Pool) (w i : nat) (p : OSMPoint) (url : string)
    (date : option string) (msg : string) :
  Quiescent s -> Quiescent (failTask pts w i p url date msg s).
Proof.
  intros HQ. unfold failTask. destruct (isFatalMessage msg).
  - intros w' ws _ _ _. left. reflexivity.
  - apply claimNext_after_store_quiescent with (s := s); [exact HQ | ..];
      now destruct (Js.includes (Js.toLowerCase msg) "quota").
Qed.

Lemma step_quiescent (s : Pool) (e : Event) :
  Quiescent s -> Quiescent (step settings pts env s e).
Proof.
  intros HQ. destruct e as [w |]; cbn [step].
  - destruct (workers s !! w) as [[i p | i p url date | | msg] |] eqn:Hw; try exact HQ.
    + unfold afterFetch. destruct (imageResult (env i)) as [b64 | err].
      * intros w' ws _ Hw' Hidle.
        assert (Hold : workers s !! w' = Some ws).
        { destruct (metadataResult (env i)); cbn in Hw';
            apply list_lookup_insert_Some in Hw' as [(<- & <- & _) | [Hne Hw']];
            (discriminate || exact Hw'). }
        destruct (metadataResult (env i)); cbn; eapply HQ; eauto.
      * now apply failTask_quiescent.
    + unfold afterAnalysis. destruct (analysisCall (env i)) as [r | msg].
      * apply claimNext_after_store_quiescent with (s := s); [exact HQ | ..];
          now destruct (belowThreshold settings r).
      * now apply failTask_quiescent.
  - intros w' ws _ _ _. left. reflexivity.
Qed.

Lemma claimNext_workers_length (w : nat) (s : Pool) :
  length (workers (claimNext w s)) = length (workers s).
Proof.
  unfold claimNext. destruct (isCancelled s); cbn; [now rewrite length_insert |].
  destruct (queue s) as [| [? ?] ?]; cbn; now rewrite length_insert.
Qed.

Lemma failTask_workers_length (s : Pool) (w i : nat) (p : OSMPoint) (url : string)
    (date : option string) (msg : string) :
  length (workers (failTask pts w i p url date msg s)) = length (workers s).
Proof.
  unfold failTask. destruct (isFatalMessage msg).
  - cbn. now rewrite length_insert.
  - rewrite claimNext_workers_length.
    now destruct (Js.includes (Js.toLowerCase msg) "quota").
Qed.

Lemma step_workers_length (s : Pool) (e : Event) :
  length (workers (step settings pts env s e)) = length (workers s).
Proof.
  destruct e as [w |]; cbn [step]; [| reflexivity].
  destruct (workers s !! w) as [[i p | i p url date | | msg] |]; try reflexivity.
  - unfold afterFetch. destruct (imageResult (env i)) as [b64 | err].
    + destruct (metadataResult (env i)); cbn; now rewrite length_insert.
    + apply failTask_workers_length.
  - unfold afterAnalysis. destruct (analysisCall (env i)) as [r | msg].
    + rewrite claimNext_workers_length. now destruct (belowThreshold settings r).
    + apply failTask_workers_length.
Qed.

Lemma startWorkers_quiescent (stopped : bool) (logs0 : list LogEntry) :
  Quiescent (startWorkers settings pts stopped logs0)
  /\ length (workers (startWorkers settings pts stopped logs0)) = Z.to_nat (concurrency settings).
Proof.
  unfold startWorkers. generalize (Z.to_nat (concurrency settings)) as n. intros n.
  set (s0 := mkPool _ _ _ _ _ _).
  assert (Hgen : forall m j s,
             (j + m = n)%nat -> QuiescentOn (fun w => (w < j)%nat) s ->
             length (workers s) = n ->
             QuiescentOn (fun w => (w < n)%nat)
                         (foldl (fun s w => claimNext w s) s (seq j m))
             /\ length (workers (foldl (fun s w => claimNext w s) s (seq j m))) = n).
  { induction m as [| m IH]; intros j s Hjm HQ Hlen; cbn [seq foldl].
    - assert (j = n) as -> by lia. auto.
    - apply IH; [lia | | now rewrite claimNext_workers_length].
      apply quiescent_weaken with (P := fun w' => (w' < j)%nat \/ w' = j).
      + intros w Hw. lia.
      + now apply claimNext_quiescent. }
  destruct (Hgen n 0%nat s0) as [HQ Hlen]; [lia | | apply length_replicate |].
  - intros w ws Hw. lia.
  - split; [| exact Hlen].
    intros w ws _ Hw. apply (HQ w ws); [| exact Hw].
    apply lookup_lt_Some in Hw. lia.
Qed.

Lemma poolAfter_quiescent (stopped : bool) (logs0 : list LogEntry) (schedule : list Event) :
  let s := poolAfter settings pts env stopped logs0 schedule in
  Quiescent s /\ length (workers s) = Z.to_nat (concurrency settings).
Proof.
  unfold poolAfter. destruct (startWorkers_quiescent stopped logs0) as [HQ Hlen].
  revert HQ Hlen. generalize (startWorkers settings pts stopped logs0) as s.
  induction schedule as [| e schedule IH]; intros s HQ Hlen; cbn [foldl]; [auto |].
  apply IH; [now apply step_quiescent | now rewrite step_workers_length].
Qed.

(** A run that ends without cancellation has emptied the queue. *)
Lemma settled_uncancelled_drained (s : Pool) :
  Quiescent s -> (0 < length (workers s))%nat -> allSettled s = true ->
  isCancelled s = false -> queue s = [].
Proof.
  intros HQ Hlen Hall Hc.
  destruct (workers s) as [| ws l] eqn:Hws; [cbn in Hlen; lia |].
  destruct (HQ 0%nat ws I) as [Hcc | Hq]; [now rewrite Hws | | congruence | exact Hq].
  apply (allSettled_no_flight s 0%nat ws Hall). now rewrite Hws.
Qed.
End PoolProgress.

Section PoolTermination.
Context `{FloatOps}.
Variable settings : Settings.
Variable pts : list OSMPoint.
Variable env : nat -> Responses.

Lemma setWorker_workLeft (s : Pool) (w : nat) (ws X : WorkerState) :
  workers s !! w = Some ws ->
  (workLeft (setWorker w X s) + weight ws = workLeft s + weight X)%nat.
Proof.
  intros Hw. unfold workLeft, setWorker. cbn [queue workers].
  pose proof (totalWeight_insert _ _ _ X Hw). lia.
Qed.

Lemma claimNext_workLeft (s : Pool) (w : nat) (ws : WorkerState) :
  workers s !! w = Some ws -> (workLeft (claimNext w s) + weight ws <= workLeft s)%nat.
Proof.
  intros Hw. unfold claimNext.
  destruct (isCancelled s).
  { pose proof (setWorker_workLeft s w ws Fulfilled Hw). cbn [weight] in *. lia. }
  destruct (queue s) as [| [index point] rest] eqn:Hq.
  - pose proof (setWorker_workLeft s w ws Fulfilled Hw). cbn [weight] in *. lia.
  - match goal with
    | |- (workLeft (setWorker w ?X ?s') + _ <= _)%nat =>
        pose proof (setWorker_workLeft s' w ws X Hw) as Hs;
        assert (Hl : (workLeft s' + 3 = workLeft s)%nat)
          by (unfold workLeft; cbn [queue workers addLog]; rewrite Hq; cbn [length]; lia)
    end.
    cbn [weight] in *. lia.
Qed.

Lemma failTask_workLeft (s : Pool) (w i : nat) (ws : WorkerState) (p : OSMPoint)
    (url : string) (date : option string) (msg : string) :
  workers s !! w = Some ws ->
  (workLeft (failTask pts w i p url date msg s) + weight ws <= workLeft s)%nat.
Proof.
  intros Hw. unfold failTask. destruct (isFatalMessage msg).
  - match goal with
    | |- (workLeft (setWorker w ?X ?s') + _ <= _)%nat =>
        pose proof (setWorker_workLeft s' w ws X Hw) as Hs;
        assert (Hl : workLeft s' = workLeft s) by reflexivity
    end.
    cbn [weight] in *. lia.
  - match goal with
    | |- (workLeft (claimNext w ?s') + _ <= _)%nat =>
        pose proof (claimNext_workLeft s' w ws) as Hs;
        assert (Hl : workLeft s' = workLeft s)
          by (destruct (Js.includes (Js.toLowerCase msg) "quota"); reflexivity)
    end.
    rewrite <- Hl. apply Hs.
    destruct (Js.includes (Js.toLowerCase msg) "quota"); exact Hw.
Qed.

Lemma step_workLeft (s : Pool) (w : nat) (ws : WorkerState) :
  workers s !! w = Some ws -> settled ws = false ->
  (workLeft (step settings pts env s (Resume w)) < workLeft s)%nat.
Proof.
  intros Hw Hs. cbn [step]. rewrite Hw.
  destruct ws as [i p | i p url date | | msg]; try discriminate.
  - unfold afterFetch. destruct (imageResult (env i)) as [b64 | err].
    + destruct (metadataResult (env i));
        match goal with
        | |- (workLeft (setWorker w ?X ?s') < _)%nat =>
            pose proof (setWorker_workLeft s' w _ X Hw) as Hs';
            assert (Hl : workLeft s' = workLeft s) by reflexivity
        end; cbn [weight] in *; lia.
    + pose proof (failTask_workLeft s w i _ p placeholderImage None err Hw) as Hf.
      cbn [weight] in Hf. lia.
  - unfold afterAnalysis. destruct (analysisCall (env i)) as [r | msg].
    + match goal with
      | |- (workLeft (claimNext w ?s') < _)%nat =>
          pose proof (claimNext_workLeft s' w (Detecting i p url date)) as Hc;
          assert (Hl : workLeft s' = workLeft s)
            by (destruct (belowThreshold settings r); reflexivity);
          assert (Hw' : workers s' !! w = Some (Detecting i p url date))
            by (destruct (belowThreshold settings r); exact Hw)
      end.
      specialize (Hc Hw'). cbn [weight] in Hc. lia.
    + pose proof (failTask_workLeft s w i _ p url date msg Hw) as Hf.
      cbn [weight] in Hf. lia.
Qed.

Lemma unsettled_worker (s : Pool) :
  allSettled s = false ->
  exists w ws, workers s !! w = Some ws /\ settled ws = false.
Proof.
  unfold allSettled. induction (workers s) as [| x l IH]; [discriminate |].
  cbn. destruct (settled x) eqn:Hx; cbn.
  - intros Hl. destruct (IH Hl) as (w & ws & Hw & Hs). exists (S w), ws. auto.
  - intros _. exists 0%nat, x. auto.
Qed.

(** The handler does not wait for ever: some order of resumption
    settles every worker. *)
Lemma awaitAll_terminates (s : Pool) :
  exists schedule s', awaitAll settings pts env schedule s = Ok s'.
Proof.
  remember (workLeft s) as n eqn:Hn.
  revert s Hn. induction n as [n IH] using lt_wf_ind. intros s Hn.
  destruct (allSettled s) eqn:Hall.
  - exists [], s. cbn. now rewrite Hall.
  - destruct (unsettled_worker s Hall) as (w & ws & Hw & Hs).
    pose proof (step_workLeft s w ws Hw Hs) as Hlt.
    destruct (IH (workLeft (step settings pts env s (Resume w)))
                ltac:(lia) _ eq_refl) as (schedule & s' & Hr).
    exists (Resume w :: schedule), s'. cbn [awaitAll]. now rewrite Hall.
Qed.
End PoolTermination.

(** ** The pipeline *)

Section PipelineFacts.
Context `{FloatOps}.
Variable settings : Settings.

Lemma lookup_fmap_location (l : list AnalyzedPoint) (t : list OSMPoint) (i : nat)
    (a : AnalyzedPoint) :
  location <$> l = t -> l !! i = Some a -> t !! i = Some (location a).
Proof. intros <- Hl. now rewrite list_lookup_fmap, Hl. Qed.

(** The form keeps [maxPoints] within 1..1000 and [concurrency] within
    1..20. *)
Lemma form_bounds (parsed : option Z) :
  1 <= maxPointsFromInput parsed <= 1000 /\ 1 <= concurrencyFromInput parsed <= 20.
Proof. unfold maxPointsFromInput, concurrencyFromInput. lia. Qed.

Lemma capSamples_take (samples : list OSMPoint) :
  0 <= maxPoints settings ->
  capSamples settings samples = take (Z.to_nat (maxPoints settings)) samples.
Proof.
  intros Hmax. unfold capSamples, Js.slice0.
  destruct (maxPoints settings <? Z.of_nat (length samples)) eqn:Hlt.
  - now rewrite (proj2 (Z.ltb_ge _ _) Hmax).
  - apply Z.ltb_ge in Hlt. rewrite take_ge; [reflexivity | lia].
Qed.

Section Run.
Variable pts : list OSMPoint.
Variable env : nat -> Responses.

Lemma storeResult_stored (P : AnalyzedPoint -> Prop) (s : Pool) (i : nat) (a : AnalyzedPoint) :
  results s !! i = Some None -> P a -> Stored P s -> Stored P (storeResult i a s).
Proof.
  intros Hi Ha Hs j b. cbn. rewrite arraySet_in_range by now apply lookup_lt_Some in Hi.
  intros Hj. apply list_lookup_insert_Some in Hj as [(_ & Hb & _) | [_ Hj]].
  - injection Hb as <-. exact Ha.
  - now apply (Hs j).
Qed.

Lemma failTask_stored (s : Pool) (w i : nat) (p : OSMPoint) (url : string)
    (date : option string) (msg : string) :
  results s !! i = Some None -> Stored (Classified settings) s ->
  Stored (Classified settings) (failTask pts w i p url date msg s).
Proof.
  intros Hi Hs.
  assert (Hp : Classified settings (mkAnalyzed (pointId p) p (speed p) None None false url
                             (forwardHeading pts i p) (wayId p) date)).
  { repeat split. cbn. now rewrite classify_without_detection. }
  unfold failTask. destruct (isFatalMessage msg).
  - intros j b. cbn [setWorker results]. now apply storeResult_stored.
  - intros j b. rewrite claimNext_results.
    destruct (Js.includes (Js.toLowerCase msg) "quota"); now apply storeResult_stored.
Qed.

Lemma step_stored (s : Pool) (k : nat) (e : Event) :
  PoolInv pts s k -> Stored (Classified settings) s -> Stored (Classified settings) (step settings pts env s e).
Proof.
  intros Hinv Hs. destruct e as [w |]; cbn [step]; [| exact Hs].
  destruct (workers s !! w) as [[i p | i p url date | | msg] |] eqn:Hw; try exact Hs.
  - destruct (inv_flight _ _ _ Hinv w _ i p Hw eq_refl) as (_ & _ & Hi).
    unfold afterFetch. destruct (imageResult (env i)) as [b64 | err].
    + now destruct (metadataResult (env i)).
    + now apply failTask_stored.
  - destruct (inv_flight _ _ _ Hinv w _ i p Hw eq_refl) as (_ & _ & Hi).
    unfold afterAnalysis. destruct (analysisCall (env i)) as [r | msg].
    + intros j b. rewrite claimNext_results.
      destruct (belowThreshold settings r); apply storeResult_stored; auto;
        repeat split.
    + now apply failTask_stored.
Qed.

(** Every result written during a run carries the tag and way id of its
    sample and the flag computed by [classify] from the two speeds it
    records. *)
Lemma stored_results_classified (stopped : bool) (logs0 : list LogEntry)
    (schedule : list Event) :
  Stored (Classified settings) (poolAfter settings pts env stopped logs0 schedule).
Proof.
  unfold poolAfter.
  destruct (startWorkers_inv settings pts stopped logs0) as [k0 H0].
  assert (Hs0 : Stored (Classified settings) (startWorkers settings pts stopped logs0)).
  { assert (Hres : results (startWorkers settings pts stopped logs0)
                   = replicate (length pts) None).
    { unfold startWorkers. generalize (Z.to_nat (concurrency settings)) as n. intros n.
      generalize 0%nat at 2 as j.
      set (s0 := mkPool _ _ _ _ _ _).
      assert (Hs0 : results s0 = replicate (length pts) None) by reflexivity.
      revert Hs0. generalize s0 as s. clear s0.
      induction n as [| n IH]; intros s Hs j; cbn [seq foldl]; [exact Hs |].
      apply IH. now rewrite claimNext_results. }
    intros i a Hr. rewrite Hres in Hr. apply lookup_replicate in Hr as [Hr _].
    discriminate. }
  revert H0 Hs0. generalize (startWorkers settings pts stopped logs0) as s. revert k0.
  induction schedule as [| e schedule IH]; intros k0 s Hinv Hs; cbn [foldl]; [exact Hs |].
  destruct (step_inv settings pts env s k0 e Hinv) as (k1 & _ & Hinv1).
  apply (IH k1); [exact Hinv1 | now apply step_stored with (k := k0)].
Qed.

(** A fatal failure marks the run cancelled and takes nothing from the
    queue. *)
Lemma fatal_failure_cancels (s : Pool) (w i : nat) (p : OSMPoint) (url : string)
    (date : option string) (msg : string) :
  isFatalMessage msg = true ->
  isCancelled (failTask pts w i p url date msg s) = true
  /\ queue (failTask pts w i p url date msg s) = queue s.
Proof. intros Hfatal. unfold failTask. rewrite Hfatal. split; reflexivity. Qed.

Lemma claimNext_when_cancelled (w : nat) (s : Pool) :
  isCancelled s = true ->
  isCancelled (claimNext w s) = true /\ queue (claimNext w s) = queue s.
Proof. intros Hc. unfold claimNext. rewrite Hc. split; [exact Hc | reflexivity]. Qed.

Lemma failTask_when_cancelled (s : Pool) (w i : nat) (p : OSMPoint) (url : string)
    (date : option string) (msg : string) :
  isCancelled s = true ->
  isCancelled (failTask pts w i p url date msg s) = true
  /\ queue (failTask pts w i p url date msg s) = queue s.
Proof.
  intros Hc. unfold failTask. destruct (isFatalMessage msg); [split; reflexivity |].
  match goal with
  | |- isCancelled (claimNext w ?s') = true /\ _ =>
      destruct (claimNext_when_cancelled w s') as [Hc' Hq'];
      [destruct (Js.includes (Js.toLowerCase msg) "quota"); exact Hc |]
  end.
  split; [exact Hc' |]. rewrite Hq'.
  now destruct (Js.includes (Js.toLowerCase msg) "quota").
Qed.

(** Once the run is cancelled it stays so, and no entry leaves the queue:
    no new task is dispatched. *)
Lemma cancelled_stops_dispatch (s : Pool) (e : Event) :
  isCancelled s = true ->
  isCancelled (step settings pts env s e) = true
  /\ queue (step settings pts env s e) = queue s.
Proof.
  intros Hc. destruct e as [w |]; cbn [step]; [| split; reflexivity].
  destruct (workers s !! w) as [[i p | i p url date | | msg] |]; try (split; [exact Hc | reflexivity]).
  - unfold afterFetch. destruct (imageResult (env i)) as [b64 | err].
    + destruct (metadataResult (env i)); split; (exact Hc || reflexivity).
    + now apply failTask_when_cancelled.
  - unfold afterAnalysis. destruct (analysisCall (env i)) as [r | msg].
    + match goal with
      | |- isCancelled (claimNext w ?s') = true /\ _ =>
          destruct (claimNext_when_cancelled w s') as [Hc' Hq'];
          [destruct (belowThreshold settings r); exact Hc |]
      end.
      split; [exact Hc' |]. rewrite Hq'. now destruct (belowThreshold settings r).
    + now apply failTask_when_cancelled.
Qed.

Lemma claimNext_progress (w : nat) (s : Pool) : progress (claimNext w s) = progress s.
Proof.
  unfold claimNext. destruct (isCancelled s); [reflexivity |].
  now destruct (queue s) as [| [? ?] ?].
Qed.

(** The [finally] block writes the slot of the task and counts it. *)
Lemma storeResult_writes (s : Pool) (i : nat) (a : AnalyzedPoint) :
  results s !! i = Some None ->
  results (storeResult i a s) !! i = Some (Some a)
  /\ progress (storeResult i a s) = S (progress s).
Proof.
  intros Hi. split; [| reflexivity]. cbn.
  rewrite arraySet_in_range by now apply lookup_lt_Some in Hi.
  apply list_lookup_insert_eq. now apply lookup_lt_Some in Hi.
Qed.

Lemma failTask_writes (s : Pool) (w i : nat) (p : OSMPoint) (url : string)
    (date : option string) (msg : string) :
  results s !! i = Some None ->
  exists a, results (failTask pts w i p url date msg s) !! i = Some (Some a)
            /\ location a = p
            /\ progress (failTask pts w i p url date msg s) = S (progress s).
Proof.
  intros Hi. unfold failTask. eexists. destruct (isFatalMessage msg).
  - cbn [setWorker results progress].
    split; [now apply storeResult_writes | split; reflexivity].
  - rewrite claimNext_results, claimNext_progress.
    destruct (Js.includes (Js.toLowerCase msg) "quota");
      (split; [now apply storeResult_writes | split; reflexivity]).
Qed.

(** A worker that leaves its task writes the slot of the task, which was
    empty, and counts it; a worker that goes on to the detection writes
    nothing. *)
Lemma step_writes (s : Pool) (k w : nat) (ws : WorkerState) (i : nat) (p : OSMPoint) :
  PoolInv pts s k -> workers s !! w = Some ws -> inFlight ws = Some (i, p) ->
  let s1 := step settings pts env s (Resume w) in
  results s !! i = Some None
  /\ ((exists a, results s1 !! i = Some (Some a) /\ location a = p
                 /\ progress s1 = S (progress s))
      \/ (exists url date, ws = Fetching i p /\ workers s1 !! w = Some (Detecting i p url date)
                           /\ results s1 = results s /\ progress s1 = progress s)).
Proof.
  intros Hinv Hw Hin. cbn zeta.
  destruct (inv_flight _ _ _ Hinv w ws i p Hw Hin) as (_ & _ & Hi).
  split; [exact Hi |]. cbn [step]. rewrite Hw.
  destruct ws as [i' p' | i' p' url date | | msg]; cbn in Hin; try discriminate;
    injection Hin as -> ->.
  - unfold afterFetch. destruct (imageResult (env i)) as [b64 | err].
    + right. assert (Hlt : (w < length (workers s))%nat) by now apply lookup_lt_Some in Hw.
      destruct (metadataResult (env i)); do 2 eexists; cbn [setWorker addLog workers results progress];
        (split; [reflexivity |]); (split; [now apply list_lookup_insert_eq |]); split; reflexivity.
    + left. now apply failTask_writes.
  - left. unfold afterAnalysis. destruct (analysisCall (env i)) as [r | msg].
    + eexists. rewrite claimNext_results, claimNext_progress.
      split; [apply storeResult_writes; now destruct (belowThreshold settings r) |].
      split; [reflexivity |]. cbn [storeResult addLog progress].
      now destruct (belowThreshold settings r).
    + now apply failTask_writes.
Qed.

Lemma inv_dispatched (s : Pool) (k : nat) :
  PoolInv pts s k -> k = (length pts - length (queue s))%nat.
Proof.
  intros Hinv. rewrite (inv_queue _ _ _ Hinv), length_drop, length_entries.
  pose proof (inv_k _ _ _ Hinv). lia.
Qed.

(** C2: whatever the order in which the workers resume, a worker that
    leaves a task writes its result into the slot of the index of the
    task, which was empty until then, and counts it; a worker that goes on
    from the image to the detection writes nothing.  In every state the
    pool goes through, each task taken from the queue is either held by a
    worker or has its slot written, no other slot is written, a written
    slot holds the result of the sample of the same index and keeps it,
    and the number of completed tasks is the number of written slots, so
    no slot is written twice.  The array handed over once all workers have
    settled has, at each index, the result of the sample of that index: it
    is the results of the samples taken from the queue, and of all samples
    when the run was not cancelled. *)
Theorem results_follow_sample_order (stopped : bool) (logs0 : list LogEntry)
    (schedule : list Event) :
  let s := poolAfter settings pts env stopped logs0 schedule in
  let taken := fun t : Pool => (length pts - length (queue t))%nat in
  length (results s) = length pts
  /\ (forall i a, results s !! i = Some (Some a) -> pts !! i = Some (location a))
  /\ (forall e i a, results s !! i = Some (Some a) ->
                    results (step settings pts env s e) !! i = Some (Some a))
  /\ progress s = length (finalPoints s)
  /\ (allSettled s = true ->
      forall i a, finalPoints s !! i = Some a -> pts !! i = Some (location a))
  /\ (forall s',
        awaitAll settings pts env schedule (startWorkers settings pts stopped logs0) = Ok s' ->
        forall i a, finalPoints s' !! i = Some a -> pts !! i = Some (location a))
  /\ (forall w ws i p,
        workers s !! w = Some ws -> inFlight ws = Some (i, p) ->
        let s1 := step settings pts env s (Resume w) in
        pts !! i = Some p /\ results s !! i = Some None
        /\ ((exists a, results s1 !! i = Some (Some a) /\ location a = p
                       /\ progress s1 = S (progress s))
            \/ (exists url date,
                  ws = Fetching i p /\ workers s1 !! w = Some (Detecting i p url date)
                  /\ results s1 = results s /\ progress s1 = progress s)))
  /\ (forall i, (i < taken s)%nat ->
        (exists a, results s !! i = Some (Some a))
        \/ (exists w ws p, workers s !! w = Some ws /\ inFlight ws = Some (i, p)))
  /\ (forall i a, results s !! i = Some (Some a) -> (i < taken s)%nat)
  /\ (forall s',
        awaitAll settings pts env schedule (startWorkers settings pts stopped logs0) = Ok s' ->
        location <$> finalPoints s' = take (taken s') pts
        /\ progress s' = taken s'
        /\ (0 < concurrency settings -> isCancelled s' = false ->
            location <$> finalPoints s' = pts)).
Proof.
  cbn zeta. destruct (poolAfter_inv settings pts env stopped logs0 schedule) as [k Hinv].
  split; [apply (inv_len _ _ _ Hinv) |].
  split; [intros i a Hr; now apply (inv_filled _ _ _ Hinv) |].
  split; [intros e i a; now apply step_keeps_results with (k := k) |].
  split; [apply (inv_progress _ _ _ Hinv) |].
  split.
  { intros Hall i a Hf.
    pose proof (settled_output pts _ k Hinv Hall) as Hout.
    pose proof (lookup_fmap_location _ _ _ _ Hout Hf) as Ht.
    now apply lookup_take_Some in Ht as [Ht _]. }
  split.
  { intros s' Hr i a Hf.
    apply awaitAll_inv in Hr as (Hall & k' & Hinv').
    pose proof (settled_output pts _ k' Hinv' Hall) as Hout.
    pose proof (lookup_fmap_location _ _ _ _ Hout Hf) as Ht.
    now apply lookup_take_Some in Ht as [Ht _]. }
  split.
  { intros w ws i p Hw Hin.
    destruct (inv_flight _ _ _ Hinv w ws i p Hw Hin) as (_ & Hp & _).
    split; [exact Hp |]. exact (step_writes _ k w ws i p Hinv Hw Hin). }
  split.
  { intros i Hi. rewrite <- (inv_dispatched _ _ Hinv) in Hi.
    destruct (results _ !! i) as [[a |] |] eqn:Hr.
    - left. eauto.
    - right. exact (inv_pending _ _ _ Hinv i Hi Hr).
    - apply lookup_ge_None in Hr. rewrite (inv_len _ _ _ Hinv) in Hr.
      pose proof (inv_k _ _ _ Hinv). lia. }
  split.
  { intros i a Hr. rewrite <- (inv_dispatched _ _ Hinv).
    now apply (inv_filled _ _ _ Hinv) in Hr as [Hr _]. }
  intros s' Hr.
  pose proof Hr as Hr'. apply awaitAll_inv in Hr' as (Hall & k' & Hinv').
  pose proof (settled_output pts _ k' Hinv' Hall) as Hout.
  rewrite <- (inv_dispatched _ _ Hinv').
  split; [exact Hout |].
  split.
  { rewrite (inv_progress _ _ _ Hinv'), <- (length_fmap location), Hout, length_take.
    pose proof (inv_k _ _ _ Hinv'). lia. }
  intros Hconc Hc.
  apply awaitAll_reaches in Hr as (_ & served & _ & Hs').
  destruct (poolAfter_quiescent settings pts env stopped logs0 served) as [HQ Hlen].
  unfold poolAfter in HQ, Hlen. rewrite <- Hs' in HQ, Hlen.
  assert (Hq : queue s' = []).
  { apply settled_uncancelled_drained; [exact HQ | rewrite Hlen; lia | exact Hall | exact Hc]. }
  rewrite Hout, (inv_dispatched _ _ Hinv'), Hq. cbn [length].
  rewrite Nat.sub_0_r. apply firstn_all.
Qed.
End Run.

(** No failure of a worker reaches the error state of the handler. *)
Lemma worker_errors_never_surface (samples : list OSMPoint) (stopped : bool)
    (logs3 : list LogEntry)
    (env : nat -> Responses) (schedule : list Event) (app : AppState) :
  analyzeSamples settings samples stopped logs3 env schedule = Ok app ->
  error app = None /\ isKeyInvalid app = false.
Proof.
  unfold analyzeSamples.
  destruct (length (capSamples settings samples) =? 0)%nat; [now intros [= <-] |].
  destruct (awaitAll _ _ _ _ _); cbn; [| discriminate ..].
  now intros [= <-].
Qed.

(** For some order of resumption the second half of the handler
    returns. *)
Lemma analyzeSamples_returns (samples : list OSMPoint) (stopped : bool)
    (logs3 : list LogEntry)
    (env : nat -> Responses) :
  exists schedule app, analyzeSamples settings samples stopped logs3 env schedule = Ok app.
Proof.
  unfold analyzeSamples.
  destruct (length (capSamples settings samples) =? 0)%nat; [exists []; eauto |].
  match goal with
  | |- context [startWorkers ?st ?pts ?b ?l] =>
      destruct (awaitAll_terminates st pts env (startWorkers st pts b l))
        as (schedule & s & Hr)
  end.
  exists schedule. rewrite Hr. cbn. eauto.
Qed.

(** C10: when the sampler yields more points than [maxPoints] (a number
    that is not negative, as the form guarantees), the workers are given
    the first [maxPoints] samples; the output has at most [maxPoints]
    entries, entry [i] being the result of sample [i]; nothing is reported
    as an error; and a run with at least one worker that is not cancelled
    returns exactly one result for each of these samples, in order. *)
Theorem cap_keeps_first_maxPoints (samples : list OSMPoint) (stopped : bool)
    (logs3 : list LogEntry)
    (env : nat -> Responses) (schedule : list Event) (app : AppState) :
  0 <= maxPoints settings ->
  maxPoints settings < Z.of_nat (length samples) ->
  analyzeSamples settings samples stopped logs3 env schedule = Ok app ->
  let kept := take (Z.to_nat (maxPoints settings)) samples in
  capSamples settings samples = kept
  /\ Z.of_nat (length (analyzedPoints app)) <= maxPoints settings
  /\ (forall i a, analyzedPoints app !! i = Some a -> kept !! i = Some (location a))
  /\ error app = None
  /\ (1 <= concurrency settings -> app_isCancelled app = false ->
      location <$> analyzedPoints app = kept).
Proof.
  intros Hmax Hmore Hrun. cbn zeta.
  pose proof (capSamples_take samples Hmax) as Hcap.
  split; [exact Hcap |].
  unfold analyzeSamples in Hrun. rewrite Hcap in Hrun.
  set (kept := take (Z.to_nat (maxPoints settings)) samples) in *.
  assert (Hklen : length kept = Z.to_nat (maxPoints settings)).
  { unfold kept. rewrite length_take. lia. }
  destruct (length kept =? 0)%nat eqn:Hzero.
  { injection Hrun as <-. cbn. repeat split; try lia; try discriminate.
    intros _ _. apply Nat.eqb_eq in Hzero. now destruct kept. }
  match type of Hrun with
  | context [awaitAll _ _ _ _ (startWorkers _ _ _ ?l)] => set (logs6 := l) in *
  end.
  destruct (awaitAll settings kept env schedule (startWorkers settings kept stopped logs6))
    as [s | msg |] eqn:Hawait; cbn in Hrun; try discriminate.
  injection Hrun as <-. cbn [analyzedPoints error app_isCancelled].
  pose proof Hawait as Hreach.
  apply awaitAll_reaches in Hreach as (_ & served & _ & Hs).
  apply awaitAll_inv in Hawait as (Hall & k & Hinv).
  pose proof (settled_output kept s k Hinv Hall) as Hout.
  assert (Hlen : (length (finalPoints s) <= length kept)%nat).
  { rewrite <- (length_fmap location), Hout, length_take. lia. }
  split; [lia |]. split; [| split; [reflexivity |]].
  - intros i a Hf. pose proof (lookup_fmap_location _ _ _ _ Hout Hf) as Ht.
    now apply lookup_take_Some in Ht as [Ht _].
  - intros Hconc Hc. rewrite Hout. apply take_ge.
    destruct (poolAfter_quiescent settings kept env stopped logs6 served) as [HQ Hws].
    fold (poolAfter settings kept env stopped logs6 served) in Hs. rewrite <- Hs in HQ, Hws.
    assert (Hq : queue s = []).
    { apply settled_uncancelled_drained; auto. lia. }
    rewrite (inv_queue _ _ _ Hinv) in Hq.
    apply (f_equal length) in Hq. rewrite length_drop, length_entries in Hq. cbn in Hq. lia.
Qed.
End PipelineFacts.

(** Four samples, at most three kept, two workers that finish out of
    order. *)
Lemma cap_keeps_first_maxPoints_witness :
  exists app,
    @analyzeSamples planarOps Demo.twoWorkers Demo.fourSamples false [] Demo.sign50
      Demo.outOfOrder
    = Ok app
    /\ location <$> analyzedPoints app = take 3 Demo.fourSamples.
Proof.
  eexists. split; [vm_compute; reflexivity |].
  refine (proj2 (proj2 (proj2 (proj2
    (@cap_keeps_first_maxPoints planarOps Demo.twoWorkers Demo.fourSamples false []
       Demo.sign50 Demo.outOfOrder _ _ _ _)))) _ _).
  - vm_compute. discriminate.
  - vm_compute. reflexivity.
  - vm_compute. reflexivity.
  - vm_compute. discriminate.
  - vm_compute. reflexivity.
Defined.

(** C1, at a run of one worker over two samples in which the detection of
    sample 0 fails with the message for a rejected key: the run is
    cancelled and sample 1 is never requested, but the handler ends in its
    normal branch: [error] stays [null], [isKeyInvalid] stays false, and
    the log closes with "Analysis stopped." *)
Theorem fatal_error_is_not_propagated :
  isFatalMessage Demo.keyError = true
  /\ @handleAnalyzeClick planarOps Demo.oneWorker Demo.blank (Ok (Demo.street, false))
       false Demo.rejectedKey [Resume 0%nat; Resume 0%nat]
     = Ok (mkApp false
             [mkAnalyzed "n-n" (mkPoint 0 0 (Some "50") (Some 7)) (Some "50") None None false
                "data:image/jpeg;base64,img" 0 (Some 7) (Some "2021-06")]
             None false 1 2 true
             [LogStarted; LogChecking; LogFetchedFresh; LogPathLoaded 2; LogGenerated 2;
              LogRequesting 0; LogAnalyzing 0; LogFailed 0 Demo.keyError; LogFatal 0;
              LogStopped]).
Proof. split; vm_compute; reflexivity. Qed.

(** The same failure met before the workers start, as the error of
    [fetchStreetData], does reach the handler's own [catch]. *)
Example key_error_from_fetch_is_reported :
  @handleAnalyzeClick planarOps Demo.oneWorker Demo.blank (Throw Demo.keyError) false
     Demo.rejectedKey []
  = Ok (mkApp false [] (Some keyErrorText) true 0 0 false
          [LogStarted; LogChecking; LogFatalError keyErrorText]).
Proof. vm_compute. reflexivity. Qed.

(** * Further properties *)

(** ** The sampler *)

Section SamplerMore.
Context `{FloatOps}.

Lemma cumulativeFrom_length (prev : OSMPoint) (acc : Q) (rest : list OSMPoint) :
  length (cumulativeFrom prev acc rest) = length rest.
Proof.
  revert prev acc. induction rest as [| p rest IH]; intros prev acc; cbn; [reflexivity |].
  now rewrite IH.
Qed.

Lemma cumulativeDistances_length (path : list OSMPoint) :
  path <> [] -> length (cumulativeDistances path) = length path.
Proof.
  destruct path as [| p rest]; [congruence |]. intros _. cbn.
  now rewrite cumulativeFrom_length.
Qed.

Lemma cumulativeFrom_step (rest : list OSMPoint) :
  forall (prev : OSMPoint) (acc : Q) (i : nat) (p q : OSMPoint) (c : Q),
    (prev :: rest) !! i = Some p -> (prev :: rest) !! S i = Some q ->
    (acc :: cumulativeFrom prev acc rest) !! i = Some c ->
    (acc :: cumulativeFrom prev acc rest) !! S i
    = Some (c + haversineDistance (lat p) (lon p) (lat q) (lon q))%Q.
Proof.
  induction rest as [| r rest IH]; intros prev acc i p q c Hp Hq Hc.
  - destruct i; cbn in Hq; [discriminate | destruct i; discriminate].
  - destruct i as [| i].
    + cbn in Hp, Hq, Hc. inversion Hp; inversion Hq; inversion Hc; subst. reflexivity.
    + cbn [cumulativeFrom]. cbn in Hp, Hq, Hc.
      change ((_ :: ?l) !! S (S i)) with (l !! S i).
      apply (IH r _ i p q c); assumption.
Qed.

Lemma cumulativeDistances_step (path : list OSMPoint) (i : nat) (p q : OSMPoint) (c : Q) :
  path !! i = Some p -> path !! S i = Some q ->
  cumulativeDistances path !! i = Some c ->
  cumulativeDistances path !! S i
  = Some (c + haversineDistance (lat p) (lon p) (lat q) (lon q))%Q.
Proof.
  destruct path as [| p0 rest]; [discriminate |].
  apply cumulativeFrom_step.
Qed.

Lemma cumulativeDistances_last (path : list OSMPoint) :
  last (cumulativeDistances path) = Some (totalPathDistance path).
Proof.
  unfold totalPathDistance.
  destruct (last (cumulativeDistances path)) as [c |] eqn:Hl; [reflexivity |].
  apply last_None in Hl. destruct path; discriminate.
Qed.

(** The inner loop stops at the first entry that is not below the target. *)
Lemma advanceOver_spec (rest : list Q) :
  forall (cumulative : list Q) (idx : nat) (target : Q),
    (idx <= length cumulative)%nat ->
    drop idx cumulative = rest ->
    let j := advanceOver rest idx target in
    (idx <= j <= length cumulative)%nat
    /\ (forall c, cumulative !! j = Some c -> (target <= c)%Q)
    /\ (forall k c, (idx <= k < j)%nat -> cumulative !! k = Some c -> (c < target)%Q).
Proof.
  induction rest as [| c rest IH]; intros cumulative idx target Hle Hdrop; cbn [advanceOver].
  - assert (length (drop idx cumulative) = 0)%nat as Hlen by now rewrite Hdrop.
    rewrite length_drop in Hlen.
    split; [lia |]. split; [| intros; lia].
    intros c Hc. apply lookup_lt_Some in Hc. lia.
  - assert (Hc : cumulative !! idx = Some c).
    { rewrite <- (Nat.add_0_r idx), <- lookup_drop, Hdrop. reflexivity. }
    assert (Hrest : drop (S idx) cumulative = rest).
    { rewrite (drop_S _ _ _ Hc) in Hdrop. now inversion Hdrop. }
    pose proof (lookup_lt_Some _ _ _ Hc) as Hlt.
    destruct (Qltb c target) eqn:Hcmp.
    + destruct (IH cumulative (S idx) target ltac:(lia) Hrest) as (Hj & Hstop & Hbelow).
      split; [lia |]. split; [exact Hstop |].
      intros k c' Hk Hk'. destruct (decide (k = idx)) as [-> | Hne].
      * rewrite Hc in Hk'. inversion Hk'; subst. now apply Qltb_lt.
      * apply (Hbelow k c'); [lia | exact Hk'].
    + split; [lia |]. split; [| intros; lia].
      intros c' Hc'. rewrite Hc in Hc'. inversion Hc'; subst. now apply Qltb_ge.
Qed.

Lemma advance_spec (cumulative : list Q) (idx : nat) (target : Q) :
  (idx <= length cumulative)%nat ->
  let j := advance cumulative idx target in
  (idx <= j <= length cumulative)%nat
  /\ (forall c, cumulative !! j = Some c -> (target <= c)%Q)
  /\ (forall k c, (idx <= k < j)%nat -> cumulative !! k = Some c -> (c < target)%Q).
Proof.
  intros Hle. unfold advance. now apply advanceOver_spec.
Qed.

(** Below the total length the inner loop never runs off the path. *)
Lemma advance_in_path (path : list OSMPoint) (idx : nat) (target : Q) :
  (idx < length path)%nat -> (target < totalPathDistance path)%Q ->
  (advance (cumulativeDistances path) idx target < length path)%nat.
Proof.
  intros Hidx Hlt.
  assert (Hne : path <> []) by (destruct path; [cbn in Hidx; lia | congruence]).
  pose proof (cumulativeDistances_length path Hne) as Hlen.
  destruct (advance_spec (cumulativeDistances path) idx target ltac:(lia)) as (Hj & _ & Hbelow).
  set (j := advance (cumulativeDistances path) idx target) in *.
  destruct (decide (j < length path)%nat) as [Hin | Hout]; [exact Hin |].
  assert (j = length path) as Hj' by lia.
  pose proof (cumulativeDistances_last path) as Hlast.
  rewrite last_lookup, Hlen in Hlast.
  specialize (Hbelow (pred (length path)) _ ltac:(lia) Hlast).
  exfalso. apply (Qlt_irrefl target). eapply Qlt_trans; eauto.
Qed.


Lemma SampledAt_proper (path : list OSMPoint) (t t' : Q) (s : OSMPoint) :
  (t == t')%Q -> SampledAt path t s -> SampledAt path t' s.
Proof.
  intros Heq (i & p1 & p2 & c & f & Hp1 & Hp2 & Hc & Hf0 & Hf1 & Ht & Hrest).
  exists i, p1, p2, c, f. repeat split; try tauto. now rewrite Ht.
Qed.

Lemma ceiling_pred (x : Q) : Qceiling (x - 1) = Qceiling x - 1.
Proof.
  apply Z.le_antisymm.
  - rewrite <- (Qceiling_Z (Qceiling x - 1)). apply Qceiling_resp_le.
    unfold Z.sub. rewrite inject_Z_plus. unfold Qminus.
    apply Qplus_le_compat; [apply Qle_ceiling | apply Qle_refl].
  - enough (Qceiling x <= Qceiling (x - 1) + 1) by lia.
    rewrite <- (Qceiling_Z (Qceiling (x - 1) + 1)). apply Qceiling_resp_le.
    rewrite inject_Z_plus. pose proof (Qle_ceiling (x - 1)) as Hc.
    change (inject_Z 1) with 1%Q. lra.
Qed.

Lemma steps_succ (total target d : Q) :
  (0 < d)%Q -> (target < total)%Q ->
  Z.to_nat (Qceiling ((total - target) / d))
  = S (Z.to_nat (Qceiling ((total - (target + d)) / d))).
Proof.
  intros Hd Hlt.
  pose proof (steps_positive total target d Hd Hlt) as Hpos.
  assert (Heq : ((total - (target + d)) / d == (total - target) / d - 1)%Q).
  { field. intros H0. rewrite H0 in Hd. discriminate. }
  rewrite Heq, ceiling_pred. lia.
Qed.

Lemma steps_zero (total target d : Q) :
  (0 < d)%Q -> (total <= target)%Q ->
  Z.to_nat (Qceiling ((total - target) / d)) = 0%nat.
Proof.
  intros Hd Hle.
  assert (Hx : ((total - target) / d <= 0)%Q).
  { apply Qle_shift_div_r; [exact Hd |]. lra. }
  apply Qceiling_resp_le in Hx. change (Qceiling 0) with 0 in Hx. lia.
Qed.

Section Walk.
Variable path : list OSMPoint.
Variable d : Q.
Hypothesis Hd : (0 < d)%Q.

(** What the loop appends from the target [target] on. *)
Lemma sampleLoop_walk (fuel : nat) :
  forall (target : Q) (idx : nat) (acc : list OSMPoint),
    (1 <= idx < length path)%nat ->
    (idx = 1%nat \/ forall c, (cumulativeDistances path) !! (idx - 1)%nat = Some c -> (c <= target)%Q) ->
    (Z.to_nat (Qceiling (((totalPathDistance path) - target) / d)) <= fuel)%nat ->
    exists new,
      sampleLoop path (cumulativeDistances path) (totalPathDistance path) d fuel target idx acc = Ok (acc ++ new)
      /\ Forall (fun s => exists k : nat,
                   SampledAt path (target + inject_Z (Z.of_nat k) * d) s) new
      /\ (length new <= Z.to_nat (Qceiling (((totalPathDistance path) - target) / d)))%nat
      /\ ((0 <= target)%Q -> (target < (totalPathDistance path))%Q -> acc = [] -> new <> [])
      /\ ((0 <= target)%Q -> NoZeroSegment path ->
          length new = Z.to_nat (Qceiling (((totalPathDistance path) - target) / d))
          /\ forall k s, new !! k = Some s ->
               SampledAt path (target + inject_Z (Z.of_nat k) * d) s).
Proof.
  induction fuel as [| fuel IH]; intros target idx acc Hidx Hinv Hfuel.
  - cbn [sampleLoop]. destruct (Qltb target (totalPathDistance path)) eqn:Hlt; cbn [negb].
    + apply Qltb_lt in Hlt. pose proof (steps_positive (totalPathDistance path) target d Hd Hlt). lia.
    + apply Qltb_ge in Hlt. exists []. rewrite app_nil_r. split; [reflexivity |].
      split; [constructor |]. split; [cbn; lia |]. split; [intros _ Hlt'; lra |].
      intros _ _. rewrite steps_zero by assumption.
      split; [reflexivity | intros k s Hk; discriminate].
  - cbn [sampleLoop]. destruct (Qltb target (totalPathDistance path)) eqn:Hlt; cbn [negb].
    2:{ apply Qltb_ge in Hlt. exists []. rewrite app_nil_r. split; [reflexivity |].
        split; [constructor |]. split; [cbn; lia |]. split; [intros _ Hlt'; lra |].
        intros _ _. rewrite steps_zero by assumption.
        split; [reflexivity | intros k s Hk; discriminate]. }
    apply Qltb_lt in Hlt.
    pose proof (steps_succ (totalPathDistance path) target d Hd Hlt) as Hsucc.
    assert (Hnext : (Z.to_nat (Qceiling (((totalPathDistance path) - (target + d)) / d)) <= fuel)%nat) by lia.
    assert (Hshift : forall (k : nat) s,
               SampledAt path (target + d + inject_Z (Z.of_nat k) * d) s ->
               SampledAt path (target + inject_Z (Z.of_nat (S k)) * d) s).
    { intros k s. apply SampledAt_proper.
      rewrite Nat2Z.inj_succ. unfold Z.succ. rewrite inject_Z_plus.
      change (inject_Z 1) with 1%Q. ring. }
    destruct (Qltb target 0) eqn:Hneg.
    + apply Qltb_lt in Hneg.
      destruct (IH (target + d)%Q idx acc Hidx) as (new & Hrun & Hall & Hmost & _).
      { destruct Hinv as [-> | Hinv]; [now left | right].
        intros c Hc. specialize (Hinv c Hc). lra. }
      { exact Hnext. }
      exists new. split; [exact Hrun |]. split; [| split; [lia | split]].
      * eapply Forall_impl; [exact Hall |]. intros s [k Hk]. exists (S k). now apply Hshift.
      * intros Hpos. exfalso. lra.
      * intros Hpos. exfalso. lra.
    + apply Qltb_ge in Hneg.
      assert (Hne : path <> []) by (destruct path; [cbn in Hidx; lia | congruence]).
      pose proof (cumulativeDistances_length path Hne) as Hlen.
      destruct (advance_spec (cumulativeDistances path) idx target ltac:(lia)) as (Hj & Hstop & Hbelow).
      pose proof (advance_in_path path idx target ltac:(lia) Hlt) as Hin.
      set (j := advance (cumulativeDistances path) idx target) in *.
      destruct (length path <=? j)%nat eqn:Hbreak; [apply Nat.leb_le in Hbreak; lia |].
      destruct (lookup_lt_is_Some_2 path (j - 1)%nat) as [p1 Hp1]; [lia |].
      destruct (lookup_lt_is_Some_2 path j) as [p2 Hp2]; [lia |].
      destruct (lookup_lt_is_Some_2 (cumulativeDistances path) (j - 1)%nat) as [c Hc]; [lia |].
      assert (Hsj : S (j - 1) = j) by lia.
      assert (Hcj : (cumulativeDistances path) !! j
                    = Some (c + haversineDistance (lat p1) (lon p1) (lat p2) (lon p2))%Q).
      { rewrite <- Hsj at 1. apply cumulativeDistances_step; [exact Hp1 | | exact Hc].
        now rewrite Hsj. }
      set (h := haversineDistance (lat p1) (lon p1) (lat p2) (lon p2)) in *.
      assert (Hlow : (c <= target)%Q).
      { destruct (decide (j = idx)) as [Hsame | Hmoved].
        - destruct Hinv as [Hone | Hinv].
          + assert (j - 1 = 0)%nat as H0 by lia. rewrite H0 in Hc.
            destruct path; [congruence |]. cbn in Hc.
            inversion Hc; subst. exact Hneg.
          + apply Hinv. now rewrite <- Hsame.
        - apply Qlt_le_weak. apply (Hbelow (j - 1)%nat c); [lia | exact Hc]. }
      pose proof (Hstop _ Hcj) as Hhigh.
      rewrite Hp1, Hp2. cbn [deref mbind result_bind]. rewrite Hc, Hcj.
      change (default 0%Q (Some c)) with c.
      change (default 0%Q (Some (c + h)%Q)) with (c + h)%Q.
      assert (Hinv' : j = 1%nat \/ forall c', (cumulativeDistances path) !! (j - 1)%nat = Some c' -> (c' <= target + d)%Q).
      { right. intros c' Hc'. rewrite Hc in Hc'. inversion Hc'; subst. lra. }
      destruct (Qeq_bool (c + h - c) 0) eqn:Hzero.
      * apply Qeq_bool_iff in Hzero.
        assert (Hat : SampledAt path target p1).
        { exists (j - 1)%nat, p1, p2, c, 0%Q. rewrite Hsj. fold h.
          repeat split; try assumption; try reflexivity; try lra; ring. }
        destruct (IH (target + d)%Q j (pushUnlessRepeated acc p1) ltac:(lia) Hinv' Hnext)
          as (new & Hrun & Hall & Hmost & _).
        assert (Hpush : exists pre, pushUnlessRepeated acc p1 = acc ++ pre
                                    /\ Forall (SampledAt path target) pre
                                    /\ (length pre <= 1)%nat
                                    /\ (acc = [] -> pre <> [])).
        { unfold pushUnlessRepeated. destruct (last acc) as [l |] eqn:Hlast.
          - destruct (negb (Qeq_bool (lat l) (lat p1)) && negb (Qeq_bool (lon l) (lon p1))).
            + exists [p1]. split; [reflexivity |]. split; [now constructor |].
              split; [cbn; lia | discriminate].
            + exists []. rewrite app_nil_r. split; [reflexivity |]. split; [constructor |].
              split; [cbn; lia |]. intros ->. discriminate.
          - exists [p1]. split; [reflexivity |]. split; [now constructor |].
            split; [cbn; lia | discriminate]. }
        destruct Hpush as (pre & Hpre & Hpre_at & Hpre_len & Hpre_ne).
        exists (pre ++ new). rewrite Hrun, Hpre, app_assoc. split; [reflexivity |].
        split; [| split; [rewrite length_app; lia | split]].
        -- apply Forall_app. split.
           ++ eapply Forall_impl; [exact Hpre_at |]. intros s Hs. exists 0%nat.
              eapply SampledAt_proper; [| exact Hs]. cbn. ring.
           ++ eapply Forall_impl; [exact Hall |]. intros s [k Hk]. exists (S k).
              now apply Hshift.
        -- intros _ _ Hacc Hnil. apply app_eq_nil in Hnil as [Hnil _].
           now apply Hpre_ne.
        -- intros _ Hnz. exfalso. apply (Hnz (j - 1)%nat p1 p2); [exact Hp1 | | ].
           ++ now rewrite Hsj.
           ++ fold h. lra.
      * assert (Hnz : ~ (c + h - c == 0)%Q).
        { intros Heq. apply Qeq_bool_iff in Heq. congruence. }
        set (f := ((target - c) / (c + h - c))%Q).
        set (s0 := mkPoint (fst (interpolate p1 p2 f)) (snd (interpolate p1 p2 f))
                           (speed p1) (wayId p1)).
        assert (Hh : (0 < c + h - c)%Q) by lra.
        assert (Hf0 : (0 <= f)%Q).
        { unfold f. apply Qle_shift_div_l; [exact Hh |]. lra. }
        assert (Hf1 : (f <= 1)%Q).
        { unfold f. apply Qle_shift_div_r; [exact Hh |]. lra. }
        assert (Hat : SampledAt path target s0).
        { exists (j - 1)%nat, p1, p2, c, f. rewrite Hsj. fold h.
          repeat split; try assumption; try reflexivity.
          unfold f. field. lra. }
        destruct (IH (target + d)%Q j (acc ++ [s0]) ltac:(lia) Hinv' Hnext)
          as (new & Hrun & Hall & Hmost & _ & Hexact).
        exists (s0 :: new). rewrite Hrun, <- app_assoc. split; [reflexivity |].
        split; [| split; [cbn [length]; lia | split; [discriminate |]]].
        -- constructor.
           ++ exists 0%nat. eapply SampledAt_proper; [| exact Hat]. cbn. ring.
           ++ eapply Forall_impl; [exact Hall |]. intros s [k Hk]. exists (S k).
              now apply Hshift.
        -- intros _ Hnoz. destruct (Hexact ltac:(lra) Hnoz) as [Hcount Hpos].
           split; [cbn [length]; lia |].
           intros [| k] s Hk.
           ++ cbn in Hk. inversion Hk; subst.
              eapply SampledAt_proper; [| exact Hat]. cbn. ring.
           ++ cbn in Hk. apply Hshift. now apply Hpos.
Qed.
End Walk.

Lemma first_sample_exists (path : list OSMPoint) (distanceKm startOffsetKm : Q) :
  (0 < distanceKm)%Q -> (0 <= startOffsetKm)%Q ->
  (startOffsetKm < totalPathDistance path)%Q ->
  exists first rest, getSamplePoints path distanceKm startOffsetKm = Ok (first :: rest).
Proof.
  intros Hd Hoff Hlt. unfold getSamplePoints.
  assert (Hlen : (2 <= length path)%nat).
  { destruct path as [| p [| q rest]]; cbn; try lia.
    - unfold totalPathDistance in Hlt. cbn in Hlt. lra.
    - unfold totalPathDistance in Hlt. cbn in Hlt. lra. }
  destruct (length path <? 2)%nat eqn:Hshort; [apply Nat.ltb_lt in Hshort; lia |].
  destruct (Qle_bool distanceKm 0) eqn:Hd0; [apply Qle_bool_iff in Hd0; lra |].
  cbn [orb].
  destruct (Qle_bool (totalPathDistance path) startOffsetKm) eqn:Hpast;
    [apply Qle_bool_iff in Hpast; lra |].
  cbn [andb].
  destruct (sampleLoop_walk path distanceKm Hd (sampleFuel (totalPathDistance path) distanceKm startOffsetKm)
              startOffsetKm 1%nat []) as (new & Hrun & _ & _ & Hne & _).
  - lia.
  - now left.
  - unfold sampleFuel. lia.
  - rewrite Hrun. cbn [app]. destruct new as [| first rest]; [| eauto].
    exfalso. now apply (Hne Hoff Hlt eq_refl).
Qed.

End SamplerMore.

(** ** The sampler in rounded arithmetic *)

Lemma Ascending_snoc (l : list nat) (x : nat) :
  Ascending l -> Forall (fun i => (i <= x)%nat) l -> Ascending (l ++ [x]).
Proof.
  intros Hl Hx j k a b Hjk Ha Hb.
  destruct (decide (k < length l)%nat) as [Hk | Hk].
  - rewrite lookup_app_l in Ha by lia. rewrite lookup_app_l in Hb by lia.
    exact (Hl j k a b Hjk Ha Hb).
  - rewrite lookup_app_r in Hb by lia.
    destruct (k - length l)%nat as [| m] eqn:Hm; [| destruct m; discriminate].
    injection Hb as <-.
    destruct (decide (j < length l)%nat) as [Hj | Hj].
    + rewrite lookup_app_l in Ha by lia.
      rewrite Forall_forall in Hx. apply Hx.
      eapply list_elem_of_lookup_2. exact Ha.
    + rewrite lookup_app_r in Ha by lia.
      destruct (j - length l)%nat as [| m'] eqn:Hm'; [| destruct m'; discriminate].
      injection Ha as <-. lia.
Qed.

Lemma roundUp_ge (x : Q) : (x <= roundUp x)%Q.
Proof.
  unfold roundUp. pose proof (Qle_ceiling (x * 8)) as Hc.
  apply Qle_shift_div_l; [reflexivity | exact Hc].
Qed.

Section RoundedSampler.
Context `{FloatOps}.
Variable ar : Arith.

Lemma rounded_cumulativeFrom_length (prev : OSMPoint) (acc : Q) (rest : list OSMPoint) :
  length (Rounded.cumulativeFrom ar prev acc rest) = length rest.
Proof.
  revert prev acc. induction rest as [| p rest IH]; intros prev acc; cbn; [reflexivity |].
  now rewrite IH.
Qed.

Lemma rounded_cumulativeDistances_length (path : list OSMPoint) :
  path <> [] -> length (Rounded.cumulativeDistances ar path) = length path.
Proof.
  destruct path as [| p rest]; [congruence |]. intros _. cbn.
  now rewrite rounded_cumulativeFrom_length.
Qed.

Lemma rounded_sampleLoop_done path cumulative total distanceKm fuel targetDist idx acc :
  (total <= targetDist)%Q ->
  Rounded.sampleLoop ar path cumulative total distanceKm fuel targetDist idx acc = Ok acc.
Proof.
  intros Hle. apply Qltb_ge in Hle.
  destruct fuel; cbn [Rounded.sampleLoop]; now rewrite Hle.
Qed.

Section Segments.
Variable path : list OSMPoint.
Variable d offset : Q.
Hypothesis Hpath : (2 <= length path)%nat.
Hypothesis Hmono : forall t, (t <= fadd ar t d)%Q.

(** One turn after the other: the samples made so far lie in segments
    that do not decrease and end before [currentPathIndex], and the
    segment before [currentPathIndex] starts at or below the target. *)
Lemma rounded_sampleLoop_segments (fuel : nat) :
  forall (n c : nat) (acc : list OSMPoint) (segs : list nat),
    (1 <= c <= length path)%nat ->
    (c = 1%nat \/ exists a, Rounded.cumulativeDistances ar path !! (c - 1)%nat = Some a
                            /\ (a <= Rounded.targetAt ar d offset n)%Q) ->
    Forall2 (SampledIn ar path d offset) acc segs ->
    Forall (fun i => (S i <= c)%nat) segs ->
    Ascending segs ->
    (forall m, Rounded.sampleLoop ar path (Rounded.cumulativeDistances ar path)
                 (Rounded.totalPathDistance ar path) d fuel
                 (Rounded.targetAt ar d offset n) c acc <> Throw m)
    /\ forall res,
         Rounded.sampleLoop ar path (Rounded.cumulativeDistances ar path)
           (Rounded.totalPathDistance ar path) d fuel
           (Rounded.targetAt ar d offset n) c acc = Ok res ->
         exists segs', Forall2 (SampledIn ar path d offset) res segs' /\ Ascending segs'.
Proof.
  assert (Hne : path <> []) by (destruct path; [cbn in Hpath; lia | congruence]).
  pose proof (rounded_cumulativeDistances_length path Hne) as Hlen.
  assert (Hzero : Rounded.cumulativeDistances ar path !! 0%nat = Some 0%Q)
    by (destruct path; [congruence | reflexivity]).
  induction fuel as [| fuel IH]; intros n c acc segs Hc Hstart Hacc Hbound Hasc;
    cbn [Rounded.sampleLoop].
  - destruct (Qltb _ _); cbn [negb]; split; try discriminate.
    intros res [= <-]. eauto.
  - destruct (Qltb (Rounded.targetAt ar d offset n) (Rounded.totalPathDistance ar path))
      eqn:Hlt; cbn [negb]; [| split; [discriminate | intros res [= <-]; eauto]].
    apply Qltb_lt in Hlt.
    change (fadd ar (Rounded.targetAt ar d offset n) d)
      with (Rounded.targetAt ar d offset (S n)).
    assert (Hnext : (Rounded.targetAt ar d offset n <= Rounded.targetAt ar d offset (S n))%Q)
      by apply Hmono.
    destruct (Qltb (Rounded.targetAt ar d offset n) 0) eqn:Hneg.
    { apply (IH (S n) c acc segs Hc); [| exact Hacc | exact Hbound | exact Hasc].
      destruct Hstart as [-> | (a & Ha & Hle)]; [now left |].
      right. exists a. split; [exact Ha |]. eapply Qle_trans; eauto. }
    apply Qltb_ge in Hneg.
    destruct (advance_spec (Rounded.cumulativeDistances ar path) c
                (Rounded.targetAt ar d offset n) ltac:(lia)) as (Hj & Hstop & Hbelow).
    set (idx := advance (Rounded.cumulativeDistances ar path) c
                  (Rounded.targetAt ar d offset n)) in *.
    destruct (length path <=? idx)%nat eqn:Hout;
      [split; [discriminate | intros res [= <-]; eauto] |].
    apply Nat.leb_gt in Hout.
    destruct (path !! (idx - 1)%nat) as [p1 |] eqn:Hp1;
      [| apply lookup_ge_None in Hp1; lia].
    destruct (path !! idx) as [p2 |] eqn:Hp2; [| apply lookup_ge_None in Hp2; lia].
    destruct (Rounded.cumulativeDistances ar path !! (idx - 1)%nat) as [a |] eqn:Ha;
      [| apply lookup_ge_None in Ha; lia].
    destruct (Rounded.cumulativeDistances ar path !! idx) as [b |] eqn:Hb;
      [| apply lookup_ge_None in Hb; lia].
    cbn [deref mbind result_bind].
    change (default 0%Q (Some a)) with a. change (default 0%Q (Some b)) with b.
    assert (Hsucc : S (idx - 1) = idx) by lia.
    assert (Hat : (a <= Rounded.targetAt ar d offset n)%Q).
    { destruct (decide (idx = c)) as [Heq | Hgt].
      - destruct Hstart as [-> | (a' & Ha' & Hle)].
        + rewrite Heq in Ha. cbn in Ha. rewrite Hzero in Ha. injection Ha as <-. exact Hneg.
        + rewrite Heq, Ha' in Ha. injection Ha as <-. exact Hle.
      - apply Qlt_le_weak. apply (Hbelow (idx - 1)%nat a); [lia | exact Ha]. }
    assert (Hbt : (Rounded.targetAt ar d offset n <= b)%Q) by now apply Hstop.
    assert (Hstart' : idx = 1%nat
                      \/ exists a0, Rounded.cumulativeDistances ar path !! (idx - 1)%nat = Some a0
                                    /\ (a0 <= Rounded.targetAt ar d offset (S n))%Q).
    { right. exists a. split; [exact Ha |]. eapply Qle_trans; eauto. }
    assert (Hbound' : Forall (fun i => (S i <= idx)%nat) segs).
    { eapply Forall_impl; [exact Hbound |]. cbn. intros i Hi. lia. }
    assert (Hsnoc : forall s,
               speed s = speed p1 -> wayId s = wayId p1 ->
               (if Qeq_bool (fsub ar b a) 0 then s = p1
                else (lat s, lon s)
                     = Rounded.interpolate ar p1 p2
                         (fdiv ar (fsub ar (Rounded.targetAt ar d offset n) a)
                                  (fsub ar b a))) ->
               Forall2 (SampledIn ar path d offset) (acc ++ [s]) (segs ++ [(idx - 1)%nat])
               /\ Forall (fun i => (S i <= idx)%nat) (segs ++ [(idx - 1)%nat])
               /\ Ascending (segs ++ [(idx - 1)%nat])).
    { intros s Hs Hw Hshape. split; [| split].
      - apply Forall2_app; [exact Hacc |]. constructor; [| constructor].
        exists p1, p2, a, b, n. cbn zeta. rewrite Hsucc. repeat split; assumption.
      - apply Forall_app. split; [exact Hbound' |]. constructor; [lia | constructor].
      - apply Ascending_snoc; [exact Hasc |].
        eapply Forall_impl; [exact Hbound |]. cbn. intros i Hi. lia. }
    destruct (Qeq_bool (fsub ar b a) 0) eqn:Hseg.
    + unfold pushUnlessRepeated.
      destruct (last acc) as [l |];
        [destruct (negb (Qeq_bool (lat l) (lat p1)) && negb (Qeq_bool (lon l) (lon p1))) |].
      * destruct (Hsnoc p1 eq_refl eq_refl eq_refl) as (H1 & H2 & H3).
        eapply (IH (S n) idx); [lia | eassumption ..].
      * eapply (IH (S n) idx); [lia | eassumption ..].
      * destruct (Hsnoc p1 eq_refl eq_refl eq_refl) as (H1 & H2 & H3).
        eapply (IH (S n) idx); [lia | eassumption ..].
    + match goal with
      | |- context [acc ++ [?s]] =>
          destruct (Hsnoc s eq_refl eq_refl) as (H1 & H2 & H3)
      end.
      { cbn [lat lon]. now destruct (Rounded.interpolate _ _ _ _). }
      eapply (IH (S n) idx); [lia | eassumption ..].
Qed.
End Segments.

Section Turns.
Variable path : list OSMPoint.
Variable d step offset total : Q.
Hypothesis Hstep : (0 <= step)%Q.
Hypothesis Hadvance :
  forall t, (offset <= t)%Q -> (t < total)%Q -> (t + step <= fadd ar t d)%Q.

(** With [turns] turns left before the target reaches the total, the loop
    returns, and adds at most [turns] samples. *)
Lemma rounded_sampleLoop_returns (cumulative : list Q) (turns : nat) :
  forall (fuel : nat) (t : Q) (c : nat) (acc : list OSMPoint),
    (offset <= t)%Q ->
    (total - t <= inject_Z (Z.of_nat turns) * step)%Q ->
    (turns <= fuel)%nat ->
    exists res, Rounded.sampleLoop ar path cumulative total d fuel t c acc = Ok res
                /\ (length res <= length acc + turns)%nat.
Proof.
  induction turns as [| turns IH]; intros fuel t c acc Hfrom Hleft Hfuel.
  - exists acc. split; [| lia]. apply rounded_sampleLoop_done.
    change (inject_Z (Z.of_nat 0)) with 0%Q in Hleft. lra.
  - destruct fuel as [| fuel]; [lia |].
    destruct (Qlt_le_dec t total) as [Hlt | Hge];
      [| exists acc; split; [now apply rounded_sampleLoop_done | lia]].
    pose proof (Hadvance t Hfrom Hlt) as Ha.
    assert (Hleft' : (total - fadd ar t d <= inject_Z (Z.of_nat turns) * step)%Q).
    { rewrite Nat2Z.inj_succ in Hleft. unfold Z.succ in Hleft.
      rewrite inject_Z_plus in Hleft. change (inject_Z 1) with 1%Q in Hleft. lra. }
    assert (Hfrom' : (offset <= fadd ar t d)%Q) by lra.
    assert (Hturn : forall c' acc',
               (length acc' <= S (length acc))%nat ->
               exists res, Rounded.sampleLoop ar path cumulative total d fuel (fadd ar t d)
                             c' acc' = Ok res
                           /\ (length res <= length acc + S turns)%nat).
    { intros c' acc' Hacc'.
      destruct (IH fuel (fadd ar t d) c' acc' Hfrom' Hleft' ltac:(lia)) as (res & Hres & Hn).
      exists res. split; [exact Hres | lia]. }
    cbn [Rounded.sampleLoop].
    rewrite (proj2 (Qltb_lt _ _) Hlt). cbn [negb].
    destruct (Qltb t 0); [apply Hturn; lia |].
    destruct (length path <=? advance cumulative c t)%nat eqn:Hout;
      [exists acc; split; [reflexivity | lia] |].
    apply Nat.leb_gt in Hout.
    destruct (path !! (advance cumulative c t - 1)%nat) as [p1 |] eqn:Hp1;
      [| apply lookup_ge_None in Hp1; lia].
    destruct (path !! advance cumulative c t) as [p2 |] eqn:Hp2;
      [| apply lookup_ge_None in Hp2; lia].
    cbn [deref mbind result_bind].
    destruct (Qeq_bool _ 0); apply Hturn.
    + unfold pushUnlessRepeated. destruct (last acc) as [l |];
        [destruct (negb _ && negb _) |]; rewrite ?length_app; cbn; lia.
    + rewrite length_app. cbn. lia.
Qed.
End Turns.

(** X1: in whatever way the additions, subtractions, products and quotients
    are rounded, as long as adding the interval never lowers the target
    distance, [getSamplePoints] does not throw, and each sample it returns
    was made in a segment of the path whose ends have cumulative distances
    below and above one of the target distances of the loop: it is the
    point interpolated between the ends (or the first end when the segment
    has no length) and has the tag and the way id of the first end.  The
    segments of consecutive samples follow the order of the path. *)
Theorem samples_lie_within_segments (fuel : nat) (path : list OSMPoint)
    (distanceKm startOffsetKm : Q) :
  (forall t, (t <= fadd ar t distanceKm)%Q) ->
  (forall m, Rounded.getSamplePoints ar fuel path distanceKm startOffsetKm <> Throw m)
  /\ forall samples,
       Rounded.getSamplePoints ar fuel path distanceKm startOffsetKm = Ok samples ->
       exists segments,
         Forall2 (SampledIn ar path distanceKm startOffsetKm) samples segments
         /\ Ascending segments.
Proof.
  intros Hmono. unfold Rounded.getSamplePoints.
  assert (Hnil : exists segments,
             Forall2 (SampledIn ar path distanceKm startOffsetKm) [] segments
             /\ Ascending segments).
  { exists []. split; [constructor |]. intros j k a b _ Ha. discriminate. }
  destruct ((length path <? 2)%nat || Qle_bool distanceKm 0) eqn:Hguard;
    [split; [discriminate | now intros samples [= <-]] |].
  apply orb_false_iff in Hguard as [Hlen _]. apply Nat.ltb_ge in Hlen.
  destruct (Qle_bool _ startOffsetKm && Qltb 0 _);
    [split; [discriminate | now intros samples [= <-]] |].
  apply (rounded_sampleLoop_segments path distanceKm startOffsetKm Hlen Hmono fuel
           0%nat 1%nat [] []).
  - lia.
  - now left.
  - constructor.
  - constructor.
  - intros j k a b _ Ha. discriminate.
Qed.

(** X2: [getSamplePoints] returns when every addition of the interval to
    a target distance between the start offset and the length of the path
    raises it by at least some fixed positive amount [step]: the loop then
    makes at most [ceil((total - offset) / step)] turns, whatever the
    rounding of the other operations, and returns at most that many
    samples. *)
Theorem sampling_ends_when_targets_advance (fuel : nat) (path : list OSMPoint)
    (distanceKm startOffsetKm step : Q) :
  (0 < step)%Q ->
  (forall t, (startOffsetKm <= t)%Q -> (t < Rounded.totalPathDistance ar path)%Q ->
             (t + step <= fadd ar t distanceKm)%Q) ->
  (Z.to_nat (Qceiling ((Rounded.totalPathDistance ar path - startOffsetKm) / step))
   <= fuel)%nat ->
  exists samples,
    Rounded.getSamplePoints ar fuel path distanceKm startOffsetKm = Ok samples
    /\ (length samples
        <= Z.to_nat (Qceiling ((Rounded.totalPathDistance ar path - startOffsetKm) / step)))%nat.
Proof.
  intros Hstep Hadv Hfuel. unfold Rounded.getSamplePoints.
  destruct ((length path <? 2)%nat || Qle_bool distanceKm 0);
    [exists []; split; [reflexivity | cbn; lia] |].
  destruct (Qle_bool _ startOffsetKm && Qltb 0 _);
    [exists []; split; [reflexivity | cbn; lia] |].
  apply (rounded_sampleLoop_returns path distanceKm step startOffsetKm
           (Rounded.totalPathDistance ar path) (Qlt_le_weak _ _ Hstep) Hadv
           (Rounded.cumulativeDistances ar path)
           (Z.to_nat (Qceiling ((Rounded.totalPathDistance ar path - startOffsetKm) / step)))
           fuel startOffsetKm 1%nat []);
    [apply Qle_refl | | exact Hfuel].
  set (x := ((Rounded.totalPathDistance ar path - startOffsetKm) / step)%Q).
  assert (Hx : (Rounded.totalPathDistance ar path - startOffsetKm == x * step)%Q).
  { unfold x. field. intros H0. rewrite H0 in Hstep. discriminate. }
  rewrite Hx. apply Qmult_le_compat_r; [| now apply Qlt_le_weak].
  destruct (Z.le_gt_cases 0 (Qceiling x)) as [Hpos | Hnegc].
  - rewrite Z2Nat.id by exact Hpos. apply Qle_ceiling.
  - assert (Hz : Z.to_nat (Qceiling x) = 0%nat) by lia. rewrite Hz.
    change (inject_Z (Z.of_nat 0)) with 0%Q.
    pose proof (Qle_ceiling x) as Hc.
    assert (Hi : (inject_Z (Qceiling x) <= 0)%Q).
    { change 0%Q with (inject_Z 0). rewrite <- Zle_Qle. lia. }
    lra.
Qed.
End RoundedSampler.

(** Without rounding the sampler is the one of the exact model. *)
Lemma exact_sampleLoop `{FloatOps} (path : list OSMPoint) (cumulative : list Q)
    (total d : Q) (fuel : nat) :
  forall t c acc,
    Rounded.sampleLoop exactArith path cumulative total d fuel t c acc
    = sampleLoop path cumulative total d fuel t c acc.
Proof.
  induction fuel as [| fuel IH]; intros t c acc; cbn [Rounded.sampleLoop sampleLoop];
    [reflexivity |].
  destruct (negb (Qltb t total)); [reflexivity |].
  cbn [fadd fsub fdiv exactArith]. rewrite !IH.
  destruct (Qltb t 0); [reflexivity |].
  destruct (length path <=? advance cumulative c t)%nat; [reflexivity |].
  destruct (path !! (advance cumulative c t - 1)%nat); [| reflexivity].
  destruct (path !! advance cumulative c t); [| reflexivity].
  cbn [deref mbind result_bind]. rewrite !IH. reflexivity.
Qed.

Lemma exact_cumulativeFrom `{FloatOps} (rest : list OSMPoint) :
  forall prev acc, Rounded.cumulativeFrom exactArith prev acc rest = cumulativeFrom prev acc rest.
Proof.
  induction rest as [| p rest IH]; intros prev acc; cbn; [reflexivity |]. now rewrite IH.
Qed.

Lemma exact_getSamplePoints `{FloatOps} (path : list OSMPoint) (distanceKm startOffsetKm : Q) :
  Rounded.getSamplePoints exactArith
    (sampleFuel (totalPathDistance path) distanceKm startOffsetKm) path distanceKm
    startOffsetKm
  = getSamplePoints path distanceKm startOffsetKm.
Proof.
  assert (Hcum : Rounded.cumulativeDistances exactArith path = cumulativeDistances path).
  { destruct path as [| p rest]; [reflexivity |]. cbn. now rewrite exact_cumulativeFrom. }
  unfold Rounded.getSamplePoints, getSamplePoints, Rounded.totalPathDistance,
    totalPathDistance.
  rewrite Hcum. destruct (_ || _); [reflexivity |].
  destruct (_ && _); [reflexivity |]. apply exact_sampleLoop.
Qed.

Lemma samples_lie_within_segments_witness :
  (forall t, (t <= fadd coarseArith t (3 # 10))%Q)
  /\ exists s1 s2 s3,
       @Rounded.getSamplePoints planarOps coarseArith 10 Demo.street (3 # 10) 0
       = Ok [s1; s2; s3]
       /\ exists segments,
            Forall2 (@SampledIn planarOps coarseArith Demo.street (3 # 10) 0) [s1; s2; s3]
              segments
            /\ Ascending segments.
Proof.
  assert (Hmono : forall t, (t <= fadd coarseArith t (3 # 10))%Q).
  { intros t. cbn. pose proof (roundUp_ge (t + (3 # 10))). lra. }
  split; [exact Hmono |].
  do 3 eexists. split; [vm_compute; reflexivity |].
  apply (proj2 (@samples_lie_within_segments planarOps coarseArith 10 Demo.street
                  (3 # 10) 0 Hmono)).
  vm_compute. reflexivity.
Defined.

Lemma sampling_ends_when_targets_advance_witness :
  exists samples,
    @Rounded.getSamplePoints planarOps coarseArith 4 Demo.street (3 # 10) 0 = Ok samples
    /\ (length samples <= 4)%nat.
Proof.
  apply (@sampling_ends_when_targets_advance planarOps coarseArith 4 Demo.street
           (3 # 10) 0 (3 # 10)).
  - reflexivity.
  - intros t _ _. cbn. apply roundUp_ge.
  - vm_compute. lia.
Defined.

(** ** The carry-forward pass *)

(** X3: after the carry-forward pass a point has the tag and the way id of
    the nearest point at or before it that was tagged, or of the first
    point of the path when no point up to it was tagged; its coordinates
    are unchanged. *)
Theorem carry_forward_takes_nearest_tag (path : list OSMPoint) (j i : nat)
    (pj p : OSMPoint) :
  (j <= i)%nat ->
  path !! j = Some pj ->
  path !! i = Some p ->
  speed pj <> None \/ j = 0%nat ->
  (forall k q, (j < k <= i)%nat -> path !! k = Some q -> speed q = None) ->
  carryForward path !! i = Some (mkPoint (lat p) (lon p) (speed pj) (wayId pj)).
Proof.
  intros Hji Hpj Hp Hsrc Hgap.
  destruct (carry_prefix path (length path) (Nat.le_refl _)) as (_ & _ & Hcarried).
  fold (carryForward path) in Hcarried.
  revert p Hji Hp Hgap. induction i as [| i IH]; intros p Hji Hp Hgap.
  - assert (j = 0)%nat as -> by lia. rewrite Hpj in Hp. inversion Hp; subst p.
    specialize (Hcarried 0%nat pj (lookup_lt_Some _ _ _ Hpj) Hpj).
    unfold carried in Hcarried. destruct pj as [la lo sp wi]. cbn.
    destruct sp; exact Hcarried.
  - specialize (Hcarried (S i) p (lookup_lt_Some _ _ _ Hp) Hp) as Hc.
    destruct (decide (j = S i)) as [-> | Hne].
    + rewrite Hpj in Hp. inversion Hp; subst p.
      destruct Hsrc as [Hsp | H0]; [| discriminate].
      unfold carried in Hc. destruct pj as [la lo sp wi]. cbn in *.
      destruct sp; [exact Hc | congruence].
    + assert (Hnone : speed p = None) by (apply (Hgap (S i)); [lia | exact Hp]).
      unfold carried in Hc. rewrite Hnone in Hc.
      destruct Hc as (q & Hq & Hout). rewrite Hout.
      destruct (lookup_lt_is_Some_2 path i) as [p' Hp'].
      { apply lookup_lt_Some in Hp. lia. }
      rewrite (IH p' ltac:(lia) Hp') in Hq.
      * inversion Hq; subst q. reflexivity.
      * intros k q' Hk. apply Hgap. lia.
Qed.

Lemma carry_forward_takes_nearest_tag_witness :
  carryForward Cases.gap !! 2%nat = Some (mkPoint 0 2 (Some "40") (Some 1)).
Proof.
  apply (carry_forward_takes_nearest_tag Cases.gap 0 2
           (mkPoint 0 0 (Some "40") (Some 1)) (mkPoint 0 2 None (Some 2))).
  - lia.
  - reflexivity.
  - reflexivity.
  - left. discriminate.
  - intros k q Hk Hq. destruct k as [| [| [| k]]]; try lia; cbn in Hq; inversion Hq; reflexivity.
Defined.

(** ** The shape of the chains *)

Lemma used_nil (used : gset Z) : used = used ∪ list_to_set [].
Proof. cbn. now rewrite (right_id_L ∅ (∪)). Qed.

Lemma used_cons (used : gset Z) (next : Z) (added : list Z) :
  used ∪ {[next]} ∪ list_to_set added = used ∪ list_to_set (next :: added).
Proof. cbn [list_to_set]. now rewrite (assoc_L (∪)). Qed.

Lemma used_snoc (used : gset Z) (next : Z) (added : list Z) :
  used ∪ {[next]} ∪ list_to_set added = used ∪ list_to_set (added ++ [next]).
Proof.
  rewrite list_to_set_app_L. cbn [list_to_set]. rewrite (right_id_L ∅ (∪)).
  now rewrite <- (assoc_L (∪)), (comm_L (∪) {[next]}).
Qed.

Lemma fresh_weaken (used : gset Z) (next w : Z) : w ∉ used ∪ {[next]} -> w ∉ used.
Proof. intros Hn Hu. apply Hn, elem_of_union. now left. Qed.

Lemma fresh_self (used : gset Z) (next : Z) : next ∈ used ∪ {[next]}.
Proof. apply elem_of_union. right. now apply elem_of_singleton. Qed.

Lemma Connected_snoc (ways : JsObject.t OSMWay) (chain : list Z) (l x : Z) :
  Connected ways chain -> last chain = Some l -> Touching ways l x ->
  Connected ways (chain ++ [x]).
Proof.
  intros Hc Hl Ht i a b Ha Hb.
  rewrite last_lookup in Hl.
  destruct (decide (S i < length chain)%nat) as [Hin | Hout].
  - rewrite lookup_app_l in Ha by lia. rewrite lookup_app_l in Hb by lia. eauto.
  - pose proof (lookup_lt_Some _ _ _ Hb) as Hlen. rewrite length_app in Hlen. cbn in Hlen.
    assert (S i = length chain) as Hi by lia.
    rewrite lookup_app_l in Ha by lia.
    rewrite lookup_app_r in Hb by lia.
    replace (S i - length chain)%nat with 0%nat in Hb by lia. cbn in Hb.
    replace (pred (length chain)) with i in Hl by lia.
    congruence.
Qed.

Lemma Connected_cons (ways : JsObject.t OSMWay) (chain : list Z) (f x : Z) :
  Connected ways chain -> head chain = Some f -> Touching ways x f ->
  Connected ways (x :: chain).
Proof.
  intros Hc Hf Ht i a b Ha Hb. destruct i as [| i].
  - rewrite head_lookup in Hf. change (chain !! 0%nat = Some b) in Hb.
    cbn in Ha. congruence.
  - change (chain !! i = Some a) in Ha. change (chain !! S i = Some b) in Hb. eauto.
Qed.

Lemma endpoints_tip (w : OSMWay) (t : Z) :
  t ∈ endpoints w ->
  exists a b, firstNode w = Some a /\ lastNode w = Some b /\ endpoints w = [a; b].
Proof.
  unfold endpoints. destruct (firstNode w) as [a |], (lastNode w) as [b |];
    intros Hin; try (now apply elem_of_nil in Hin). eauto.
Qed.

Lemma firstNode_endpoint (w : OSMWay) (t : Z) : firstNode w = Some t -> t ∈ endpoints w.
Proof.
  unfold endpoints, firstNode, lastNode. intros Hf. rewrite Hf.
  destruct (way_nodes w) as [| n ns] eqn:Hn; [discriminate |].
  destruct (last (n :: ns)) as [b |] eqn:Hl; [left |].
  apply last_None in Hl. discriminate.
Qed.

Lemma lastNode_endpoint (w : OSMWay) (t : Z) : lastNode w = Some t -> t ∈ endpoints w.
Proof.
  unfold endpoints, firstNode, lastNode. intros Hl. rewrite Hl.
  destruct (way_nodes w) as [| n ns] eqn:Hn; [discriminate |].
  cbn. right. left.
Qed.

Section ChainShape.
Variable ways : JsObject.t OSMWay.
Hypothesis Hwf : WaysWf ways.

Lemma pushWay_exact (m : gmap Z (list Z)) (way : OSMWay) (nodeId : Z) :
  JsObject.get (way_id way) ways = Some way -> nodeId ∈ endpoints way ->
  IndexExact ways m -> IndexExact ways (pushWay (way_id way) m nodeId).
Proof.
  intros Hway Hend Hm t ws w. unfold pushWay. rewrite lookup_insert.
  destruct (decide (nodeId = t)) as [-> | Hne]; [| apply Hm].
  intros [= <-] Hin. apply elem_of_app in Hin as [Hin | Hin].
  - destruct (m !! t) as [ws' |] eqn:Hws; cbn in Hin.
    + eapply Hm; eauto.
    + now apply elem_of_nil in Hin.
  - apply list_elem_of_singleton in Hin. subst. eauto.
Qed.

Lemma indexWay_exact (m : gmap Z (list Z)) (k : Z) :
  IndexExact ways m -> IndexExact ways (indexWay ways m k).
Proof.
  intros Hm. unfold indexWay.
  destruct (JsObject.get k ways) as [way |] eqn:Hway; [| exact Hm].
  destruct Hwf as (_ & _ & Hids). pose proof (Hids _ _ Hway) as Hid.
  rewrite <- Hid in Hway.
  assert (Hgen : forall ns m0, (forall n, n ∈ ns -> n ∈ endpoints way) -> IndexExact ways m0 ->
                               IndexExact ways (foldl (pushWay (way_id way)) m0 ns)).
  { induction ns as [| n ns IH]; intros m0 Hns Hm0; [exact Hm0 |].
    cbn [foldl]. apply IH.
    - intros n' Hn'. apply Hns. now right.
    - apply pushWay_exact; [exact Hway | apply Hns; left | exact Hm0]. }
  apply Hgen; auto.
Qed.

Lemma buildNodeToWayMap_exact : IndexExact ways (buildNodeToWayMap ways).
Proof.
  unfold buildNodeToWayMap.
  assert (Hgen : forall ks m, IndexExact ways m ->
                              IndexExact ways (foldl (indexWay ways) m ks)).
  { induction ks as [| k ks IH]; intros m Hm; [exact Hm |].
    cbn [foldl]. apply IH. now apply indexWay_exact. }
  apply Hgen. intros t ws w Hl. now rewrite lookup_empty in Hl.
Qed.

Variable nodeToWayMap : gmap Z (list Z).
Hypothesis Hexact : IndexExact ways nodeToWayMap.

Lemma connections_next (used : gset Z) (t : option Z) (next : Z) (rest : list Z) :
  connections nodeToWayMap used t = next :: rest ->
  (next ∉ used)
  /\ exists tip way, t = Some tip /\ JsObject.get next ways = Some way /\ tip ∈ endpoints way.
Proof.
  unfold connections. destruct t as [tip |]; [| discriminate].
  destruct (nodeToWayMap !! tip) as [ws |] eqn:Hws; [| discriminate].
  intros Hf.
  assert (Hin : next ∈ filter (fun w => w ∉ used) ws) by (rewrite Hf; apply list_elem_of_here).
  apply list_elem_of_filter in Hin as [Hnot Hin]. split; [exact Hnot |].
  destruct (Hexact _ _ _ Hws Hin) as (way & Hway & Hend). eauto.
Qed.

(** What one extension adds at the end of a chain. *)
Lemma extendForward_adds (fuel : nat) :
  forall (used : gset Z) (chain : list Z) (tip : option Z) (l : Z)
         (used' : gset Z) (chain' : list Z),
    extendForward ways nodeToWayMap fuel used chain tip = Ok (used', chain') ->
    last chain = Some l -> TipOf ways l tip -> Connected ways chain ->
    exists added,
      chain' = chain ++ added
      /\ used' = used ∪ list_to_set added
      /\ NoDup added
      /\ (forall w, w ∈ added -> (w ∉ used) /\ is_Some (JsObject.get w ways))
      /\ Connected ways chain'.
Proof.
  induction fuel as [| fuel IH]; intros used chain tip l used' chain' Hrun Hl Htip Hconn;
    [discriminate |].
  cbn [extendForward] in Hrun.
  destruct (connections nodeToWayMap used tip) as [| next rest] eqn:Hc.
  - inversion Hrun; subst. exists []. rewrite app_nil_r.
    split; [reflexivity |]. split; [apply used_nil |]. split; [apply NoDup_nil_2 |].
    split; [| assumption]. intros w Hw. now apply elem_of_nil in Hw.
  - apply connections_next in Hc as (Hnot & t & way & -> & Hway & Hend).
    rewrite Hway in Hrun. cbn [deref mbind result_bind] in Hrun.
    destruct (Htip t eq_refl) as (lway & Hlway & Hlend).
    assert (Htouch : Touching ways l next) by (exists lway, way, t; auto).
    pose proof (Connected_snoc ways chain l next Hconn Hl Htouch) as Hconn'.
    assert (Hl' : last (chain ++ [next]) = Some next) by apply last_snoc.
    destruct (endpoints_tip way t Hend) as (a & b & Hfirst & Hlast & _).
    assert (Hnew : exists tip', extendForward ways nodeToWayMap fuel (used ∪ {[next]})
                                  (chain ++ [next]) tip' = Ok (used', chain')
                                /\ TipOf ways next tip').
    { destruct (decide (firstNode way = Some t)).
      - exists (lastNode way). split; [exact Hrun |].
        intros t' Ht'. exists way. split; [exact Hway | now apply lastNode_endpoint].
      - exists (firstNode way). split; [exact Hrun |].
        intros t' Ht'. exists way. split; [exact Hway | now apply firstNode_endpoint]. }
    destruct Hnew as (tip' & Hrun' & Htip').
    destruct (IH _ _ _ next _ _ Hrun' Hl' Htip' Hconn')
      as (added & -> & -> & Hnd & Hfresh & Hc').
    rewrite <- app_assoc in Hc'. cbn [app] in Hc'.
    exists (next :: added). rewrite <- app_assoc. cbn [app].
    split; [reflexivity |]. split; [apply used_cons |]. split.
    + apply NoDup_cons. split; [| exact Hnd].
      intros Hin. apply Hfresh in Hin as [Hin _]. apply Hin, fresh_self.
    + split; [| exact Hc'].
      intros w Hw. apply elem_of_cons in Hw as [-> | Hw]; [split; eauto |].
      apply Hfresh in Hw as [Hw Hsome]. split; [now apply fresh_weaken in Hw | exact Hsome].
Qed.

(** What one extension adds at the front of a chain. *)
Lemma extendBackward_adds (fuel : nat) :
  forall (used : gset Z) (chain : list Z) (tip : option Z) (f : Z)
         (used' : gset Z) (chain' : list Z),
    extendBackward ways nodeToWayMap fuel used chain tip = Ok (used', chain') ->
    head chain = Some f -> TipOf ways f tip -> Connected ways chain ->
    exists added,
      chain' = added ++ chain
      /\ used' = used ∪ list_to_set added
      /\ NoDup added
      /\ (forall w, w ∈ added -> (w ∉ used) /\ is_Some (JsObject.get w ways))
      /\ Connected ways chain'.
Proof.
  induction fuel as [| fuel IH]; intros used chain tip f used' chain' Hrun Hf Htip Hconn;
    [discriminate |].
  cbn [extendBackward] in Hrun.
  destruct (connections nodeToWayMap used tip) as [| next rest] eqn:Hc.
  - inversion Hrun; subst. exists []. cbn [app].
    split; [reflexivity |]. split; [apply used_nil |]. split; [apply NoDup_nil_2 |].
    split; [| assumption]. intros w Hw. now apply elem_of_nil in Hw.
  - apply connections_next in Hc as (Hnot & t & way & -> & Hway & Hend).
    rewrite Hway in Hrun. cbn [deref mbind result_bind] in Hrun.
    destruct (Htip t eq_refl) as (fway & Hfway & Hfend).
    assert (Htouch : Touching ways next f) by (exists way, fway, t; auto).
    pose proof (Connected_cons ways chain f next Hconn Hf Htouch) as Hconn'.
    assert (Hnew : exists tip', extendBackward ways nodeToWayMap fuel (used ∪ {[next]})
                                  (next :: chain) tip' = Ok (used', chain')
                                /\ TipOf ways next tip').
    { destruct (decide (lastNode way = Some t)).
      - exists (firstNode way). split; [exact Hrun |].
        intros t' Ht'. exists way. split; [exact Hway | now apply firstNode_endpoint].
      - exists (lastNode way). split; [exact Hrun |].
        intros t' Ht'. exists way. split; [exact Hway | now apply lastNode_endpoint]. }
    destruct Hnew as (tip' & Hrun' & Htip').
    destruct (IH _ _ _ next _ _ Hrun' eq_refl Htip' Hconn')
      as (added & -> & -> & Hnd & Hfresh & Hc').
    exists (added ++ [next]). rewrite <- app_assoc. cbn [app].
    split; [reflexivity |]. split; [apply used_snoc |]. split.
    + apply NoDup_app. split; [exact Hnd |]. split; [| apply NoDup_singleton].
      intros w Hw Hw'. apply list_elem_of_singleton in Hw'. subst.
      apply Hfresh in Hw as [Hw _]. apply Hw, fresh_self.
    + split; [| exact Hc'].
      intros w Hw. apply elem_of_app in Hw as [Hw | Hw].
      * apply Hfresh in Hw as [Hw Hsome]. split; [now apply fresh_weaken in Hw | exact Hsome].
      * apply list_elem_of_singleton in Hw. subst. split; eauto.
Qed.

(** The loop over the keys keeps the chains disjoint, connected and equal,
    as a set, to the ways used so far, and uses every key. *)
Lemma growChains_shape (fuel : nat) (keys : list Z) :
  forall (used : gset Z) (chains chains' : list (list Z)),
    growChains ways nodeToWayMap fuel keys used chains = Ok chains' ->
    NoDup (concat chains) ->
    (forall w, w ∈ used <-> w ∈ concat chains) ->
    (forall w, w ∈ used -> is_Some (JsObject.get w ways)) ->
    Forall (fun c => c <> [] /\ Connected ways c) chains ->
    NoDup (concat chains')
    /\ (forall w, w ∈ concat chains' -> is_Some (JsObject.get w ways))
    /\ (forall w, w ∈ keys -> w ∈ concat chains')
    /\ (forall w, w ∈ concat chains -> w ∈ concat chains')
    /\ Forall (fun c => c <> [] /\ Connected ways c) chains'.
Proof.
  induction keys as [| k keys IH]; intros used chains chains' Hrun Hnd Hused Hsome Hall;
    cbn [growChains] in Hrun.
  - inversion Hrun; subst. repeat split; auto.
    + intros w Hw. apply Hsome. now apply Hused.
    + intros w Hw. now apply elem_of_nil in Hw.
  - destruct (decide (k ∈ used)) as [Hin | Hnot].
    + destruct (IH _ _ _ Hrun Hnd Hused Hsome Hall) as (H1 & H2 & H3 & H4 & H5).
      repeat split; auto.
      intros w Hw. apply elem_of_cons in Hw as [-> | Hw]; [| now apply H3].
      apply H4. now apply Hused.
    + destruct (JsObject.get k ways) as [way |] eqn:Hway; [| discriminate].
      cbn [deref mbind result_bind] in Hrun.
      destruct (extendForward ways nodeToWayMap fuel (used ∪ {[k]}) [k] (lastNode way))
        as [[used1 chain1] | |] eqn:Hfwd; try discriminate.
      cbn [mbind result_bind] in Hrun.
      destruct (extendBackward ways nodeToWayMap fuel used1 chain1 (firstNode way))
        as [[used2 chain2] | |] eqn:Hbwd; try discriminate.
      cbn [mbind result_bind] in Hrun.
      destruct (extendForward_adds _ _ _ _ k _ _ Hfwd eq_refl)
        as (add1 & -> & -> & Hnd1 & Hfresh1 & Hconn1).
      { intros t Ht. exists way. split; [exact Hway | now apply lastNode_endpoint]. }
      { intros i a b Ha Hb. destruct i; discriminate. }
      destruct (extendBackward_adds _ _ _ _ k _ _ Hbwd eq_refl)
        as (add2 & -> & -> & Hnd2 & Hfresh2 & Hconn2).
      { intros t Ht. exists way. split; [exact Hway | now apply firstNode_endpoint]. }
      { exact Hconn1. }
      assert (Hnew : forall w, w ∈ add2 ++ [k] ++ add1 ->
                               (w ∉ used) /\ is_Some (JsObject.get w ways)).
      { intros w Hw. rewrite !elem_of_app, list_elem_of_singleton in Hw.
        destruct Hw as [Hw | [-> | Hw]].
        - apply Hfresh2 in Hw as [Hw Hs]. split; [| exact Hs].
          intros Hu. apply Hw. do 2 (apply elem_of_union; left). exact Hu.
        - split; eauto.
        - apply Hfresh1 in Hw as [Hw Hs]. split; [now apply fresh_weaken in Hw | exact Hs]. }
      assert (Hnd' : NoDup (add2 ++ [k] ++ add1)).
      { apply NoDup_app. split; [exact Hnd2 |]. split.
        - intros w Hw Hw'. apply Hfresh2 in Hw as [Hw _].
          rewrite elem_of_app, list_elem_of_singleton in Hw'. apply Hw.
          destruct Hw' as [-> | Hw'].
          + apply elem_of_union. left. apply fresh_self.
          + apply elem_of_union. right. now apply elem_of_list_to_set.
        - apply NoDup_app. split; [apply NoDup_singleton |]. split; [| exact Hnd1].
          intros w Hw Hw'. apply list_elem_of_singleton in Hw. subst.
          apply Hfresh1 in Hw' as [Hw' _]. apply Hw', fresh_self. }
      destruct (IH _ _ _ Hrun) as (H1 & H2 & H3 & H4 & H5).
      * rewrite concat_app. cbn [concat]. rewrite app_nil_r.
        apply NoDup_app. split; [exact Hnd |]. split; [| exact Hnd'].
        intros w Hw Hw'. apply Hnew in Hw' as [Hw' _]. apply Hw'. now apply Hused.
      * intros w. rewrite concat_app. cbn [concat]. rewrite app_nil_r.
        rewrite !elem_of_app, list_elem_of_singleton.
        rewrite !elem_of_union, !elem_of_list_to_set, elem_of_singleton, Hused. tauto.
      * intros w. rewrite !elem_of_union, !elem_of_list_to_set, elem_of_singleton.
        intros [[[Hw | Hw] | Hw] | Hw].
        -- now apply Hsome.
        -- rewrite Hw, Hway. eauto.
        -- apply Hfresh1 in Hw. tauto.
        -- apply Hfresh2 in Hw. tauto.
      * apply Forall_app. split; [exact Hall |]. constructor; [| constructor].
        split; [| exact Hconn2]. destruct add2; discriminate.
      * repeat split; auto.
        -- intros w Hw. apply elem_of_cons in Hw as [-> | Hw]; [| now apply H3].
           apply H4. rewrite concat_app. cbn [concat]. rewrite app_nil_r.
           rewrite !elem_of_app, list_elem_of_singleton. tauto.
        -- intros w Hw. apply H4. rewrite concat_app. apply elem_of_app. now left.
Qed.
End ChainShape.

Lemma buildChains_shape (ways : JsObject.t OSMWay) (chains : list (list Z)) :
  WaysWf ways -> buildChains ways = Ok chains ->
  concat chains ≡ₚ JsObject.keys ways
  /\ Forall (fun c => c <> [] /\ Connected ways c) chains.
Proof.
  intros Hwf Hrun. unfold buildChains in Hrun.
  destruct (growChains_shape ways (buildNodeToWayMap ways)
              (buildNodeToWayMap_exact ways Hwf) _ _ _ _ _ Hrun) as (Hnd & Hsome & Hkeys & _ & Hall).
  - apply NoDup_nil_2.
  - intros w. cbn. split; intros Hw; [now apply elem_of_empty in Hw | now apply elem_of_nil in Hw].
  - intros w Hw. now apply elem_of_empty in Hw.
  - constructor.
  - split; [| exact Hall].
    apply NoDup_Permutation; [exact Hnd | |].
    + rewrite keys_perm. apply Hwf.
    + intros w. split; [| apply Hkeys].
      intros Hw. rewrite keys_perm. apply Hwf. now apply Hsome.
Qed.

(** X4: the chain growth puts every way of the response in exactly one
    chain, and no chain is empty. *)
Theorem chains_partition_the_ways (els : list Element) :
  let ways := snd (collectElements els) in
  exists chains,
    buildChains ways = Ok chains
    /\ concat chains ≡ₚ JsObject.keys ways
    /\ Forall (fun c => c <> []) chains.
Proof.
  intros ways. pose proof (collectElements_wf els) as Hwf. fold ways in Hwf.
  destruct (buildChains_total ways Hwf) as [chains Hrun].
  destruct (buildChains_shape ways chains Hwf Hrun) as [Hperm Hall].
  exists chains. split; [exact Hrun |]. split; [exact Hperm |].
  eapply Forall_impl; [exact Hall |]. now intros c [Hc _].
Qed.

(** X5: in every chain each way shares an end node with the way that
    follows it. *)
Theorem chains_are_connected (els : list Element) (chains : list (list Z)) (chain : list Z)
    (i : nat) (a b : Z) :
  let ways := snd (collectElements els) in
  buildChains ways = Ok chains ->
  chain ∈ chains ->
  chain !! i = Some a -> chain !! S i = Some b ->
  exists wa wb n,
    JsObject.get a ways = Some wa /\ JsObject.get b ways = Some wb
    /\ (firstNode wa = Some n \/ lastNode wa = Some n)
    /\ (firstNode wb = Some n \/ lastNode wb = Some n).
Proof.
  intros ways Hrun Hin Ha Hb. pose proof (collectElements_wf els) as Hwf. fold ways in Hwf.
  destruct (buildChains_shape ways chains Hwf Hrun) as [_ Hall].
  rewrite Forall_forall in Hall. destruct (Hall chain Hin) as [_ Hconn].
  destruct (Hconn i a b Ha Hb) as (wa & wb & n & Hwa & Hwb & Hna & Hnb).
  exists wa, wb, n. split; [exact Hwa |]. split; [exact Hwb |].
  assert (Hends : forall w, n ∈ endpoints w -> firstNode w = Some n \/ lastNode w = Some n).
  { intros w Hn. destruct (endpoints_tip w n Hn) as (x & y & Hx & Hy & Heq).
    rewrite Heq in Hn. rewrite Hx, Hy.
    apply elem_of_cons in Hn as [-> | Hn]; [now left |].
    apply list_elem_of_singleton in Hn. subst. now right. }
  split; apply Hends; assumption.
Qed.

Lemma chains_are_connected_witness :
  exists wa wb n,
    JsObject.get 10 (snd (collectElements Demo.alignedWays)) = Some wa
    /\ JsObject.get 20 (snd (collectElements Demo.alignedWays)) = Some wb
    /\ (firstNode wa = Some n \/ lastNode wa = Some n)
    /\ (firstNode wb = Some n \/ lastNode wb = Some n).
Proof.
  apply (chains_are_connected Demo.alignedWays [[10; 20]] [10; 20] 0 10 20).
  - vm_compute. reflexivity.
  - left.
  - reflexivity.
  - reflexivity.
Defined.

(** ** The assembled path *)

Lemma collected_ways (els : list Element) (k : Z) (way : OSMWay) :
  JsObject.get k (snd (collectElements els)) = Some way ->
  exists ns ms ow,
    ElWay k ns ms ow ∈ els
    /\ way = mkWay k ns (orElse ms None) (default "no" (orElse ow (Some "no"))).
Proof.
  unfold collectElements.
  assert (Hgen : forall els' acc,
             (forall el, el ∈ els' -> el ∈ els) ->
             (forall k way, JsObject.get k (snd acc) = Some way ->
                exists ns ms ow, ElWay k ns ms ow ∈ els
                  /\ way = mkWay k ns (orElse ms None) (default "no" (orElse ow (Some "no")))) ->
             forall k way, JsObject.get k (snd (foldl addElement acc els')) = Some way ->
                exists ns ms ow, ElWay k ns ms ow ∈ els
                  /\ way = mkWay k ns (orElse ms None) (default "no" (orElse ow (Some "no")))).
  { induction els' as [| el els' IH]; intros acc Hsub Hacc; [exact Hacc |].
    cbn [foldl]. apply IH.
    - intros el' Hel'. apply Hsub. now right.
    - intros j w. destruct el as [i la lo | i ns ms ow |]; cbn; try apply Hacc.
      unfold JsObject.get, JsObject.set. cbn. rewrite lookup_insert.
      destruct (decide (i = j)) as [-> | Hne]; [| apply Hacc].
      intros [= <-]. exists ns, ms, ow. split; [apply Hsub; left | reflexivity]. }
  apply Hgen; [auto |]. intros j w. unfold JsObject.get. cbn. now rewrite lookup_empty.
Qed.

Lemma collected_nodes (els : list Element) (n : Z) (c : Q * Q) :
  fst (collectElements els) !! n = Some c -> ElNode n (fst c) (snd c) ∈ els.
Proof.
  unfold collectElements.
  assert (Hgen : forall els' acc,
             (forall el, el ∈ els' -> el ∈ els) ->
             (forall n c, fst acc !! n = Some c -> ElNode n (fst c) (snd c) ∈ els) ->
             forall n c, fst (foldl addElement acc els') !! n = Some c ->
                         ElNode n (fst c) (snd c) ∈ els).
  { induction els' as [| el els' IH]; intros acc Hsub Hacc; [exact Hacc |].
    cbn [foldl]. apply IH.
    - intros el' Hel'. apply Hsub. now right.
    - intros j c'. destruct el as [i la lo | i ns ms ow |]; cbn; try apply Hacc.
      rewrite lookup_insert. destruct (decide (i = j)) as [-> | Hne]; [| apply Hacc].
      intros [= <-]. cbn. apply Hsub. left. }
  apply Hgen; [auto |]. intros j c'. cbn. now rewrite lookup_empty.
Qed.

Lemma collected_nodes_complete (els : list Element) (n : Z) (la lo : Q) :
  ElNode n la lo ∈ els -> is_Some (fst (collectElements els) !! n).
Proof.
  unfold collectElements.
  assert (Hgen : forall els' acc,
             ElNode n la lo ∈ els' \/ is_Some (fst acc !! n) ->
             is_Some (fst (foldl addElement acc els') !! n)).
  { induction els' as [| el els' IH]; intros acc Hcase.
    - destruct Hcase as [Hin | Hsome]; [now apply elem_of_nil in Hin | exact Hsome].
    - cbn [foldl]. apply IH. destruct Hcase as [Hin | Hsome].
      + apply elem_of_cons in Hin as [<- | Hin]; [| now left].
        right. cbn. rewrite lookup_insert. now rewrite decide_True by reflexivity.
      + right. destruct el as [i la' lo' | i ns ms ow |]; cbn; try exact Hsome.
        rewrite lookup_insert. destruct (decide (i = n)); [eauto | exact Hsome]. }
  intros Hin. apply Hgen. now left.
Qed.

Lemma longestChainOf_elem (chains : list (list Z)) (c : list Z) :
  longestChainOf chains = Some c -> c ∈ chains.
Proof.
  intros Hc. apply longestChainOf_first_longest in Hc as (i & Hi & _).
  eapply list_elem_of_lookup_2; eauto.
Qed.

Section FlattenMore.
Variable nodes : gmap Z (Q * Q).
Variable ways : JsObject.t OSMWay.
Hypothesis Hwf : WaysWf ways.


Lemma buildPoints_built (way : OSMWay) (ns : list Z) :
  JsObject.get (way_id way) ways = Some way ->
  Forall (BuiltFrom nodes ways) (buildPointsForWay nodes way ns).
Proof.
  intros Hway. unfold buildPointsForWay. induction ns as [| n ns IH]; [constructor |].
  cbn [omap list_omap]. destruct (nodes !! n) as [c |] eqn:Hn; [| exact IH].
  constructor; [| exact IH]. exists way, n, c. auto.
Qed.

Lemma appendWays_built (rest : list Z) :
  forall finalPath path,
    Forall (BuiltFrom nodes ways) finalPath -> appendWays nodes ways finalPath rest = Ok path ->
    Forall (BuiltFrom nodes ways) path.
Proof.
  induction rest as [| wid rest IH]; intros finalPath path Hall Hrun; cbn [appendWays] in Hrun.
  - now inversion Hrun; subst.
  - unfold appendWay in Hrun. destruct (last finalPath) as [lp |]; cbn in Hrun;
      [| now inversion Hrun; subst].
    destruct (JsObject.get wid ways) as [cw |] eqn:Hcw; cbn in Hrun; [| discriminate].
    assert (Hid : JsObject.get (way_id cw) ways = Some cw).
    { destruct Hwf as (_ & _ & Hids). now rewrite (Hids _ _ Hcw). }
    destruct (firstNode cw ≫= _) as [sn |]; cbn in Hrun; [| discriminate].
    destruct (sameCoords lp sn); cbn in Hrun.
    { eapply IH; [| exact Hrun]. apply Forall_app. split; [exact Hall |].
      now apply buildPoints_built. }
    destruct (lastNode cw ≫= _) as [en |]; cbn in Hrun; [| discriminate].
    destruct (sameCoords lp en); cbn in Hrun;
      (eapply IH; [| exact Hrun]; apply Forall_app; split; [exact Hall |];
       now apply buildPoints_built).
Qed.

Lemma flattenChain_built (chain : list Z) (path : list OSMPoint) :
  flattenChain nodes ways chain = Ok path -> Forall (BuiltFrom nodes ways) path.
Proof.
  unfold flattenChain. destruct chain as [| firstWayId rest].
  - intros [= <-]. constructor.
  - destruct (JsObject.get firstWayId ways) as [fw |] eqn:Hfw; cbn; [| discriminate].
    apply appendWays_built. apply buildPoints_built.
    destruct Hwf as (_ & _ & Hids). now rewrite (Hids _ _ Hfw).
Qed.

Lemma appendWays_returns (rest : list Z) :
  (forall wid, wid ∈ rest ->
     exists w, JsObject.get wid ways = Some w /\ way_nodes w <> [] /\ Resolved nodes w) ->
  forall finalPath, exists path, appendWays nodes ways finalPath rest = Ok path.
Proof.
  induction rest as [| wid rest IH]; intros Hrest finalPath; cbn [appendWays]; [eauto |].
  assert (Hrest' : forall wid', wid' ∈ rest ->
            exists w, JsObject.get wid' ways = Some w /\ way_nodes w <> [] /\ Resolved nodes w).
  { intros wid' Hin. apply Hrest. now right. }
  specialize (IH Hrest').
  unfold appendWay. destruct (last finalPath) as [lp |]; cbn; [| eauto].
  destruct (Hrest wid) as (w & Hw & Hne & Hres); [left |].
  rewrite Hw. cbn.
  unfold Resolved in Hres. rewrite Forall_forall in Hres.
  assert (Hfirst : exists a ca, firstNode w = Some a /\ nodes !! a = Some ca).
  { unfold firstNode. destruct (way_nodes w) as [| a ns] eqn:Hn; [congruence |].
    destruct (Hres a) as [ca Hca]; [left |]. exists a, ca. auto. }
  assert (Hlast : exists b cb, lastNode w = Some b /\ nodes !! b = Some cb).
  { unfold lastNode. destruct (last (way_nodes w)) as [b |] eqn:Hl.
    - destruct (Hres b) as [cb Hcb].
      { rewrite last_lookup in Hl. eapply list_elem_of_lookup_2; eauto. }
      exists b, cb. auto.
    - apply last_None in Hl. congruence. }
  destruct Hfirst as (a & ca & -> & Hca). destruct Hlast as (b & cb & -> & Hcb).
  cbn. rewrite Hca. cbn.
  destruct (sameCoords lp ca); cbn; [apply IH |].
  rewrite Hcb. cbn. destruct (sameCoords lp cb); cbn; apply IH.
Qed.
End FlattenMore.

Lemma carryForward_closed (P : Q -> Q -> Prop) (T : option string -> option Z -> Prop)
    (path : list OSMPoint) :
  Forall (fun p => P (lat p) (lon p) /\ T (speed p) (wayId p)) path ->
  Forall (fun p => P (lat p) (lon p) /\ T (speed p) (wayId p)) (carryForward path).
Proof.
  intros Hall.
  destruct (carry_prefix path (length path) (Nat.le_refl _)) as (Hlen & _ & Hcarried).
  fold (carryForward path) in Hlen, Hcarried.
  rewrite Forall_lookup in Hall.
  assert (Hgen : forall i q, carryForward path !! i = Some q ->
                             P (lat q) (lon q) /\ T (speed q) (wayId q)).
  { induction i as [| i IH]; intros q Hq.
    - destruct (lookup_lt_is_Some_2 path 0%nat) as [p Hp].
      { apply lookup_lt_Some in Hq. lia. }
      specialize (Hcarried 0%nat p (lookup_lt_Some _ _ _ Hp) Hp).
      unfold carried in Hcarried.
      assert (carryForward path !! 0%nat = Some p) as Hout by (destruct (speed p); exact Hcarried).
      rewrite Hout in Hq. inversion Hq; subst. eapply Hall; eauto.
    - destruct (lookup_lt_is_Some_2 path (S i)) as [p Hp].
      { apply lookup_lt_Some in Hq. lia. }
      specialize (Hcarried (S i) p (lookup_lt_Some _ _ _ Hp) Hp).
      unfold carried in Hcarried. destruct (speed p) eqn:Hsp.
      + rewrite Hcarried in Hq. inversion Hq; subst. eapply Hall; eauto.
      + destruct Hcarried as (q' & Hq' & Hout). rewrite Hout in Hq. inversion Hq; subst.
        cbn. split; [eapply Hall; eauto | apply (IH q' Hq')]. }
  apply Forall_lookup. exact Hgen.
Qed.

(** X6: every point of the assembled path has the coordinates of a node of
    the response and carries the id of a way of the response and, when it
    is tagged, the [maxspeed] of a way of the response. *)
Theorem path_comes_from_the_response (els : list Element) (path : list OSMPoint) :
  fetchStreetData (Some els) = Ok path -> Forall (FromResponse els) path.
Proof.
  unfold fetchStreetData. destruct els as [| el els]; [intros [= <-]; constructor |].
  remember (el :: els) as all eqn:Hall. clear Hall el els.
  pose proof (collectElements_wf all) as Hwf.
  pose proof (collected_ways all) as Hways.
  pose proof (collected_nodes all) as Hnodes.
  destruct (collectElements all) as [nodes ways]. cbn [fst snd] in *.
  destruct (bool_decide (nodes = ∅) || bool_decide (JsObject.keys ways = []));
    [intros [= <-]; constructor |].
  destruct (canonicalChain ways) as [[chain |] | |]; cbn; try discriminate;
    [| intros [= <-]; constructor].
  destruct (flattenChain nodes ways chain) as [finalPath | |] eqn:Hflat; cbn; try discriminate.
  intros [= <-].
  apply (flattenChain_built nodes ways Hwf) in Hflat.
  assert (Hnorm : Forall (fun p =>
             (exists n, ElNode n (lat p) (lon p) ∈ all)
             /\ ((exists w ns ms ow, wayId p = Some w /\ ElWay w ns ms ow ∈ all)
                 /\ (forall s, speed p = Some s ->
                       exists w ns ow, ElWay w ns (Some s) ow ∈ all)))
            (normalizeDirection ways chain finalPath)).
  { assert (Hsub : forall p, p ∈ normalizeDirection ways chain finalPath -> p ∈ finalPath).
    { intros p. unfold normalizeDirection.
      destruct (head finalPath), (last finalPath); auto.
      destruct (followsOneway ways chain); auto.
      destruct (needsReversing _ _); auto. now rewrite elem_of_reverse. }
    apply Forall_forall. intros p Hp. apply Hsub in Hp.
    rewrite Forall_forall in Hflat.
    destruct (Hflat p Hp) as (way & n & c & Hway & Hn & ->). cbn.
    destruct (Hways _ _ Hway) as (ns & ms & ow & Hin & Heq).
    split; [exists n; now apply Hnodes |]. split.
    - exists (way_id way), ns, ms, ow. auto.
    - intros s Hs. rewrite Heq in Hs. cbn in Hs.
      destruct ms as [m |]; cbn in Hs; [| discriminate].
      destruct (String.eqb m EmptyString); [discriminate |]. inversion Hs; subst.
      exists (way_id way), ns, ow. exact Hin. }
  apply (carryForward_closed
           (fun la lo => exists n, ElNode n la lo ∈ all)
           (fun sp wi => (exists w ns ms ow, wi = Some w /\ ElWay w ns ms ow ∈ all)
                         /\ (forall s, sp = Some s ->
                               exists w ns ow, ElWay w ns (Some s) ow ∈ all)))
    in Hnorm.
  eapply Forall_impl; [exact Hnorm |]. intros p (H1 & H2 & H3). repeat split; assumption.
Qed.

(** X7: a response in which every way has a node and every node of a way
    is present is assembled without a failure. *)
Theorem complete_response_is_assembled (els : list Element) :
  CompleteResponse els -> exists path, fetchStreetData (Some els) = Ok path.
Proof.
  intros Hcomplete. unfold fetchStreetData. destruct els as [| el els]; [eauto |].
  remember (el :: els) as all eqn:Hall. clear Hall el els.
  pose proof (collectElements_wf all) as Hwf.
  pose proof (collected_ways all) as Hways.
  pose proof (collected_nodes_complete all) as Hnodes.
  destruct (collectElements all) as [nodes ways]. cbn [fst snd] in *.
  destruct (bool_decide (nodes = ∅) || bool_decide (JsObject.keys ways = [])); [eauto |].
  destruct (buildChains_total ways Hwf) as [chains Hchains].
  unfold canonicalChain. rewrite Hchains. cbn.
  destruct (longestChainOf chains) as [chain |] eqn:Hlong; [| eauto].
  apply longestChainOf_elem in Hlong.
  destruct (buildChains_shape ways chains Hwf Hchains) as [Hperm _].
  assert (Hgood : forall wid, wid ∈ chain ->
            exists w, JsObject.get wid ways = Some w /\ way_nodes w <> [] /\ Resolved nodes w).
  { intros wid Hwid.
    assert (Hkey : wid ∈ JsObject.keys ways).
    { rewrite <- Hperm. apply list_elem_of_In, in_concat. exists chain.
      split; now apply list_elem_of_In. }
    rewrite keys_perm in Hkey. apply Hwf in Hkey as [w Hw].
    destruct (Hways _ _ Hw) as (ns & ms & ow & Hin & Heq).
    destruct (Hcomplete _ _ _ _ Hin) as [Hne Hres].
    exists w. split; [exact Hw |]. rewrite Heq. cbn. split; [exact Hne |].
    unfold Resolved. cbn. eapply Forall_impl; [exact Hres |].
    intros n (la & lo & Hn). eapply Hnodes; eauto. }
  unfold flattenChain. destruct chain as [| firstWayId rest]; [eauto |].
  destruct (Hgood firstWayId) as (fw & Hfw & _); [left |]. rewrite Hfw. cbn.
  destruct (appendWays_returns nodes ways rest) with
    (finalPath := buildPointsForWay nodes fw (way_nodes fw)) as [path Hpath].
  { intros wid Hin. apply Hgood. now right. }
  rewrite Hpath. cbn. eauto.
Qed.

Lemma complete_response_is_assembled_witness :
  exists path, fetchStreetData (Some Demo.alignedWays) = Ok path.
Proof.
  apply (complete_response_is_assembled Demo.alignedWays).
  intros i ns ms ow Hin. unfold Demo.alignedWays in Hin.
  repeat (apply elem_of_cons in Hin as [Hin | Hin]; [try discriminate |]);
    [| | now apply elem_of_nil in Hin].
  - inversion Hin; subst. split; [discriminate |].
    repeat constructor; eexists _, _;
      [apply list_elem_of_here | apply list_elem_of_further, list_elem_of_here].
  - inversion Hin; subst. split; [discriminate |].
    repeat constructor; eexists _, _;
      [apply list_elem_of_further, list_elem_of_here
      | do 2 apply list_elem_of_further; apply list_elem_of_here].
Defined.

Lemma path_comes_from_the_response_witness :
  exists path,
    fetchStreetData (Some Demo.reversedFirstWay) = Ok path
    /\ Forall (FromResponse Demo.reversedFirstWay) path.
Proof.
  eexists. split; [vm_compute; reflexivity |].
  apply (path_comes_from_the_response Demo.reversedFirstWay).
  vm_compute. reflexivity.
Defined.

(** ** Runs of the pool *)

Lemma final_is_plausible (country : string) (threshold d : Q)
    (r : option GeminiAnalysisResult) :
  finalDetectedSpeed country threshold r = Some d ->
  (minSpeed country <= d)%Q /\ (d <= maxSpeed country)%Q
  /\ exists c, option_map confidence r = Some c /\ (threshold <= c)%Q.
Proof.
  destruct r as [[[q |] c] |].
  - rewrite final_of_number. destruct (Qltb c threshold) eqn:Hc; [discriminate |].
    destruct (Qle_bool (minSpeed country) q && Qle_bool q (maxSpeed country)) eqn:Hb;
      [| discriminate].
    intros [= <-]. apply andb_true_iff in Hb as [Hlo Hhi].
    apply Qle_bool_iff in Hlo, Hhi. apply Qltb_ge in Hc.
    split; [exact Hlo |]. split; [exact Hhi |]. exists c. split; [reflexivity | exact Hc].
  - rewrite final_of_nothing; [discriminate |]. now intros a [= <-].
  - rewrite final_of_nothing; [discriminate |]. intros a Ha. discriminate.
Qed.

Section PipelineMore.
Context `{FloatOps}.
Variable settings : Settings.
Variable pts : list OSMPoint.
Variable env : nat -> Responses.

Lemma startWorkers_results (stopped : bool) (logs0 : list LogEntry) :
  results (startWorkers settings pts stopped logs0) = replicate (length pts) None.
Proof.
  unfold startWorkers. generalize (Z.to_nat (concurrency settings)) as n. intros n.
  generalize 0%nat at 2 as j.
  set (s0 := mkPool _ _ _ _ _ _).
  assert (Hs0 : results s0 = replicate (length pts) None) by reflexivity.
  revert Hs0. generalize s0 as s. clear s0.
  induction n as [| n IH]; intros s Hs j; cbn [seq foldl]; [exact Hs |].
  apply IH. now rewrite claimNext_results.
Qed.

Lemma failTask_plausible (s : Pool) (w i : nat) (p : OSMPoint) (url : string)
    (date : option string) (msg : string) :
  results s !! i = Some None -> Stored (Plausible settings) s ->
  Stored (Plausible settings) (failTask pts w i p url date msg s).
Proof.
  intros Hi Hs.
  assert (Hp : Plausible settings (mkAnalyzed (pointId p) p (speed p) None None false url
                             (forwardHeading pts i p) (wayId p) date)).
  { intros d Hd. discriminate. }
  unfold failTask. destruct (isFatalMessage msg).
  - intros j b. cbn [setWorker results]. now apply storeResult_stored.
  - intros j b. rewrite claimNext_results.
    destruct (Js.includes (Js.toLowerCase msg) "quota"); now apply storeResult_stored.
Qed.

Lemma step_plausible (s : Pool) (k : nat) (e : Event) :
  PoolInv pts s k -> Stored (Plausible settings) s ->
  Stored (Plausible settings) (step settings pts env s e).
Proof.
  intros Hinv Hs. destruct e as [w |]; cbn [step]; [| exact Hs].
  destruct (workers s !! w) as [[i p | i p url date | | msg] |] eqn:Hw; try exact Hs.
  - destruct (inv_flight _ _ _ Hinv w _ i p Hw eq_refl) as (_ & _ & Hi).
    unfold afterFetch. destruct (imageResult (env i)) as [b64 | err].
    + now destruct (metadataResult (env i)).
    + now apply failTask_plausible.
  - destruct (inv_flight _ _ _ Hinv w _ i p Hw eq_refl) as (_ & _ & Hi).
    unfold afterAnalysis. destruct (analysisCall (env i)) as [r | msg].
    + intros j b. rewrite claimNext_results.
      destruct (belowThreshold settings r); apply storeResult_stored; auto;
        intros d Hd; cbn in Hd; now apply final_is_plausible in Hd.
    + now apply failTask_plausible.
Qed.

Lemma poolAfter_plausible (stopped : bool) (logs0 : list LogEntry) (schedule : list Event) :
  Stored (Plausible settings) (poolAfter settings pts env stopped logs0 schedule).
Proof.
  unfold poolAfter.
  destruct (startWorkers_inv settings pts stopped logs0) as [k0 H0].
  assert (Hs0 : Stored (Plausible settings) (startWorkers settings pts stopped logs0)).
  { intros i a Hr. rewrite startWorkers_results in Hr.
    apply lookup_replicate in Hr as [Hr _]. discriminate. }
  revert H0 Hs0. generalize (startWorkers settings pts stopped logs0) as s. revert k0.
  induction schedule as [| e schedule IH]; intros k0 s Hinv Hs; cbn [foldl]; [exact Hs |].
  destruct (step_inv settings pts env s k0 e Hinv) as (k1 & _ & Hinv1).
  apply (IH k1); [exact Hinv1 | now apply step_plausible with (k := k0)].
Qed.

Lemma finalPoints_elem (s : Pool) (a : AnalyzedPoint) :
  a ∈ finalPoints s -> exists i, results s !! i = Some (Some a).
Proof.
  unfold finalPoints. intros Hin. apply list_elem_of_omap in Hin as (x & Hx & Hsome).
  subst x. now apply list_elem_of_lookup_1 in Hx.
Qed.

(** X8: after a click on Stop, whatever the workers and the user do next,
    the run stays cancelled and no entry leaves the queue; once the
    workers have settled the output is, in order, the results of the
    samples that had been taken from the queue before the click. *)
Theorem stop_lets_only_running_tasks_finish (stopped : bool) (logs0 : list LogEntry)
    (before after : list Event) :
  let s := poolAfter settings pts env stopped logs0 before in
  let s' := foldl (step settings pts env) (handleStopClick s) after in
  isCancelled s' = true
  /\ queue s' = queue s
  /\ (allSettled s' = true ->
      location <$> finalPoints s' = take (length pts - length (queue s)) pts).
Proof.
  cbn zeta.
  destruct (poolAfter_inv settings pts env stopped logs0 before) as [k Hinv].
  set (s := poolAfter settings pts env stopped logs0 before) in *.
  assert (Hstop : PoolInv pts (handleStopClick s) k).
  { unfold handleStopClick. apply cancel_inv, addLog_inv. exact Hinv. }
  assert (Hgen : forall evs s1 k1,
             PoolInv pts s1 k1 -> isCancelled s1 = true ->
             let s2 := foldl (step settings pts env) s1 evs in
             isCancelled s2 = true /\ queue s2 = queue s1 /\ exists k2, PoolInv pts s2 k2).
  { induction evs as [| e evs IH]; intros s1 k1 Hinv1 Hc1; cbn [foldl]; cbn zeta.
    - repeat split; eauto.
    - destruct (cancelled_stops_dispatch settings pts env s1 e Hc1) as [Hc2 Hq2].
      destruct (step_inv settings pts env s1 k1 e Hinv1) as (k2 & _ & Hinv2).
      destruct (IH _ _ Hinv2 Hc2) as (Hc3 & Hq3 & Hk3).
      split; [exact Hc3 |]. split; [congruence | exact Hk3]. }
  destruct (Hgen after _ _ Hstop eq_refl) as (Hc & Hq & k' & Hinv').
  split; [exact Hc |]. split; [exact Hq |].
  intros Hall. rewrite (settled_output pts _ k' Hinv' Hall). f_equal.
  pose proof (inv_queue _ _ _ Hinv') as Hq'. rewrite Hq in Hq'.
  change (queue (handleStopClick s)) with (queue s) in Hq'.
  apply (f_equal length) in Hq'. rewrite length_drop, length_entries in Hq'.
  pose proof (inv_k _ _ _ Hinv'). lia.
Qed.
End PipelineMore.

Section HandlerMore.
Context `{FloatOps}.
Variable settings : Settings.

Lemma analyzeSamples_run (samples : list OSMPoint) (stopped : bool) (logs3 : list LogEntry)
    (env : nat -> Responses) (schedule : list Event) (app : AppState) :
  analyzeSamples settings samples stopped logs3 env schedule = Ok app ->
  let pts := capSamples settings samples in
  (pts = [] /\ analyzedPoints app = [] /\ app_progress app = 0%nat
   /\ totalPointsToAnalyze app = 0%nat)
  \/ exists logs6 served s,
       s = poolAfter settings pts env stopped logs6 served
       /\ allSettled s = true
       /\ analyzedPoints app = finalPoints s
       /\ app_progress app = progress s
       /\ totalPointsToAnalyze app = length pts
       /\ app_isCancelled app = isCancelled s.
Proof.
  unfold analyzeSamples. cbn zeta.
  destruct (length (capSamples settings samples) =? 0)%nat eqn:Hzero.
  - intros [= <-]. left. apply Nat.eqb_eq in Hzero.
    destruct (capSamples settings samples); [auto | discriminate].
  - match goal with
    | |- context [awaitAll _ _ _ _ (startWorkers _ _ _ ?l)] => set (logs6 := l) in *
    end.
    destruct (awaitAll settings _ env schedule _) as [s | msg |] eqn:Hawait; cbn;
      try discriminate.
    intros [= <-]. right.
    apply awaitAll_reaches in Hawait as (Hall & served & _ & Hs).
    exists logs6, served, s. repeat split; auto.
Qed.

(** X9: in the output of a run, a detected speed lies within the bounds
    of the country and was read with a confidence that is not below the
    threshold; a discrepancy is flagged only where a speed was detected;
    and the recorded tag and way id are those of the sample. *)
Theorem reported_detections_are_plausible (samples : list OSMPoint) (stopped : bool)
    (logs3 : list LogEntry) (env : nat -> Responses) (schedule : list Event)
    (app : AppState) (a : AnalyzedPoint) :
  analyzeSamples settings samples stopped logs3 env schedule = Ok app ->
  a ∈ analyzedPoints app ->
  (forall d, detectedSpeed a = Some d ->
     (minSpeed (country settings) <= d)%Q /\ (d <= maxSpeed (country settings))%Q
     /\ exists c, ap_confidence a = Some c /\ (confidenceThreshold settings <= c)%Q)
  /\ (isDiscrepancy a = true -> detectedSpeed a <> None)
  /\ osmSpeed a = speed (location a)
  /\ ap_wayId a = wayId (location a).
Proof.
  intros Hrun Hin. apply analyzeSamples_run in Hrun as [(_ & Hnil & _) | Hrun].
  { rewrite Hnil in Hin. now apply elem_of_nil in Hin. }
  destruct Hrun as (logs6 & served & s & Hs & _ & Hout & _).
  rewrite Hout in Hin. apply finalPoints_elem in Hin as [i Hi].
  pose proof (poolAfter_plausible settings (capSamples settings samples) env stopped logs6 served)
    as Hpl.
  pose proof (stored_results_classified settings (capSamples settings samples) env stopped
                logs6 served) as Hcl.
  rewrite <- Hs in Hpl, Hcl.
  destruct (Hcl i a Hi) as (Htag & Hway & Hflag).
  split; [exact (Hpl i a Hi) |]. split; [| split; [exact Htag | exact Hway]].
  intros Hd Hnone. rewrite Hflag, Hnone, classify_without_detection in Hd. discriminate.
Qed.

(** X10: a run with at least one worker that is not cancelled returns one
    result for every sample handed to the workers, in the order of the
    samples, and its progress counter ends at the total. *)
Theorem uncancelled_run_covers_every_sample (samples : list OSMPoint) (stopped : bool)
    (logs3 : list LogEntry) (env : nat -> Responses) (schedule : list Event)
    (app : AppState) :
  1 <= concurrency settings ->
  analyzeSamples settings samples stopped logs3 env schedule = Ok app ->
  app_isCancelled app = false ->
  location <$> analyzedPoints app = capSamples settings samples
  /\ app_progress app = totalPointsToAnalyze app
  /\ totalPointsToAnalyze app = length (capSamples settings samples).
Proof.
  intros Hconc Hrun Hc. apply analyzeSamples_run in Hrun as [(Hnil & Hout & Hp & Ht) | Hrun].
  { rewrite Hnil, Hout, Hp, Ht. auto. }
  destruct Hrun as (logs6 & served & s & Hs & Hall & Hout & Hp & Ht & Hcan).
  set (pts := capSamples settings samples) in *.
  destruct (poolAfter_inv settings pts env stopped logs6 served) as [k Hinv].
  destruct (poolAfter_quiescent settings pts env stopped logs6 served) as [HQ Hws].
  rewrite <- Hs in Hinv, HQ, Hws.
  assert (Hq : queue s = []).
  { apply settled_uncancelled_drained; auto; [lia | congruence]. }
  rewrite (inv_queue _ _ _ Hinv) in Hq.
  apply (f_equal length) in Hq. rewrite length_drop, length_entries in Hq. cbn in Hq.
  pose proof (inv_k _ _ _ Hinv) as Hk.
  assert (Hfull : location <$> finalPoints s = pts).
  { rewrite (settled_output pts s k Hinv Hall). apply take_ge. lia. }
  rewrite Hout, Hp, Ht. split; [exact Hfull |]. split; [| reflexivity].
  rewrite (inv_progress _ _ _ Hinv), <- (length_fmap location), Hfull. reflexivity.
Qed.
End HandlerMore.

Lemma reported_detections_are_plausible_witness :
  exists app a,
    @analyzeSamples planarOps Demo.twoWorkers Demo.fourSamples false [] Demo.sign50
      Demo.outOfOrder = Ok app
    /\ analyzedPoints app !! 0%nat = Some a
    /\ osmSpeed a = speed (location a).
Proof.
  eexists _, _. split; [vm_compute; reflexivity |]. split; [reflexivity |].
  refine (proj1 (proj2 (proj2
    (@reported_detections_are_plausible planarOps Demo.twoWorkers Demo.fourSamples false []
       Demo.sign50 Demo.outOfOrder _ _ _ _)))).
  - vm_compute. reflexivity.
  - left.
Defined.

Lemma uncancelled_run_covers_every_sample_witness :
  exists app,
    @analyzeSamples planarOps Demo.oneWorker Demo.street false [] Demo.sign50
      [Resume 0%nat; Resume 0%nat; Resume 0%nat; Resume 0%nat] = Ok app
    /\ app_progress app = totalPointsToAnalyze app.
Proof.
  eexists. split; [vm_compute; reflexivity |].
  refine (proj1 (proj2
    (@uncancelled_run_covers_every_sample planarOps Demo.oneWorker Demo.street false []
       Demo.sign50 [Resume 0%nat; Resume 0%nat; Resume 0%nat; Resume 0%nat] _ _ _ _))).
  - vm_compute. discriminate.
  - vm_compute. reflexivity.
  - reflexivity.
Defined.

Lemma length_omap_le {A B} (f : A -> option B) (l : list A) :
  (length (omap f l) <= length l)%nat.
Proof.
  induction l as [| x l IH]; [reflexivity |]. cbn [omap list_omap].
  fold (omap f l). destruct (f x); cbn [length]; lia.
Qed.

Lemma omap_snoc {A B} (f : A -> option B) (l : list A) (x : A) :
  omap f (l ++ [x]) = omap f l ++ match f x with Some y => [y] | None => [] end.
Proof.
  induction l as [| a l IH]; cbn [app omap list_omap].
  - destruct (f x); reflexivity.
  - fold (omap f (l ++ [x])). fold (omap f l). rewrite IH. now destruct (f a).
Qed.

Lemma elem_of_omap_lookup {A B} (f : A -> option B) (l : list A) (y : B) :
  y ∈ omap f l <-> exists i x, l !! i = Some x /\ f x = Some y.
Proof.
  rewrite list_elem_of_omap. split.
  - intros (x & Hx & Hy). apply list_elem_of_lookup_1 in Hx as [i Hi]. eauto.
  - intros (i & x & Hi & Hy). exists x. split; [| exact Hy].
    eapply list_elem_of_lookup_2; eauto.
Qed.

Lemma NoDup_omap_lookup {A B} (f : A -> option B) (l : list A) :
  (forall i j x1 x2 y, l !! i = Some x1 -> l !! j = Some x2 ->
                       f x1 = Some y -> f x2 = Some y -> i = j) ->
  NoDup (omap f l).
Proof.
  induction l as [| x l IH] using rev_ind; intros Hinj; [apply NoDup_nil_2 |].
  rewrite omap_snoc. apply NoDup_app. split; [| split].
  - apply IH. intros i j x1 x2 y Hi Hj. apply Hinj; now apply lookup_app_l_Some.
  - intros y Hy Hy'. destruct (f x) as [y' |] eqn:Hfx; [| now apply elem_of_nil in Hy'].
    apply list_elem_of_singleton in Hy'. subst y'.
    apply elem_of_omap_lookup in Hy as (i & x1 & Hi & Hf1).
    pose proof (lookup_lt_Some _ _ _ Hi) as Hlt.
    assert (i = length l); [| lia].
    apply (Hinj i (length l) x1 x y); auto.
    + now apply lookup_app_l_Some.
    + rewrite lookup_app_r by lia. now rewrite Nat.sub_diag.
  - destruct (f x); [apply NoDup_singleton | apply NoDup_nil_2].
Qed.

(** The number of empty slots among the first [k] is at most the length
    of a list without repetition that holds their indices. *)
Lemma empty_slots_bounded {A} (l : list (option A)) :
  forall F : list nat,
    NoDup F -> (forall i, l !! i = Some None -> i ∈ F) ->
    (length l <= length (omap (fun p => p) l) + length F)%nat.
Proof.
  induction l as [| x l IH] using rev_ind; intros F Hnd Hin; [cbn; lia |].
  rewrite omap_snoc, !length_app. destruct x as [a |]; cbn [length].
  - specialize (IH F Hnd). assert (length l <= length (omap (fun p => p) l) + length F)%nat.
    { apply IH. intros i Hi. apply Hin. now apply lookup_app_l_Some. }
    lia.
  - assert (Hlast : length l ∈ F).
    { apply Hin. rewrite lookup_app_r by lia. now rewrite Nat.sub_diag. }
    apply list_elem_of_split in Hlast as (F1 & F2 & ->).
    apply NoDup_app in Hnd as (Hn1 & Hdisj & Hn2). apply NoDup_cons in Hn2 as [Hnot Hn2].
    assert (Hrest : (length l <= length (omap (fun p => p) l) + length (F1 ++ F2))%nat).
    { apply IH.
      - apply NoDup_app. split; [exact Hn1 |]. split; [| exact Hn2].
        intros y Hy Hy'. apply (Hdisj y Hy). now right.
      - intros i Hi. pose proof (lookup_lt_Some _ _ _ Hi) as Hlt.
        assert (Hmem : i ∈ F1 ++ length l :: F2).
        { apply Hin. now apply lookup_app_l_Some. }
        rewrite elem_of_app, elem_of_cons in Hmem. rewrite elem_of_app.
        destruct Hmem as [? | [-> | ?]]; [now left | lia | now right]. }
    rewrite length_app in *. cbn [length]. lia.
Qed.

Section Flights.
Context `{FloatOps}.
Variable settings : Settings.
Variable pts : list OSMPoint.
Variable env : nat -> Responses.

Lemma pool_accounting (s : Pool) (k : nat) :
  PoolInv pts s k ->
  (progress s <= k)%nat /\ (k <= progress s + length (workers s))%nat.
Proof.
  intros Hinv. pose proof Hinv as [Hq Hk Hlen Hfl Hdi Hfi Hpe Hpr].
  assert (Hsplit : omap (fun p => p) (results s) = omap (fun p => p) (take k (results s))).
  { rewrite <- (take_drop k (results s)) at 1. rewrite omap_app.
    assert (Hnone : omap (fun p => p) (drop k (results s)) = []).
    { destruct (omap (fun p => p) (drop k (results s))) as [| a rest] eqn:Ho; [reflexivity |].
      assert (Ha : a ∈ omap (fun p => p) (drop k (results s))) by (rewrite Ho; left).
      apply list_elem_of_omap in Ha as (x & Hx & Hsome). subst x.
      apply list_elem_of_lookup_1 in Hx as [i Hi]. rewrite lookup_drop in Hi.
      apply Hfi in Hi. lia. }
    rewrite Hnone. apply app_nil_r. }
  assert (Htake : length (take k (results s)) = k) by (rewrite length_take; lia).
  assert (Hdone : (length (omap (fun p => p) (take k (results s))) <= k)%nat).
  { rewrite <- Htake at 2. apply length_omap_le. }
  unfold finalPoints in Hpr. rewrite Hsplit in Hpr. split; [lia |].
  assert (Hnd : NoDup (flights s)).
  { apply NoDup_omap_lookup. intros w1 w2 ws1 ws2 i Hw1 Hw2 Hf1 Hf2.
    destruct (inFlight ws1) as [[i1 p1] |] eqn:H1; [| discriminate].
    destruct (inFlight ws2) as [[i2 p2] |] eqn:H2; [| discriminate].
    cbn in Hf1, Hf2. injection Hf1 as ->. injection Hf2 as ->.
    eapply Hdi; eauto. }
  pose proof (empty_slots_bounded (take k (results s)) (flights s) Hnd) as Hbound.
  assert (Hlen' : (length (flights s) <= length (workers s))%nat) by apply length_omap_le.
  rewrite Htake in Hbound. rewrite Hpr.
  enough (k <= length (omap (fun p => p) (take k (results s))) + length (flights s))%nat by lia.
  apply Hbound. intros i Hi. apply lookup_take_Some in Hi as [Hi Hlt].
  destruct (Hpe i Hlt Hi) as (w & ws & p & Hw & Hin).
  apply elem_of_omap_lookup. exists w, ws. split; [exact Hw |]. now rewrite Hin.
Qed.

(** X11: the pool keeps the number of samples in progress within the
    concurrency level.  In every state of a run, whatever the order in
    which the workers resume, the samples taken from the queue and not
    yet completed are at most [concurrency], and no more results have
    been counted than samples were taken. *)
Theorem at_most_concurrency_samples_in_progress (stopped : bool) (logs0 : list LogEntry)
    (schedule : list Event) :
  let s := poolAfter settings pts env stopped logs0 schedule in
  let dispatched := (length pts - length (queue s))%nat in
  (progress s <= dispatched)%nat
  /\ (dispatched - progress s <= Z.to_nat (concurrency settings))%nat.
Proof.
  cbn zeta. destruct (poolAfter_inv settings pts env stopped logs0 schedule) as [k Hinv].
  destruct (poolAfter_quiescent settings pts env stopped logs0 schedule) as [_ Hws].
  destruct (pool_accounting _ k Hinv) as [Hlo Hhi].
  pose proof (inv_queue _ _ _ Hinv) as Hq. pose proof (inv_k _ _ _ Hinv) as Hk.
  apply (f_equal length) in Hq. rewrite length_drop, length_entries in Hq.
  rewrite Hq, <- Hws. lia.
Qed.
End Flights.

(** ** The images of the results *)

Section Images.
Context `{FloatOps}.
Variable settings : Settings.
Variable pts : list OSMPoint.
Variable env : nat -> Responses.

Lemma setWorker_ready (s : Pool) (w : nat) (ws : WorkerState) :
  (forall index point imageUrl imageDate,
      ws = Detecting index point imageUrl imageDate ->
      Js.startsWith "data:image/" imageUrl = true) ->
  ImagesReady s -> ImagesReady (setWorker w ws s).
Proof.
  intros Hws Hs w' index point url date. cbn [setWorker workers].
  intros Hl. apply list_lookup_insert_Some in Hl as [(_ & Heq & _) | [_ Hl]].
  - eapply Hws. exact Heq.
  - eapply Hs. exact Hl.
Qed.

Lemma claimNext_ready (s : Pool) (w : nat) : ImagesReady s -> ImagesReady (claimNext w s).
Proof.
  intros Hs. unfold claimNext. destruct (isCancelled s).
  - apply setWorker_ready; [discriminate | exact Hs].
  - destruct (queue s) as [| [i p] rest].
    + apply setWorker_ready; [discriminate | exact Hs].
    + apply setWorker_ready; [discriminate |]. exact Hs.
Qed.

Lemma failTask_ready (s : Pool) (w i : nat) (p : OSMPoint) (url : string)
    (date : option string) (msg : string) :
  ImagesReady s -> ImagesReady (failTask pts w i p url date msg s).
Proof.
  intros Hs. unfold failTask. destruct (isFatalMessage msg).
  - apply setWorker_ready; [discriminate | exact Hs].
  - apply claimNext_ready. destruct (Js.includes (Js.toLowerCase msg) "quota"); exact Hs.
Qed.

Lemma failTask_has_image (s : Pool) (w i : nat) (p : OSMPoint) (url : string)
    (date : option string) (msg : string) :
  results s !! i = Some None -> Js.startsWith "data:image/" url = true ->
  Stored HasImage s -> Stored HasImage (failTask pts w i p url date msg s).
Proof.
  intros Hi Hurl Hs. unfold failTask. destruct (isFatalMessage msg).
  - intros j b. cbn [setWorker results]. now apply storeResult_stored.
  - intros j b. rewrite claimNext_results.
    destruct (Js.includes (Js.toLowerCase msg) "quota"); now apply storeResult_stored.
Qed.

Lemma step_images (s : Pool) (k : nat) (e : Event) :
  PoolInv pts s k -> ImagesReady s -> Stored HasImage s ->
  ImagesReady (step settings pts env s e) /\ Stored HasImage (step settings pts env s e).
Proof.
  intros Hinv Hr Hs. destruct e as [w |]; cbn [step]; [| split; [exact Hr | exact Hs]].
  destruct (workers s !! w) as [[i p | i p url date | | msg] |] eqn:Hw;
    try (split; [exact Hr | exact Hs]).
  - destruct (inv_flight _ _ _ Hinv w _ i p Hw eq_refl) as (_ & _ & Hi).
    unfold afterFetch. destruct (imageResult (env i)) as [b64 | err].
    + assert (Hurl : Js.startsWith "data:image/" ("data:image/jpeg;base64," +:+ b64) = true)
        by reflexivity.
      destruct (metadataResult (env i)); (split; [| exact Hs]);
        (apply setWorker_ready; [| exact Hr]); intros ? ? ? ? [= _ _ <- _]; exact Hurl.
    + split; [now apply failTask_ready |]. now apply failTask_has_image.
  - destruct (inv_flight _ _ _ Hinv w _ i p Hw eq_refl) as (_ & _ & Hi).
    pose proof (Hr w i p url date Hw) as Hurl.
    unfold afterAnalysis. destruct (analysisCall (env i)) as [r | msg].
    + split.
      * apply claimNext_ready. now destruct (belowThreshold settings r).
      * intros j b. rewrite claimNext_results.
        destruct (belowThreshold settings r); apply storeResult_stored; auto.
    + split; [now apply failTask_ready |]. now apply failTask_has_image.
Qed.

Lemma poolAfter_images (stopped : bool) (logs0 : list LogEntry) (schedule : list Event) :
  Stored HasImage (poolAfter settings pts env stopped logs0 schedule).
Proof.
  unfold poolAfter.
  destruct (startWorkers_inv settings pts stopped logs0) as [k0 H0].
  assert (Hs0 : Stored HasImage (startWorkers settings pts stopped logs0)).
  { intros i a Hres. rewrite startWorkers_results in Hres.
    apply lookup_replicate in Hres as [Hres _]. discriminate. }
  assert (Hr0 : ImagesReady (startWorkers settings pts stopped logs0)).
  { unfold startWorkers. generalize (Z.to_nat (concurrency settings)) as n. intros n.
    generalize 0%nat at 2 as j.
    set (s0 := mkPool _ _ _ _ _ _).
    assert (Hs : ImagesReady s0).
    { intros w i p url date Hl. cbn in Hl. apply lookup_replicate in Hl as [Hl _].
      discriminate. }
    revert Hs. generalize s0 as s. clear s0.
    induction n as [| n IH]; intros s Hs j; cbn [seq foldl]; [exact Hs |].
    apply IH. now apply claimNext_ready. }
  revert H0 Hr0 Hs0. generalize (startWorkers settings pts stopped logs0) as s. revert k0.
  induction schedule as [| e schedule IH]; intros k0 s Hinv Hr Hs; cbn [foldl]; [exact Hs |].
  destruct (step_inv settings pts env s k0 e Hinv) as (k1 & _ & Hinv1).
  destruct (step_images s k0 e Hinv Hr Hs) as [Hr1 Hs1].
  now apply (IH k1).
Qed.
End Images.

Section VideoFacts.
Context `{FloatOps}.
Variable settings : Settings.

(** X12: every point in the output of a run carries a data URL, the image
    fetched for it or the placeholder; so the video keeps every point of
    the run as a frame, in order, and drops none. *)
Theorem video_keeps_every_point (samples : list OSMPoint) (stopped : bool)
    (logs3 : list LogEntry) (env : nat -> Responses) (schedule : list Event)
    (app : AppState) :
  analyzeSamples settings samples stopped logs3 env schedule = Ok app ->
  Forall (fun a => Js.startsWith "data:image/" (imageUrl a) = true) (analyzedPoints app)
  /\ VideoService.validPoints (analyzedPoints app) = analyzedPoints app.
Proof.
  intros Hrun.
  assert (Hall : Forall HasImage (analyzedPoints app)).
  { apply Forall_forall. intros a Hin.
    apply analyzeSamples_run in Hrun as [(_ & Hnil & _) | Hrun].
    { rewrite Hnil in Hin. now apply elem_of_nil in Hin. }
    destruct Hrun as (logs6 & served & s & Hs & _ & Hout & _).
    rewrite Hout in Hin. apply finalPoints_elem in Hin as [i Hi].
    pose proof (poolAfter_images settings (capSamples settings samples) env stopped logs6
                  served) as Himg.
    rewrite <- Hs in Himg. exact (Himg i a Hi). }
  split; [exact Hall |].
  unfold VideoService.validPoints. induction Hall as [| a l Ha Hl IH]; [reflexivity |].
  rewrite filter_cons. unfold HasImage in Ha. rewrite decide_True by exact Ha. now rewrite IH.
Qed.
End VideoFacts.

Lemma video_keeps_every_point_witness :
  exists app,
    @analyzeSamples planarOps Demo.oneWorker Demo.street false [] Demo.rejectedKey
      [Resume 0%nat; Resume 0%nat] = Ok app
    /\ VideoService.validPoints (analyzedPoints app) = analyzedPoints app.
Proof.
  eexists. split; [vm_compute; reflexivity |].
  refine (proj2 (@video_keeps_every_point planarOps Demo.oneWorker Demo.street false []
                   Demo.rejectedKey [Resume 0%nat; Resume 0%nat] _ _)).
  vm_compute. reflexivity.
Defined.

(** ** The cache and the retries *)

Lemma uncached_path_is_empty (elements : option (list Element)) (path : list OSMPoint) :
  OsmService.reachesCache elements = false -> fetchStreetData elements = Ok path -> path = [].
Proof.
  unfold OsmService.reachesCache, fetchStreetData.
  destruct elements as [[| el els] |]; try (now intros _ [= <-]).
  destruct (collectElements (el :: els)) as [nodes ways].
  destruct (bool_decide (nodes = ∅) || bool_decide (JsObject.keys ways = []));
    [now intros _ [= <-] |].
  destruct (canonicalChain ways) as [[chain |] | |]; cbn; try discriminate.
  now intros _ [= <-].
Qed.

Lemma attempt_cached (reply : OsmService.OverpassReply) (path : list OSMPoint) (cached : bool) :
  OsmService.attempt reply = Ok (path, cached) -> path <> [] -> cached = true.
Proof.
  unfold OsmService.attempt. destruct reply as [message | status text body]; [discriminate |].
  destruct (negb _); [destruct (bool_decide _); discriminate |].
  destruct body as [message | remark elements]; [discriminate |].
  destruct (orElse remark None); [discriminate |].
  destruct (fetchStreetData elements) as [p | |] eqn:Hp; cbn; try discriminate.
  intros [= <- <-] Hne. destruct (OsmService.reachesCache elements) eqn:Hr; [reflexivity |].
  exfalso. apply Hne. eapply uncached_path_is_empty; eauto.
Qed.

Section CacheFacts.
Import OsmService.

Lemma attemptsFrom_cached (replies : nat -> OverpassReply) (remaining : nat) :
  forall attemptNo path cached pauses,
    attemptsFrom replies attemptNo remaining = (Ok (path, cached), pauses) ->
    path <> [] -> cached = true.
Proof.
  induction remaining as [| remaining IH]; intros attemptNo path cached pauses;
    cbn [attemptsFrom]; [discriminate |].
  destruct (attempt (replies attemptNo)) as [[p c] | message |] eqn:Ha; try discriminate.
  - intros [= <- <- _]. now apply (attempt_cached _ _ _ Ha).
  - destruct (attemptNo =? MAX_OSM_RETRIES - 1)%nat; [discriminate |].
    destruct (attemptsFrom replies (S attemptNo) remaining) as [outcome ps] eqn:Hrest.
    intros [= -> _]. eapply IH; eauto.
Qed.

(** X13: the cache holds the very array that the handler reverses.  After
    an analysis that fetched a street from the server, an analysis of the
    same street within 24 hours is served from the cache without any
    request, and the path it starts from is the path as the first
    analysis left it: with the box ticked both times the second analysis
    runs in the direction opposite to the first, and a box unticked after
    a reversed analysis leaves the path reversed. *)
Theorem cached_path_keeps_the_last_reversal (first second : Settings) (now1 stored now2 stored2 : Z)
    (replies1 replies2 : nat -> OverpassReply) (b b1 : Browser)
    (path1 : list OSMPoint) (pauses1 : list Z) :
  loadHighwayPath first now1 stored replies1 b = (Ok (path1, false), pauses1, b1) ->
  path1 <> [] ->
  getCacheKey (streetName second) (cityName second) (provinceState second)
  = getCacheKey (streetName first) (cityName first) (provinceState first) ->
  now2 - stored < expiryTime ->
  exists b2,
    loadHighwayPath second now2 stored2 replies2 b1
    = (Ok (if reverseDirection second then reverse path1 else path1, true), [], b2).
Proof.
  intros Hfirst Hne Hkey Hfresh.
  unfold loadHighwayPath, fetchStreetData in Hfirst.
  destruct (getCachedData _ _ _ now1 b) as [[r0 |] b0] eqn:Hget; [discriminate |].
  assert (b0 = b) as ->.
  { unfold getCachedData in Hget. destruct (memoryCache b !! _) as [e |].
    - destruct (now1 - timestamp e <? expiryTime); [discriminate |].
      destruct (localStorage b ≫= _) as [[pts st] |]; [| now inversion Hget].
      destruct (now1 - st <? expiryTime); [discriminate | now inversion Hget].
    - destruct (localStorage b ≫= _) as [[pts st] |]; [| now inversion Hget].
      destruct (now1 - st <? expiryTime); [discriminate | now inversion Hget]. }
  destruct (attemptsFrom replies1 0 MAX_OSM_RETRIES) as [[[path cached] | m |] ps] eqn:Hatt;
    try discriminate.
  cbn [allocate] in Hfirst.
  set (r := length (arrays b)) in *.
  assert (Hr : (arrays b ++ [path]) !! r = Some path).
  { unfold r. rewrite lookup_app_r by lia. now rewrite Nat.sub_diag. }
  assert (Hpath : path <> []).
  { intros ->. apply Hne. destruct cached, (reverseDirection first); cbn in Hfirst;
      try rewrite list_lookup_alter_eq in Hfirst; rewrite Hr in Hfirst; cbn in Hfirst;
      now inversion Hfirst. }
  rewrite (attemptsFrom_cached _ _ _ _ _ _ Hatt Hpath) in Hfirst.
  set (key := getCacheKey (streetName first) (cityName first) (provinceState first)) in *.
  assert (Hb1 : arrays b1 !! r = Some path1
                /\ memoryCache b1 !! key = Some (mkEntry r stored)).
  { destruct (reverseDirection first); cbn in Hfirst; inversion Hfirst; subst; cbn.
    - rewrite list_lookup_alter_eq, Hr. cbn. split; [reflexivity |].
      now rewrite lookup_insert_eq.
    - rewrite Hr. cbn. split; [reflexivity |]. now rewrite lookup_insert_eq. }
  destruct Hb1 as [Harr Hmem].
  unfold loadHighwayPath, fetchStreetData, getCachedData. rewrite Hkey.
  fold key. rewrite Hmem. cbn [timestamp data].
  rewrite (proj2 (Z.ltb_lt _ _) Hfresh).
  destruct (reverseDirection second).
  - eexists. cbn. rewrite list_lookup_alter_eq, Harr. reflexivity.
  - eexists. rewrite Harr. reflexivity.
Qed.

Lemma cached_path_keeps_the_last_reversal_witness :
  exists path1 b1 b2,
    loadHighwayPath Cases.reversedRun 0 5 Cases.answered Cases.emptyBrowser
    = (Ok (path1, false), [], b1)
    /\ loadHighwayPath Cases.otherSpelling 1000 2000 Cases.overloaded b1
       = (Ok (reverse path1, true), [], b2).
Proof.
  edestruct (cached_path_keeps_the_last_reversal Cases.reversedRun Cases.otherSpelling
               0 5 1000 2000 Cases.answered Cases.overloaded Cases.emptyBrowser)
    as [b2 Hsecond].
  - vm_compute. reflexivity.
  - discriminate.
  - vm_compute. reflexivity.
  - vm_compute. reflexivity.
  - eexists _, _, b2. split; [vm_compute; reflexivity | exact Hsecond].
Defined.

Lemma getCachedData_miss (street city provinceState : string) (now : Z) (b b' : Browser) :
  getCachedData street city provinceState now b = (None, b') -> b' = b.
Proof.
  unfold getCachedData. destruct (memoryCache b !! _) as [e |].
  - destruct (now - timestamp e <? expiryTime); [discriminate |].
    destruct (localStorage b ≫= _) as [[pts st] |]; [| now intros [= <-]].
    destruct (now - st <? expiryTime); [discriminate | now intros [= <-]].
  - destruct (localStorage b ≫= _) as [[pts st] |]; [| now intros [= <-]].
    destruct (now - st <? expiryTime); [discriminate | now intros [= <-]].
Qed.

(** X14: the storage holds the path as it was fetched.  When the page is
    loaded again after an analysis that fetched a street from the server,
    an analysis of the same street within 24 hours is served from the
    storage and starts from the path in the direction in which it was
    fetched, whatever reversal the first analysis had applied. *)
Theorem reloaded_page_serves_the_fetched_direction (first second : Settings)
    (now1 stored now2 stored2 : Z) (replies1 replies2 : nat -> OverpassReply)
    (b b1 : Browser) (items : gmap string (list OSMPoint * Z))
    (path1 : list OSMPoint) (pauses1 : list Z) :
  loadHighwayPath first now1 stored replies1 b = (Ok (path1, false), pauses1, b1) ->
  path1 <> [] ->
  localStorage b = Some items ->
  getCacheKey (streetName second) (cityName second) (provinceState second)
  = getCacheKey (streetName first) (cityName first) (provinceState first) ->
  now2 - stored < expiryTime ->
  let fetched := if reverseDirection first then reverse path1 else path1 in
  exists b2,
    loadHighwayPath second now2 stored2 replies2 (reload b1)
    = (Ok (if reverseDirection second then reverse fetched else fetched, true), [], b2).
Proof.
  intros Hfirst Hne Hitems Hkey Hfresh. cbn zeta.
  unfold loadHighwayPath, fetchStreetData in Hfirst.
  destruct (getCachedData _ _ _ now1 b) as [[r0 |] b0] eqn:Hget; [discriminate |].
  apply getCachedData_miss in Hget. subst b0.
  destruct (attemptsFrom replies1 0 MAX_OSM_RETRIES) as [[[path cached] | m |] ps] eqn:Hatt;
    try discriminate.
  cbn [allocate] in Hfirst.
  set (r := length (arrays b)) in *.
  assert (Hr : (arrays b ++ [path]) !! r = Some path).
  { unfold r. rewrite lookup_app_r by lia. now rewrite Nat.sub_diag. }
  assert (Hpath : path <> []).
  { intros ->. apply Hne. destruct cached, (reverseDirection first); cbn in Hfirst;
      try rewrite list_lookup_alter_eq in Hfirst; rewrite Hr in Hfirst; cbn in Hfirst;
      now inversion Hfirst. }
  rewrite (attemptsFrom_cached _ _ _ _ _ _ Hatt Hpath) in Hfirst.
  set (key := getCacheKey (streetName first) (cityName first) (provinceState first)) in *.
  assert (Hb1 : (if reverseDirection first then reverse path1 else path1) = path
                /\ localStorage b1 = Some (<[key := (path, stored)]> items)).
  { destruct (reverseDirection first).
    - cbn [reverseInPlace setCachedData arrays memoryCache localStorage] in Hfirst.
      rewrite list_lookup_alter_eq, Hr, Hitems in Hfirst.
      change (default [] (reverse <$> Some path)) with (reverse path) in Hfirst.
      injection Hfirst as <- _ <-. rewrite reverse_involutive.
      split; [reflexivity |]. unfold reverseInPlace, setCachedData.
      cbn [localStorage arrays]. now rewrite Hr.
    - cbn [setCachedData arrays memoryCache localStorage] in Hfirst.
      rewrite Hr, Hitems in Hfirst.
      change (default [] (Some path)) with path in Hfirst.
      injection Hfirst as <- _ <-. split; [reflexivity |]. unfold setCachedData.
      cbn [localStorage arrays]. now rewrite Hr. }
  destruct Hb1 as [-> Hstore].
  unfold loadHighwayPath, fetchStreetData, getCachedData, reload.
  cbn [memoryCache localStorage arrays]. rewrite Hkey. fold key.
  rewrite lookup_empty, Hstore. cbn [mbind option_bind].
  rewrite lookup_insert_eq. rewrite (proj2 (Z.ltb_lt _ _) Hfresh).
  destruct (reverseDirection second); eexists; cbn; reflexivity.
Qed.

Lemma reloaded_page_serves_the_fetched_direction_witness :
  exists path1 b1 b2,
    loadHighwayPath Cases.reversedRun 0 5 Cases.answered Cases.emptyBrowser
    = (Ok (path1, false), [], b1)
    /\ loadHighwayPath Cases.reversedRun 1000 2000 Cases.overloaded (reload b1)
       = (Ok (path1, true), [], b2).
Proof.
  edestruct (reloaded_page_serves_the_fetched_direction Cases.reversedRun Cases.reversedRun
               0 5 1000 2000 Cases.answered Cases.overloaded Cases.emptyBrowser)
    as [b2 Hsecond].
  - vm_compute. reflexivity.
  - discriminate.
  - reflexivity.
  - reflexivity.
  - vm_compute. reflexivity.
  - eexists _, _, b2. split; [vm_compute; reflexivity | exact Hsecond].
Defined.

(** X15: after the cache has been cleared for a street, the next look-up
    for this street, or any spelling of it with the same key, finds
    nothing: neither in memory nor in the storage. *)
Theorem cleared_street_is_not_served (street city provinceState street' city' provinceState' : string)
    (now : Z) (b : Browser) :
  street <> EmptyString -> city <> EmptyString -> provinceState <> EmptyString ->
  getCacheKey street' city' provinceState' = getCacheKey street city provinceState ->
  getCachedData street' city' provinceState' now (clearOSMCache street city provinceState b)
  = (None, clearOSMCache street city provinceState b).
Proof.
  intros Hs Hc Hp Hkey. unfold clearOSMCache.
  apply String.eqb_neq in Hs, Hc, Hp. rewrite Hs, Hc, Hp. cbn [orb].
  unfold getCachedData. cbn [memoryCache localStorage]. rewrite Hkey.
  rewrite lookup_delete_eq.
  destruct (localStorage b) as [items |]; cbn; [| reflexivity].
  now rewrite lookup_delete_eq.
Qed.

Lemma cleared_street_is_not_served_witness :
  exists b1,
    fst (fst (fetchStreetData "Main St" "Springfield" "Ontario" 0 5 Cases.answered
                Cases.emptyBrowser)) = Ok (0%nat, false)
    /\ snd (fetchStreetData "Main St" "Springfield" "Ontario" 0 5 Cases.answered
              Cases.emptyBrowser) = b1
    /\ fst (getCachedData "main st" "springfield" "ontario" 10 b1) = Some 0%nat
    /\ fst (getCachedData "main st" "springfield" "ontario" 10
              (clearOSMCache "Main St" "Springfield" "Ontario" b1)) = None.
Proof.
  eexists. split; [vm_compute; reflexivity |]. split; [reflexivity |].
  split; [vm_compute; reflexivity |].
  rewrite (cleared_street_is_not_served "Main St" "Springfield" "Ontario"
             "main st" "springfield" "ontario" 10).
  - reflexivity.
  - discriminate.
  - discriminate.
  - discriminate.
  - vm_compute. reflexivity.
Defined.

(** X16: the requests to the Overpass API.  The first attempt that does
    not fail gives the result; an attempt that fails, whatever the cause
    (a status 400 as well as a 503), is followed by another one after a
    pause of 2 s, then 4 s; when the third attempt fails too its error is
    thrown, replaced by the message for a busy server when it tells of a
    status 502, 503 or 504, a message that the handler does not take for
    a key error. *)
Theorem overpass_is_asked_at_most_three_times (replies : nat -> OverpassReply) :
  (forall k found,
      (k < 3)%nat ->
      (forall j, (j < k)%nat -> exists message, attempt (replies j) = Throw message) ->
      attempt (replies k) = Ok found ->
      attemptsFrom replies 0 MAX_OSM_RETRIES = (Ok found, take k [2000; 4000]))
  /\ (forall message,
        (forall j, (j < 2)%nat -> exists message', attempt (replies j) = Throw message') ->
        attempt (replies 2%nat) = Throw message ->
        attemptsFrom replies 0 MAX_OSM_RETRIES = (Throw (finalError message), [2000; 4000]))
  /\ (forall status text body,
        status ∈ [502; 503; 504] ->
        exists message, attempt (Response status text body) = Throw message
                        /\ finalError message = busyText)
  /\ (forall text body,
        attempt (Response 400 text body)
        = Throw ("Overpass API query failed with status 400. Response: " +:+ text))
  /\ isFatalMessage busyText = false.
Proof.
  split; [| split; [| split; [| split]]].
  - intros k found Hk Hfail Hok. unfold MAX_OSM_RETRIES.
    destruct k as [| [| [| k]]]; try lia; cbn [attemptsFrom].
    + rewrite Hok. reflexivity.
    + destruct (Hfail 0%nat ltac:(lia)) as [m0 ->]. cbn. rewrite Hok. reflexivity.
    + destruct (Hfail 0%nat ltac:(lia)) as [m0 ->].
      destruct (Hfail 1%nat ltac:(lia)) as [m1 ->]. cbn. rewrite Hok. reflexivity.
  - intros message Hfail Hlast. unfold MAX_OSM_RETRIES. cbn [attemptsFrom].
    destruct (Hfail 0%nat ltac:(lia)) as [m0 ->].
    destruct (Hfail 1%nat ltac:(lia)) as [m1 ->]. cbn. rewrite Hlast. reflexivity.
  - intros status text body Hin.
    repeat (apply elem_of_cons in Hin as [-> | Hin]);
      [| | | now apply elem_of_nil in Hin];
      eexists; (split; [reflexivity | vm_compute; reflexivity]).
  - intros text body. reflexivity.
  - vm_compute. reflexivity.
Qed.

(** X17: an entry of the cache is served for 24 hours and no longer.  After
    an analysis that fetched a street from the server, a look-up for the
    same street 24 hours or more after the path was stored finds nothing,
    neither in memory nor in the storage, and leaves the cache as it
    is. *)
Theorem cached_path_expires_after_a_day (first : Settings) (street city province : string)
    (now1 stored now2 : Z) (replies1 : nat -> OverpassReply) (b b1 : Browser)
    (path1 : list OSMPoint) (pauses1 : list Z) :
  loadHighwayPath first now1 stored replies1 b = (Ok (path1, false), pauses1, b1) ->
  path1 <> [] ->
  getCacheKey street city province
  = getCacheKey (streetName first) (cityName first) (provinceState first) ->
  expiryTime <= now2 - stored ->
  getCachedData street city province now2 b1 = (None, b1).
Proof.
  intros Hfirst Hne Hkey Hold.
  unfold loadHighwayPath, fetchStreetData in Hfirst.
  destruct (getCachedData _ _ _ now1 b) as [[r0 |] b0] eqn:Hget; [discriminate |].
  apply getCachedData_miss in Hget. subst b0.
  destruct (attemptsFrom replies1 0 MAX_OSM_RETRIES) as [[[path cached] | m |] ps] eqn:Hatt;
    try discriminate.
  cbn [allocate] in Hfirst.
  set (r := length (arrays b)) in *.
  assert (Hr : (arrays b ++ [path]) !! r = Some path).
  { unfold r. rewrite lookup_app_r by lia. now rewrite Nat.sub_diag. }
  assert (Hpath : path <> []).
  { intros ->. apply Hne. destruct cached, (reverseDirection first); cbn in Hfirst;
      try rewrite list_lookup_alter_eq in Hfirst; rewrite Hr in Hfirst; cbn in Hfirst;
      now inversion Hfirst. }
  rewrite (attemptsFrom_cached _ _ _ _ _ _ Hatt Hpath) in Hfirst.
  set (key := getCacheKey (streetName first) (cityName first) (provinceState first)) in *.
  assert (Hold' : (now2 - stored <? expiryTime) = false) by now apply Z.ltb_ge.
  unfold getCachedData. rewrite Hkey. fold key.
  destruct (reverseDirection first); injection Hfirst as _ _ <-;
    unfold reverseInPlace, setCachedData; fold key;
    cbn [memoryCache localStorage arrays];
    rewrite lookup_insert_eq; cbn [timestamp]; rewrite Hold';
    (destruct (localStorage b) as [items |]; cbn [fmap option_fmap option_map mbind option_bind];
     [rewrite lookup_insert_eq, Hold' | ]; reflexivity).
Qed.

Lemma cached_path_expires_after_a_day_witness :
  exists path1 b1,
    loadHighwayPath Cases.reversedRun 0 5 Cases.answered Cases.emptyBrowser
    = (Ok (path1, false), [], b1)
    /\ getCachedData "main st" "springfield" "ontario" (5 + expiryTime) b1 = (None, b1).
Proof.
  eexists _, _. split; [vm_compute; reflexivity |].
  eapply (cached_path_expires_after_a_day Cases.reversedRun "main st" "springfield" "ontario"
            0 5 (5 + expiryTime) Cases.answered Cases.emptyBrowser).
  - vm_compute. reflexivity.
  - discriminate.
  - vm_compute. reflexivity.
  - vm_compute. discriminate.
Defined.
End CacheFacts.

(** ** Failures of the services *)

Lemma toLowerCase_app (s t : string) :
  Js.toLowerCase (s +:+ t) = Js.toLowerCase s +:+ Js.toLowerCase t.
Proof.
  induction s as [| c s IH]; [reflexivity |].
  change (String c s +:+ t) with (String c (s +:+ t)).
  cbn [Js.toLowerCase]. rewrite IH. reflexivity.
Qed.

Lemma startsWith_app (p s t : string) :
  Js.startsWith p s = true -> Js.startsWith p (s +:+ t) = true.
Proof.
  revert s. induction p as [| a p IH]; intros s; [reflexivity |].
  destruct s as [| b s]; [discriminate |].
  change (String b s +:+ t) with (String b (s +:+ t)). cbn [Js.startsWith].
  destruct (Ascii.eqb a b); [apply IH | discriminate].
Qed.

Lemma includes_app_l (s t sub : string) :
  Js.includes s sub = true -> Js.includes (s +:+ t) sub = true.
Proof.
  induction s as [| c s IH].
  - cbn [Js.includes]. rewrite orb_false_r. intros Hs. destruct sub; [| discriminate].
    destruct t; reflexivity.
  - change (String c s +:+ t) with (String c (s +:+ t)). cbn [Js.includes].
    intros Hs. apply orb_true_iff in Hs as [Hs | Hs]; apply orb_true_iff.
    + left. now apply (startsWith_app sub (String c s) t).
    + right. now apply IH.
Qed.

Lemma includes_app_r (s t sub : string) :
  Js.includes t sub = true -> Js.includes (s +:+ t) sub = true.
Proof.
  intros Ht. induction s as [| c s IH]; [exact Ht |].
  change (String c s +:+ t) with (String c (s +:+ t)). cbn [Js.includes].
  rewrite IH. apply orb_true_r.
Qed.

Lemma fatal_prefix (s t : string) :
  isFatalMessage s = true -> isFatalMessage (s +:+ t) = true.
Proof.
  unfold isFatalMessage. cbn zeta. rewrite toLowerCase_app.
  intros Hs. apply orb_true_iff in Hs as [Hs | Hs]; [apply orb_true_iff in Hs as [Hs | Hs] |].
  - now rewrite (includes_app_l _ _ _ Hs).
  - rewrite (includes_app_l _ _ _ Hs). now rewrite orb_true_r.
  - rewrite (includes_app_l _ _ _ Hs). now rewrite !orb_true_r.
Qed.

Lemma fatal_suffix (s t : string) :
  isFatalMessage t = true -> isFatalMessage (s +:+ t) = true.
Proof.
  unfold isFatalMessage. cbn zeta. rewrite toLowerCase_app.
  intros Hs. apply orb_true_iff in Hs as [Hs | Hs]; [apply orb_true_iff in Hs as [Hs | Hs] |].
  - now rewrite (includes_app_r _ _ _ Hs).
  - rewrite (includes_app_r _ _ _ Hs). now rewrite orb_true_r.
  - rewrite (includes_app_r _ _ _ Hs). now rewrite !orb_true_r.
Qed.

Section VisionFacts.
Import GeminiService.

Lemma attempts_fail_fast (replies : nat -> GeminiReply) (error : Thrown) :
  tryBlock (replies 0%nat) = inr error -> isQuotaError error = false ->
  attemptsFrom replies 0 MAX_RETRIES = (AnalysisThrows (rethrown error), []).
Proof. intros Htry Hq. unfold MAX_RETRIES. cbn [attemptsFrom]. now rewrite Htry, Hq. Qed.


Lemma attempts_quota_thrice (replies : nat -> GeminiReply) (error : Thrown) :
  (forall j, (j < 2)%nat ->
     exists error', tryBlock (replies j) = inr error' /\ isQuotaError error' = true) ->
  tryBlock (replies 2%nat) = inr error ->
  attemptsFrom replies 0 MAX_RETRIES = (AnalysisThrows (rethrown error), [2000; 4000]).
Proof.
  intros Hfail Hlast. unfold MAX_RETRIES. cbn [attemptsFrom].
  destruct (Hfail 0%nat ltac:(lia)) as (e0 & -> & ->).
  destruct (Hfail 1%nat ltac:(lia)) as (e1 & -> & ->). cbn. rewrite Hlast.
  now rewrite andb_false_r.
Qed.



Lemma claimNext_isCancelled (w : nat) (s : Pool) :
  isCancelled (claimNext w s) = isCancelled s.
Proof.
  unfold claimNext. destruct (isCancelled s) eqn:Hc; [exact Hc |].
  destruct (queue s) as [| [i p] rest]; [exact Hc | reflexivity].
Qed.

Lemma claimNext_keeps_logs (w : nat) (s : Pool) (e : LogEntry) :
  e ∈ logs s -> e ∈ logs (claimNext w s).
Proof.
  intros Hin. unfold claimNext. destruct (isCancelled s); [exact Hin |].
  destruct (queue s) as [| [i p] rest]; [exact Hin |].
  cbn. apply elem_of_app. now left.
Qed.

Section ServiceFailures.
Context `{FloatOps}.
Variable settings : Settings.
Variable pts : list OSMPoint.
Variable image : nat -> StreetViewService.ImageReply.
Variable metadata : nat -> StreetViewService.MetadataReply.
Variable vision : nat -> nat -> GeminiReply.

(** X19: a key that the vision service rejects stops the run: when the
    first call for a sample fails with an error that is not a quota error
    and whose message tells of an invalid key or a denied permission, the
    worker cancels the run, leaves the queue as it is and its promise is
    rejected.  A quota error that persists over the three calls does not:
    the sample gets a result without a detection, the failure is logged as
    a quota failure and the run goes on. *)
Theorem rejected_key_stops_the_run (s : Pool) (w index : nat) (point : OSMPoint)
    (imageUrl : string) (imageDate : option string) :
  apiKey settings <> EmptyString ->
  workers s !! w = Some (Detecting index point imageUrl imageDate) ->
  let s' := step settings pts (respond (apiKey settings) image metadata vision) s (Resume w) in
  (forall error,
      tryBlock (vision index 0%nat) = inr error ->
      isQuotaError error = false -> tellsOfKey error = true ->
      isCancelled s' = true /\ queue s' = queue s
      /\ workers s' !! w = Some (Rejected keyText))
  /\ ((forall j, (j < 3)%nat ->
         exists error, tryBlock (vision index j) = inr error
                       /\ isQuotaError error = true /\ tellsOfKey error = false) ->
      isCancelled s' = isCancelled s
      /\ LogQuota index ∈ logs s'
      /\ (results s !! index = Some None ->
          exists a, results s' !! index = Some (Some a)
                    /\ detectedSpeed a = None /\ isDiscrepancy a = false)).
Proof.
  intros Hkey Hw. cbn zeta.
  apply String.eqb_neq in Hkey.
  assert (Hlen : (w < length (workers s))%nat) by now apply lookup_lt_Some in Hw.
  cbn [step]. rewrite Hw. unfold afterAnalysis.
  assert (Hcall : analysisCall (respond (apiKey settings) image metadata vision index)
                  = fst (analyzeSpeedSign (apiKey settings) (vision index))) by reflexivity.
  rewrite Hcall. unfold analyzeSpeedSign. rewrite Hkey.
  split.
  - intros error Htry Hq Hbad. rewrite (attempts_fail_fast _ _ Htry Hq). cbn [fst].
    unfold rethrown. rewrite Hbad.
    unfold failTask. replace (isFatalMessage keyText) with true by (vm_compute; reflexivity).
    cbn [setWorker storeResult cancel addLog isCancelled queue workers].
    split; [reflexivity |]. split; [reflexivity |].
    now apply list_lookup_insert_eq.
  - intros Hquota.
    destruct (Hquota 2%nat ltac:(lia)) as (e2 & He2 & Hq2 & Hgood).
    rewrite (attempts_quota_thrice _ e2); [| | exact He2].
    2:{ intros j Hj. destruct (Hquota j ltac:(lia)) as (e & He & Hq & _). eauto. }
    cbn [fst]. unfold rethrown. rewrite Hgood, Hq2. unfold failTask.
    replace (isFatalMessage quotaText) with false by (vm_compute; reflexivity).
    replace (Js.includes (Js.toLowerCase quotaText) "quota") with true
      by (vm_compute; reflexivity).
    match goal with
    | |- context [claimNext w ?st] => set (stored := st)
    end.
    split; [now rewrite claimNext_isCancelled |]. split.
    { apply claimNext_keeps_logs. unfold stored. cbn. apply elem_of_app. right. left. }
    intros Hslot. rewrite claimNext_results. unfold stored. cbn [storeResult results addLog].
    rewrite arraySet_in_range by now apply lookup_lt_Some in Hslot.
    eexists. split; [apply list_lookup_insert_eq; now apply lookup_lt_Some in Hslot |].
    split; reflexivity.
Qed.

(** X20: a status 403 for the image of a sample stops the run, whatever
    the body of the response; an image that is missing (a content of less
    than 5000 bytes) does not: the sample gets a result with the
    placeholder image and no detection, and the run goes on. *)
Theorem forbidden_image_stops_the_run (s : Pool) (w index : nat) (point : OSMPoint) :
  apiKey settings <> EmptyString ->
  workers s !! w = Some (Fetching index point) ->
  let s' := step settings pts (respond (apiKey settings) image metadata vision) s (Resume w) in
  (forall statusText errorBody contentLength blobType base64,
      image index = StreetViewService.ImageResponse 403 statusText errorBody contentLength
                      blobType base64 ->
      isCancelled s' = true /\ queue s' = queue s
      /\ exists message, workers s' !! w = Some (Rejected message))
  /\ (forall status statusText errorBody n blobType base64,
        image index = StreetViewService.ImageResponse status statusText errorBody (Some n)
                        blobType base64 ->
        200 <= status <= 299 -> n < 5000 ->
        isCancelled s' = isCancelled s
        /\ (results s !! index = Some None ->
            exists a, results s' !! index = Some (Some a)
                      /\ detectedSpeed a = None /\ isDiscrepancy a = false
                      /\ imageUrl a = placeholderImage)).
Proof.
  intros Hkey Hw. cbn zeta. apply String.eqb_neq in Hkey.
  assert (Hlen : (w < length (workers s))%nat) by now apply lookup_lt_Some in Hw.
  cbn [step]. rewrite Hw. unfold afterFetch.
  assert (Hcall : imageResult (respond (apiKey settings) image metadata vision index)
                  = StreetViewService.getStreetViewImage (apiKey settings) (image index))
    by reflexivity.
  rewrite Hcall. unfold StreetViewService.getStreetViewImage. rewrite Hkey.
  split.
  - intros statusText errorBody contentLength blobType base64 ->.
    cbn [Z.leb Z.eqb Z.compare Pos.compare Pos.compare_cont andb negb Pos.eqb].
    match goal with
    | |- context [failTask _ _ _ _ _ _ ?m _] => set (message := m)
    end.
    assert (Hfatal : isFatalMessage message = true).
    { unfold message. apply fatal_prefix. vm_compute. reflexivity. }
    unfold failTask. rewrite Hfatal.
    cbn [setWorker storeResult cancel addLog isCancelled queue workers].
    split; [reflexivity |]. split; [reflexivity |].
    exists message. now apply list_lookup_insert_eq.
  - intros status statusText errorBody n blobType base64 -> Hstatus Hn.
    rewrite (proj2 (Z.leb_le 200 status)) by lia.
    rewrite (proj2 (Z.leb_le status 299)) by lia.
    rewrite (proj2 (Z.ltb_lt n 5000)) by lia. cbn [andb negb].
    unfold failTask.
    replace (isFatalMessage "Street View imagery not available at this location.")
      with false by (vm_compute; reflexivity).
    replace (Js.includes (Js.toLowerCase "Street View imagery not available at this location.")
               "quota") with false by (vm_compute; reflexivity).
    match goal with
    | |- context [claimNext w ?st] => set (stored := st)
    end.
    split.
    + now rewrite claimNext_isCancelled.
    + intros Hslot. rewrite claimNext_results. unfold stored.
      cbn [storeResult results addLog].
      rewrite arraySet_in_range by now apply lookup_lt_Some in Hslot.
      eexists. split; [apply list_lookup_insert_eq; now apply lookup_lt_Some in Hslot |].
      repeat split; reflexivity.
Qed.
End ServiceFailures.

Lemma rejected_key_stops_the_run_witness :
  isCancelled (@step planarOps Demo.oneWorker [Waiting.sample]
                 (respond "key" Waiting.noImage Waiting.noMetadata Waiting.badKey)
                 Waiting.detecting (Resume 0%nat)) = true.
Proof.
  refine (proj1 (proj1 (@rejected_key_stops_the_run planarOps Demo.oneWorker [Waiting.sample]
                          Waiting.noImage Waiting.noMetadata Waiting.badKey Waiting.detecting 0 0
                          Waiting.sample "data:image/jpeg;base64,img" None _ _) _ _ _ _)).
  - discriminate.
  - reflexivity.
  - reflexivity.
  - vm_compute. reflexivity.
  - vm_compute. reflexivity.
Defined.

Lemma forbidden_image_stops_the_run_witness :
  isCancelled (@step planarOps Demo.oneWorker [Waiting.sample]
                 (respond "key" Waiting.noImage Waiting.noMetadata Waiting.badKey)
                 Waiting.fetching (Resume 0%nat)) = true.
Proof.
  refine (proj1 (proj1 (@forbidden_image_stops_the_run planarOps Demo.oneWorker
                          [Waiting.sample] Waiting.noImage Waiting.noMetadata Waiting.badKey
                          Waiting.fetching 0 0 Waiting.sample _ _) _ _ _ _ _ _)).
  - discriminate.
  - reflexivity.
  - reflexivity.
Defined.
End VisionFacts.

(** ** The report *)

Section ReportChecks.
Import PdfService.

Lemma digit_is_not_m (c : ascii) :
  Js.isDigit c = true -> Js.lowerChar c = c /\ Ascii.eqb "m" c = false.
Proof.
  destruct c as [[] [] [] [] [] [] [] []]; try discriminate; intros _; split; reflexivity.
Qed.

Lemma digits_match_themselves (s : string) :
  onlyDigits s = true -> Js.digitRun s = s /\ Js.includes (Js.toLowerCase s) "mph" = false.
Proof.
  induction s as [| c s IH]; [split; reflexivity |].
  cbn [onlyDigits]. intros Hd. apply andb_true_iff in Hd as [Hc Hs].
  destruct (IH Hs) as [Hrun Hinc]. destruct (digit_is_not_m c Hc) as [Hlow Hm].
  split.
  - cbn [Js.digitRun]. now rewrite Hc, Hrun.
  - cbn [Js.toLowerCase Js.includes Js.startsWith]. rewrite Hlow, Hm, Hinc. reflexivity.
Qed.

Lemma number_has_no_unit (s : string) : onlyDigits s = true -> hasUnit s = false.
Proof.
  induction s as [| c s IH]; [reflexivity |].
  cbn [onlyDigits hasUnit]. intros Hd. apply andb_true_iff in Hd as [Hc Hs].
  rewrite (IH Hs), orb_false_r.
  assert (Hsp : Text.isSpace c = false).
  { destruct c as [[] [] [] [] [] [] [] []]; try discriminate; reflexivity. }
  now rewrite Hsp.
Qed.

(** X21: a tag made of digits only is taken for km/h by the worker, in
    every country, while the detected speed is converted from mph in the
    USA; the report prints such a tag with the unit of the country.  In
    the USA a tag 50 and a detected sign 50 are therefore flagged as a
    discrepancy (for every speed from 9 on) and both printed as 50 mph. *)
Theorem unitless_tag_is_compared_as_kmh (country tag : string) (detected : Q) :
  isNumber tag = true ->
  classify country (Some tag) (Some detected)
  = Qltb 5 (Qabs (inject_Z (Js.parseInt tag) - detectedSpeedInKmh country detected))
  /\ formatOsmSpeed (Some tag) country
     = tag +:+ " " +:+ (if String.eqb country "USA" then "mph" else "km/h")
  /\ ((inject_Z (Js.parseInt tag) == detected)%Q -> (9 <= detected)%Q ->
      classify "USA" (Some tag) (Some detected) = true).
Proof.
  intros Hnum. unfold isNumber in Hnum. apply andb_true_iff in Hnum as [Hne Hd].
  destruct (digits_match_themselves tag Hd) as [Hrun Hmph].
  assert (Hmatch : Js.matchDigits tag = Some tag).
  { destruct tag as [| c r]; [discriminate |]. cbn [Js.matchDigits].
    cbn [onlyDigits] in Hd. apply andb_true_iff in Hd as [Hc _]. now rewrite Hc, Hrun. }
  assert (Hgen : forall cn, classify cn (Some tag) (Some detected)
                 = Qltb 5 (Qabs (inject_Z (Js.parseInt tag) - detectedSpeedInKmh cn detected))).
  { intros cn. unfold classify. rewrite Hmatch. unfold osmSpeedInKmh. now rewrite Hmph. }
  split; [apply Hgen |]. split.
  - unfold formatOsmSpeed. rewrite (number_has_no_unit tag Hd).
    apply negb_true_iff in Hne. rewrite Hne. unfold isNumber. rewrite Hne, Hd. reflexivity.
  - intros Heq Hbig. rewrite Hgen. apply Qltb_lt. unfold detectedSpeedInKmh. cbn [String.eqb].
    replace (String.eqb "USA" "USA") with true by reflexivity.
    rewrite Heq.
    assert (Hdiff : (detected - detected * MPH_TO_KMH == - (detected * (60934 # 100000)))%Q).
    { unfold MPH_TO_KMH. field. }
    rewrite Hdiff, Qabs_opp. rewrite Qabs_pos.
    + apply Qlt_le_trans with (9 * (60934 # 100000))%Q; [reflexivity |].
      apply Qmult_le_compat_r; [exact Hbig | discriminate].
    + apply Qmult_le_0_compat; [| discriminate].
      apply Qle_trans with 9%Q; [discriminate | exact Hbig].
Qed.

Lemma unitless_tag_is_compared_as_kmh_witness :
  classify "USA" (Some "50") (Some 50%Q) = true
  /\ formatOsmSpeed (Some "50") "USA" = "50 mph".
Proof.
  destruct (unitless_tag_is_compared_as_kmh "USA" "50" 50 eq_refl) as (_ & Hshown & Hflag).
  split; [apply Hflag; [reflexivity | discriminate] | exact Hshown].
Defined.

Lemma filter_length_iff {A} (P Q : A -> Prop) `{!forall x, Decision (P x)}
    `{!forall x, Decision (Q x)} (l : list A) :
  Forall (fun x => P x <-> Q x) l -> length (filter P l) = length (filter Q l).
Proof.
  induction l as [| x l IH]; intros Hall; [reflexivity |].
  apply Forall_cons in Hall as [Hx Hall]. rewrite !filter_cons.
  destruct (decide (P x)), (decide (Q x)); cbn [length]; rewrite (IH Hall); tauto.
Qed.

Lemma filter_three_ways {A} (P Q R : A -> Prop) `{!forall x, Decision (P x)}
    `{!forall x, Decision (Q x)} `{!forall x, Decision (R x)} (l : list A) :
  Forall (fun x => (P x /\ ~ Q x /\ ~ R x) \/ (~ P x /\ Q x /\ ~ R x)
                   \/ (~ P x /\ ~ Q x /\ R x)) l ->
  (length (filter P l) + length (filter Q l) + length (filter R l) = length l)%nat.
Proof.
  induction l as [| x l IH]; intros Hall; [reflexivity |].
  apply Forall_cons in Hall as [Hx Hall]. rewrite !filter_cons. specialize (IH Hall).
  destruct (decide (P x)), (decide (Q x)), (decide (R x)); cbn [length]; try lia; tauto.
Qed.

Lemma status_cases (a : AnalyzedPoint) :
  (isDiscrepancy a = true -> detectedSpeed a <> None) ->
  (status a = "Discrepancy" <-> isDiscrepancy a = true)
  /\ (status a = "Match" <-> isDiscrepancy a = false /\ detectedSpeed a <> None)
  /\ (status a = "No Sign" <-> detectedSpeed a = None).
Proof.
  intros Ha. unfold status. destruct (isDiscrepancy a).
  - specialize (Ha eq_refl).
    split; [| split]; split; intros Hx; try discriminate; try tauto;
      try (destruct Hx; discriminate).
  - destruct (detectedSpeed a) as [d |].
    + rewrite bool_decide_eq_true_2 by discriminate.
      split; [| split]; split; intros Hx; try discriminate; try tauto;
        try (split; [reflexivity | discriminate]).
    + rewrite bool_decide_eq_false_2 by (intros Hx; now apply Hx).
      split; [| split]; split; intros Hx; try discriminate; try tauto;
        try (destruct Hx as [_ Hx]; now contradiction Hx).
Qed.

Lemma count_partition (points : list AnalyzedPoint) :
  Forall (fun a => isDiscrepancy a = true -> detectedSpeed a <> None) points ->
  (discrepanciesFound points + matchesFound points + imagesWithNoSign points
   = length points)%nat
  /\ discrepanciesFound points = length (filter (fun a => status a = "Discrepancy") points)
  /\ matchesFound points = length (filter (fun a => status a = "Match") points)
  /\ imagesWithNoSign points = length (filter (fun a => status a = "No Sign") points).
Proof.
  intros Hall. unfold discrepanciesFound, matchesFound, imagesWithNoSign.
  split; [| split; [| split]].
  - apply filter_three_ways. eapply Forall_impl; [exact Hall |].
    intros a Ha. cbn beta in *. destruct (isDiscrepancy a).
    + specialize (Ha eq_refl). left. repeat split; auto. intros [? _]. discriminate.
    + destruct (detectedSpeed a) as [d |].
      * right. left. repeat split; discriminate.
      * right. right. repeat split; try discriminate. intros [_ Hx]. now apply Hx.
  - apply filter_length_iff. eapply Forall_impl; [exact Hall |].
    intros a Ha. cbn beta. symmetry. apply (status_cases a Ha).
  - apply filter_length_iff. eapply Forall_impl; [exact Hall |].
    intros a Ha. cbn beta. symmetry. apply (status_cases a Ha).
  - apply filter_length_iff. eapply Forall_impl; [exact Hall |].
    intros a Ha. cbn beta. symmetry. apply (status_cases a Ha).
Qed.

Section ReportFacts.
Context `{FloatOps}.
Variable settings : Settings.

(** X22: for the output of a run, the three counts of the summary of the
    report add up to the number of points, and each is the number of
    cells of the grid that show the corresponding status. *)
Theorem summary_counts_partition_the_points (samples : list OSMPoint) (stopped : bool)
    (logs3 : list LogEntry) (env : nat -> Responses) (schedule : list Event)
    (app : AppState) :
  analyzeSamples settings samples stopped logs3 env schedule = Ok app ->
  let points := analyzedPoints app in
  (discrepanciesFound points + matchesFound points + imagesWithNoSign points
   = length points)%nat
  /\ discrepanciesFound points = length (filter (fun a => status a = "Discrepancy") points)
  /\ matchesFound points = length (filter (fun a => status a = "Match") points)
  /\ imagesWithNoSign points = length (filter (fun a => status a = "No Sign") points).
Proof.
  intros Hrun. cbn zeta. apply count_partition. apply Forall_forall. intros a Hin Hflag.
  apply analyzeSamples_run in Hrun as [(_ & Hnil & _) | Hrun].
  { rewrite Hnil in Hin. now apply elem_of_nil in Hin. }
  destruct Hrun as (logs6 & served & s & Hs & _ & Hout & _).
  rewrite Hout in Hin. apply finalPoints_elem in Hin as [i Hi].
  pose proof (stored_results_classified settings (capSamples settings samples) env stopped
                logs6 served) as Hcl.
  rewrite <- Hs in Hcl. destruct (Hcl i a Hi) as (_ & _ & Hclass).
  intros Hnone. rewrite Hclass, Hnone, classify_without_detection in Hflag. discriminate.
Qed.
End ReportFacts.

Lemma summary_counts_partition_the_points_witness :
  exists app,
    @analyzeSamples planarOps Demo.twoWorkers Demo.fourSamples false [] Demo.sign50
      Demo.outOfOrder = Ok app
    /\ (discrepanciesFound (analyzedPoints app) + matchesFound (analyzedPoints app)
        + imagesWithNoSign (analyzedPoints app) = 3)%nat.
Proof.
  eexists. split; [vm_compute; reflexivity |].
  refine (proj1 (@summary_counts_partition_the_points planarOps Demo.twoWorkers
                   Demo.fourSamples false [] Demo.sign50 Demo.outOfOrder _ _)).
  vm_compute. reflexivity.
Defined.

Lemma pages_succ (n : nat) : ((S n + 5) / 6 = S (n / 6))%nat.
Proof.
  replace (S n + 5)%nat with (n + 1 * 6)%nat by lia.
  rewrite Nat.div_add by lia. lia.
Qed.

Lemma pages_step (n : nat) :
  (if (n mod 6 =? 0)%nat then S ((n + 5) / 6) else ((n + 5) / 6)%nat) = S (n / 6).
Proof.
  pose proof (Nat.div_mod_eq n 6) as Hn.
  pose proof (Nat.mod_upper_bound n 6 ltac:(lia)) as Hm.
  destruct (n mod 6 =? 0)%nat eqn:Hz.
  - apply Nat.eqb_eq in Hz. f_equal.
    replace (n + 5)%nat with (5 + (n / 6) * 6)%nat by lia.
    rewrite Nat.div_add by lia. reflexivity.
  - apply Nat.eqb_neq in Hz.
    replace (n + 5)%nat with ((n mod 6 - 1) + (S (n / 6)) * 6)%nat by lia.
    rewrite Nat.div_add by lia. rewrite Nat.div_small by lia. lia.
Qed.

Lemma gridCells_spec (n : nat) :
  fst (gridCells n) = ((n + 5) / 6)%nat
  /\ length (snd (gridCells n)) = n
  /\ forall i, (i < n)%nat ->
       snd (gridCells n) !! i = Some (S (i / 6), ((i mod 6) mod 2)%nat, ((i mod 6) / 2)%nat).
Proof.
  unfold gridCells. induction n as [| n IH].
  - split; [reflexivity |]. split; [reflexivity |]. intros; lia.
  - rewrite seq_S, foldl_app, Nat.add_0_l. cbn [foldl]. destruct IH as (Hp & Hl & Hc).
    set (acc := foldl placeCell (0%nat, []) (seq 0 n)) in *.
    unfold placeCell, ITEMS_PER_PAGE. cbn [fst snd].
    rewrite Hp, pages_step. split; [| split].
    + symmetry. apply pages_succ.
    + rewrite length_app, Hl. cbn [length]. lia.
    + intros i Hi. destruct (decide (i < n)%nat) as [Hlt | Hge].
      * rewrite lookup_app_l by lia. now apply Hc.
      * assert (i = n) as -> by lia. rewrite lookup_app_r by lia.
        rewrite Hl, Nat.sub_diag. reflexivity.
Qed.

(** X23: the grid of the report.  Point [i] is drawn on grid page
    [i / 6 + 1], in column [(i mod 6) mod 2] and row [(i mod 6) / 2]; no
    two points are drawn in the same cell; a page gets three rows of two
    cells, the lowest ending 281 mm from the top; and [ceil(n / 6)] pages
    are added for [n] points. *)
Theorem grid_cells_do_not_collide (n : nat) :
  let cells := snd (gridCells n) in
  fst (gridCells n) = ((n + 5) / 6)%nat
  /\ length cells = n
  /\ NoDup cells
  /\ (forall i page col row, cells !! i = Some (page, col, row) ->
        page = S (i / 6) /\ (col < 2)%nat /\ (row < 3)%nat
        /\ cellY row + CELL_HEIGHT <= 281).
Proof.
  cbn zeta. destruct (gridCells_spec n) as (Hp & Hl & Hc).
  split; [exact Hp |]. split; [exact Hl |]. split.
  - apply NoDup_alt. intros i j cell Hi Hj.
    pose proof (lookup_lt_Some _ _ _ Hi) as Hi'. pose proof (lookup_lt_Some _ _ _ Hj) as Hj'.
    rewrite Hl in Hi', Hj'. rewrite (Hc i Hi') in Hi. rewrite (Hc j Hj') in Hj.
    pose proof (Nat.div_mod_eq i 6) as Hdi. pose proof (Nat.div_mod_eq j 6) as Hdj.
    pose proof (Nat.div_mod_eq (i mod 6) 2) as Hri.
    pose proof (Nat.div_mod_eq (j mod 6) 2) as Hrj.
    remember (i / 6)%nat as qi. remember ((i mod 6) mod 2)%nat as ci.
    remember ((i mod 6) / 2)%nat as ri. remember (j / 6)%nat as qj.
    remember ((j mod 6) mod 2)%nat as cj. remember ((j mod 6) / 2)%nat as rj.
    rewrite <- Hi in Hj. injection Hj as Hq Hcol Hrow. lia.
  - intros i page col row Hi.
    pose proof (lookup_lt_Some _ _ _ Hi) as Hi'. rewrite Hl in Hi'.
    rewrite (Hc i Hi') in Hi.
    pose proof (Nat.mod_upper_bound i 6 ltac:(lia)) as Hm.
    pose proof (Nat.mod_upper_bound (i mod 6) 2 ltac:(lia)) as Hm2.
    assert (Hrow : ((i mod 6) / 2 < 3)%nat) by (apply Nat.Div0.div_lt_upper_bound; lia).
    remember (i / 6)%nat as qi. remember ((i mod 6) mod 2)%nat as ci.
    remember ((i mod 6) / 2)%nat as ri.
    injection Hi as <- <- <-.
    split; [reflexivity |]. split; [exact Hm2 |]. split; [exact Hrow |].
    unfold cellY, CELL_HEIGHT. lia.
Qed.
End ReportChecks.

(** ** The form, the key of the cache and the errors of the handler *)

Section FormFacts.
Context `{FloatOps}.

(** X24: whatever is typed in the form, the start offset is not negative,
    the sampling distance is at least 25 m, the confidence threshold lies
    between 0 and 1; and with these values a path that is longer than the
    start offset always gets a first sample. *)
Theorem form_values_give_a_first_sample (path : list OSMPoint)
    (offsetInput distanceInput : option Z) (confidenceInput : option Q) :
  let startOffset := inject_Z (startOffsetFromInput offsetInput) in
  let samplingDistance := inject_Z (samplingDistanceFromInput distanceInput) in
  let threshold := confidenceThresholdFromInput confidenceInput in
  (0 <= startOffset)%Q
  /\ (25 <= samplingDistance)%Q
  /\ (0 <= threshold)%Q /\ (threshold <= 1)%Q
  /\ ((startOffset < totalPathDistance path)%Q ->
      exists first rest,
        getSamplePoints path (samplingDistance / 1000) startOffset = Ok (first :: rest)).
Proof.
  cbn zeta.
  assert (Hoff : (0 <= inject_Z (startOffsetFromInput offsetInput))%Q).
  { change 0%Q with (inject_Z 0). rewrite <- Zle_Qle. unfold startOffsetFromInput. lia. }
  assert (Hdist : (25 <= inject_Z (samplingDistanceFromInput distanceInput))%Q).
  { change 25%Q with (inject_Z 25). rewrite <- Zle_Qle. unfold samplingDistanceFromInput. lia. }
  split; [exact Hoff |]. split; [exact Hdist |]. split; [| split].
  - unfold confidenceThresholdFromInput. apply Q.le_max_l.
  - unfold confidenceThresholdFromInput. apply Q.max_lub; [discriminate | apply Q.le_min_l].
  - intros Hlt. apply first_sample_exists; [| exact Hoff | exact Hlt].
    apply Qlt_shift_div_l; [reflexivity |]. lra.
Qed.
End FormFacts.

(** ** The key of the cache *)

Lemma isSpace_lowerChar (c : ascii) :
  Text.isSpace (Js.lowerChar c) = Text.isSpace c /\ Js.lowerChar (Js.lowerChar c) = Js.lowerChar c.
Proof. destruct c as [[] [] [] [] [] [] [] []]; split; reflexivity. Qed.

Lemma toLowerCase_idem (s : string) : Js.toLowerCase (Js.toLowerCase s) = Js.toLowerCase s.
Proof.
  induction s as [| c s IH]; [reflexivity |]. cbn [Js.toLowerCase].
  now rewrite IH, (proj2 (isSpace_lowerChar c)).
Qed.

Lemma trimStart_lower (s : string) :
  Text.trimStart (Js.toLowerCase s) = Js.toLowerCase (Text.trimStart s).
Proof.
  induction s as [| c s IH]; [reflexivity |]. cbn [Js.toLowerCase Text.trimStart].
  rewrite (proj1 (isSpace_lowerChar c)). destruct (Text.isSpace c); [exact IH | reflexivity].
Qed.

Lemma trimEnd_lower (s : string) :
  Text.trimEnd (Js.toLowerCase s) = Js.toLowerCase (Text.trimEnd s).
Proof.
  induction s as [| c s IH]; [reflexivity |]. cbn [Js.toLowerCase Text.trimEnd].
  rewrite IH, (proj1 (isSpace_lowerChar c)).
  destruct (Text.trimEnd s) as [| c' r']; cbn [Js.toLowerCase]; [| reflexivity].
  now destruct (Text.isSpace c).
Qed.

Lemma trimEnd_idem (s : string) : Text.trimEnd (Text.trimEnd s) = Text.trimEnd s.
Proof.
  induction s as [| c s IH]; [reflexivity |]. cbn [Text.trimEnd].
  destruct (Text.trimEnd s) as [| c' r'] eqn:Hs.
  - destruct (Text.isSpace c) eqn:Hc; [reflexivity |]. cbn [Text.trimEnd]. now rewrite Hc.
  - cbn [Text.trimEnd] in *. now rewrite IH.
Qed.

Lemma trimStart_trimEnd (s : string) :
  Text.trimStart (Text.trimEnd (Text.trimStart s)) = Text.trimEnd (Text.trimStart s).
Proof.
  induction s as [| c s IH]; [reflexivity |]. cbn [Text.trimStart].
  destruct (Text.isSpace c) eqn:Hc; [exact IH |]. cbn [Text.trimEnd].
  destruct (Text.trimEnd s) as [| c' r']; rewrite ?Hc; cbn [Text.trimStart]; now rewrite Hc.
Qed.

Lemma keyPart_insensitive (x : string) :
  OsmService.keyPart (Js.toLowerCase x) = OsmService.keyPart x
  /\ OsmService.keyPart (Text.trim x) = OsmService.keyPart x.
Proof.
  unfold OsmService.keyPart, Text.trim. split.
  - now rewrite trimStart_lower, trimEnd_lower, toLowerCase_idem.
  - now rewrite trimStart_trimEnd, trimEnd_idem.
Qed.

(** X25: for names written in ASCII characters, the key under which a
    street is cached does not depend on the case of the three names nor on
    blanks around them: the names as typed, trimmed or in lower case give
    the same key, so a path cached for one spelling is served for the
    others. *)
Theorem cache_key_ignores_case_and_blanks (street city provinceState : string) :
  Text.isAscii street = true -> Text.isAscii city = true ->
  Text.isAscii provinceState = true ->
  OsmService.getCacheKey (Js.toLowerCase street) (Js.toLowerCase city)
    (Js.toLowerCase provinceState)
  = OsmService.getCacheKey street city provinceState
  /\ OsmService.getCacheKey (Text.trim street) (Text.trim city) (Text.trim provinceState)
     = OsmService.getCacheKey street city provinceState
  /\ forall (now : Z) (b : OsmService.Browser),
       OsmService.getCachedData (Js.toLowerCase (Text.trim street))
         (Js.toLowerCase (Text.trim city)) (Js.toLowerCase (Text.trim provinceState)) now b
       = OsmService.getCachedData street city provinceState now b.
Proof.
  intros _ _ _.
  unfold OsmService.getCachedData, OsmService.getCacheKey.
  split; [| split].
  - now rewrite !(proj1 (keyPart_insensitive _)).
  - now rewrite !(proj2 (keyPart_insensitive _)).
  - intros now b.
    now rewrite !(proj1 (keyPart_insensitive _)), !(proj2 (keyPart_insensitive _)).
Qed.

Lemma cache_key_ignores_case_and_blanks_witness :
  OsmService.getCacheKey "main st" "springfield" "ontario"
  = OsmService.getCacheKey " Main St " "SPRINGFIELD" "Ontario".
Proof.
  transitivity (OsmService.getCacheKey (Js.toLowerCase " Main St ")
                  (Js.toLowerCase "SPRINGFIELD") (Js.toLowerCase "Ontario")).
  - vm_compute. reflexivity.
  - apply (cache_key_ignores_case_and_blanks " Main St " "SPRINGFIELD" "Ontario");
      reflexivity.
Defined.

Section HandlerErrors.
Context `{FloatOps}.
Variable settings : Settings.

(** X26: the handler tells a key error from any other error by three words
    looked for in the message, and the message for a street that is not
    found quotes the names typed by the user.  When the path is empty and
    the street name contains one of these words ("permission", "api key",
    "403 forbidden", in any case), the user is shown the message for an
    invalid API key and the key is marked invalid. *)
Theorem unknown_street_can_look_like_a_key_error (prev : AppState) (fromCache stopped : bool)
    (env : nat -> Responses) (schedule : list Event) :
  apiKey settings <> EmptyString ->
  streetName settings <> EmptyString ->
  cityName settings <> EmptyString ->
  provinceState settings <> EmptyString ->
  isFatalMessage (streetName settings) = true ->
  exists app,
    handleAnalyzeClick settings prev (Ok ([], fromCache)) stopped env schedule = Ok app
    /\ error app = Some keyErrorText
    /\ isKeyInvalid app = true
    /\ analyzedPoints app = [].
Proof.
  intros Hkey Hstreet Hcity Hprov Hfatal.
  apply String.eqb_neq in Hkey, Hstreet, Hcity, Hprov.
  unfold handleAnalyzeClick. rewrite Hkey, Hstreet, Hcity, Hprov. cbn [orb].
  assert (Hmsg : isFatalMessage (noSegmentsText settings) = true).
  { unfold noSegmentsText.
    apply fatal_suffix, fatal_suffix. apply fatal_prefix. exact Hfatal. }
  destruct (reverseDirection settings); cbn [reverse length Nat.eqb];
    unfold handlerCatch; rewrite Hmsg; eexists; repeat split; reflexivity.
Qed.
End HandlerErrors.

Lemma unknown_street_can_look_like_a_key_error_witness :
  exists app,
    @handleAnalyzeClick planarOps
      (mkSettings "key" "Permission Road" "Springfield" "Ontario" "CAN" false 0 500 10 1 (3 # 10))
      Demo.blank (Ok ([], false)) false Demo.sign50 [] = Ok app
    /\ error app = Some keyErrorText.
Proof.
  destruct (@unknown_street_can_look_like_a_key_error planarOps
              (mkSettings "key" "Permission Road" "Springfield" "Ontario" "CAN" false 0 500 10 1
                 (3 # 10))
              Demo.blank false false Demo.sign50 [])
    as (app & Hrun & Herr & _); try discriminate.
  - vm_compute. reflexivity.
  - exists app. split; [exact Hrun | exact Herr].
Defined.
